(** * DIN8580 taxonomy builder: a shallow embedding of
      [scripts/build_din8580_chart.py] and the properties of its
      level parser, label selection, edge filter and forest builder. *)

From Stdlib Require Import String Ascii.
From Stdlib Require Import List NArith ZArith Lia Bool Permutation Sorted.
Import ListNotations.

Set Warnings "-register-all".

(** ** The Python runtime the script runs on

    A Python [str] is a sequence of code points.  What the script asks of
    the interpreter on ASCII text is written out below; the Unicode tables
    behind [str.isalnum], [str.lower] and [int] outside ASCII, and the
    iteration order of a [set] of strings (it follows the string hashes,
    which are salted per process), are fields of the runtime. *)

Definition pystr := list N.

Class PyRuntime := {
  uni_isalnum : N -> bool;
  uni_lower : pystr -> pystr;
  uni_int : pystr -> option Z;
  set_iter : list pystr -> list pystr;
  set_iter_perm : forall l, Permutation (set_iter l) l
}.

(** ** Strings *)

Module Str.

Definition lit (s : string) : pystr := map N_of_ascii (list_ascii_of_string s).

Fixpoint eqb (a b : pystr) : bool :=
  match a, b with
  | [], [] => true
  | x :: a', y :: b' => N.eqb x y && eqb a' b'
  | _, _ => false
  end.

Definition is_ascii (c : N) : bool := (c <? 128)%N.
Definition isdigit (c : N) : bool := ((48 <=? c) && (c <=? 57))%N.
Definition isupper (c : N) : bool := ((65 <=? c) && (c <=? 90))%N.
Definition islower (c : N) : bool := ((97 <=? c) && (c <=? 122))%N.
Definition ascii_isalnum (c : N) : bool := isdigit c || isupper c || islower c.
Definition ascii_lower (c : N) : N := if isupper c then (c + 32)%N else c.

(** [str.isspace] of one code point, the class [\s] of [re] on [str]. *)
Definition isspace (c : N) : bool :=
  (((9 <=? c) && (c <=? 13)) || ((28 <=? c) && (c <=? 32))
   || (c =? 133) || (c =? 160) || (c =? 5760)
   || ((8192 <=? c) && (c <=? 8202))
   || (c =? 8232) || (c =? 8233) || (c =? 8239) || (c =? 8287)
   || (c =? 12288))%N.

(** [s.split()]: the maximal runs of non-whitespace, in order. *)
Fixpoint split (s : pystr) : list pystr :=
  match s with
  | [] => []
  | c :: s' =>
      if isspace c then split s'
      else match s' with
           | [] => [[c]]
           | d :: _ =>
               if isspace d then [c] :: split s'
               else match split s' with
                    | t :: ts => (c :: t) :: ts
                    | [] => [[c]]
                    end
           end
  end.

(** [sep.join(parts)] *)
Fixpoint join (sep : pystr) (parts : list pystr) : pystr :=
  match parts with
  | [] => []
  | [t] => t
  | t :: ts => t ++ sep ++ join sep ts
  end.

Fixpoint lstrip (s : pystr) : pystr :=
  match s with
  | c :: s' => if isspace c then lstrip s' else s
  | [] => []
  end.

Definition rstrip (s : pystr) : pystr := rev (lstrip (rev s)).

(** [s.strip()] *)
Definition strip (s : pystr) : pystr := rstrip (lstrip s).

(** [s.replace(a, b)] for one-character [a] and [b]. *)
Definition replace1 (a b : N) (s : pystr) : pystr :=
  map (fun c => if N.eqb c a then b else c) s.

(** [s.rstrip(ch)] for a one-character argument. *)
Fixpoint lstrip_char (ch : N) (s : pystr) : pystr :=
  match s with
  | c :: s' => if N.eqb c ch then lstrip_char ch s' else s
  | [] => []
  end.

Definition rstrip_char (ch : N) (s : pystr) : pystr :=
  rev (lstrip_char ch (rev s)).

(** The text after the last [ch] of [s]; all of [s] when it has none:
    [s.rsplit(ch, 1)[-1]]. *)
Fixpoint after_last (ch : N) (s : pystr) : pystr :=
  match s with
  | [] => []
  | c :: s' =>
      if existsb (N.eqb ch) s' then after_last ch s'
      else if N.eqb c ch then s' else s
  end.

(** Comparison of two [str]: code point by code point, a proper prefix
    first. *)
Definition compare (a b : pystr) : comparison := list_compare N.compare a b.

Section WithRuntime.
Context {rt : PyRuntime}.

(** A character of the class [\w]: [str.isalnum] or an underscore. *)
Definition is_word (c : N) : bool :=
  if is_ascii c then ascii_isalnum c || N.eqb c 95 else uni_isalnum c.

(** [s.lower()] *)
Definition lower (s : pystr) : pystr :=
  if forallb is_ascii s then map ascii_lower s else uni_lower s.

End WithRuntime.

End Str.

(** ** The fragment of [re] the script uses

    A backtracking matcher in continuation-passing style: alternatives are
    tried left to right, a star takes as many rounds as it can before it
    gives some back, and a capturing group records the text it spans. *)

Module Re.

Inductive regex :=
| Lit (c : N)              (* a literal, under IGNORECASE *)
| Class (p : N -> bool)    (* a character class *)
| Bound                    (* \b *)
| Eps
| Cat (r1 r2 : regex)
| Alt (r1 r2 : regex)
| Star (r : regex)         (* greedy *)
| Group (i : nat) (r : regex).

Definition Plus (r : regex) : regex := Cat r (Star r).

Fixpoint word (s : pystr) : regex :=
  match s with
  | [] => Eps
  | [c] => Lit c
  | c :: s' => Cat (Lit c) (word s')
  end.

Definition captures := list (nat * pystr).

Fixpoint group (m : captures) (i : nat) : pystr :=
  match m with
  | [] => []
  | (j, w) :: m' => if Nat.eqb i j then w else group m' i
  end.

(** Under IGNORECASE a letter of the pattern matches its two ASCII cases;
    the letters of this script's pattern (a e g h n p r t u) have no other
    case variant in Unicode. *)
Definition lit_match (c x : N) : bool :=
  N.eqb (Str.ascii_lower x) (Str.ascii_lower c).

Section WithRuntime.
Context {rt : PyRuntime}.

Definition word_opt (c : option N) : bool :=
  match c with Some x => Str.is_word x | None => false end.

(** [\b] between the character before the position and the one at it. *)
Definition at_boundary (prev : option N) (s : pystr) : bool :=
  negb (Bool.eqb (word_opt prev) (word_opt (hd_error s))).

Definition cont := option N -> pystr -> captures -> option captures.

(** The rounds of a greedy star: one more round of [step] if it can be
    had and the rest then matches, else the rest at once.  A round that
    reads nothing ends the loop; [n] bounds the number of rounds. *)
Fixpoint star_loop (step : option N -> pystr -> captures -> cont ->
                           option captures)
                   (k : cont) (n : nat) (prev : option N) (s : pystr)
                   (cs : captures) : option captures :=
  match n with
  | O => k prev s cs
  | S n' =>
      match step prev s cs
              (fun p1 s1 c1 =>
                 if Nat.ltb (length s1) (length s)
                 then star_loop step k n' p1 s1 c1 else None) with
      | Some res => Some res
      | None => k prev s cs
      end
  end.

Fixpoint matcher (r : regex) (prev : option N) (s : pystr) (cs : captures)
                 (k : cont) {struct r} : option captures :=
  match r with
  | Lit c =>
      match s with
      | x :: s' => if lit_match c x then k (Some x) s' cs else None
      | [] => None
      end
  | Class p =>
      match s with
      | x :: s' => if p x then k (Some x) s' cs else None
      | [] => None
      end
  | Bound => if at_boundary prev s then k prev s cs else None
  | Eps => k prev s cs
  | Cat r1 r2 =>
      matcher r1 prev s cs (fun p1 s1 c1 => matcher r2 p1 s1 c1 k)
  | Alt r1 r2 =>
      match matcher r1 prev s cs k with
      | Some res => Some res
      | None => matcher r2 prev s cs k
      end
  | Star r1 => star_loop (matcher r1) k (length s) prev s cs
  | Group i r1 =>
      matcher r1 prev s cs
        (fun p1 s1 c1 =>
           k p1 s1 ((i, firstn (length s - length s1) s) :: c1))
  end.

(** [pattern.search(text)]: the first position, from the left, at which the
    pattern matches. *)
Fixpoint search_from (r : regex) (prev : option N) (s : pystr)
  : option captures :=
  match matcher r prev s [] (fun _ _ cs => Some cs) with
  | Some cs => Some cs
  | None =>
      match s with
      | [] => None
      | x :: s' => search_from r (Some x) s'
      end
  end.

Definition search (r : regex) (s : pystr) : option captures :=
  search_from r None s.

(** The character before the position reached after reading [w]. *)
Fixpoint lastc (prev : option N) (w : pystr) : option N :=
  match w with
  | [] => prev
  | x :: w' => lastc (Some x) w'
  end.

(** What a successful run of the matcher has read: [matches r prev w rest
    cs cs'] says that [r] reads [w] in front of [rest], after the character
    [prev], and turns the captures [cs] into [cs']. *)
Inductive matches : regex -> option N -> pystr -> pystr ->
                    captures -> captures -> Prop :=
| M_Lit c x prev rest cs :
    lit_match c x = true -> matches (Lit c) prev [x] rest cs cs
| M_Class p x prev rest cs :
    p x = true -> matches (Class p) prev [x] rest cs cs
| M_Bound prev rest cs :
    at_boundary prev rest = true -> matches Bound prev [] rest cs cs
| M_Eps prev rest cs : matches Eps prev [] rest cs cs
| M_Cat r1 r2 prev w1 w2 rest c0 c1 c2 :
    matches r1 prev w1 (w2 ++ rest) c0 c1 ->
    matches r2 (lastc prev w1) w2 rest c1 c2 ->
    matches (Cat r1 r2) prev (w1 ++ w2) rest c0 c2
| M_AltL r1 r2 prev w rest c0 c1 :
    matches r1 prev w rest c0 c1 -> matches (Alt r1 r2) prev w rest c0 c1
| M_AltR r1 r2 prev w rest c0 c1 :
    matches r2 prev w rest c0 c1 -> matches (Alt r1 r2) prev w rest c0 c1
| M_Star0 r prev rest cs : matches (Star r) prev [] rest cs cs
| M_StarS r prev w1 w2 rest c0 c1 c2 :
    matches r prev w1 (w2 ++ rest) c0 c1 ->
    matches (Star r) (lastc prev w1) w2 rest c1 c2 ->
    matches (Star r) prev (w1 ++ w2) rest c0 c2
| M_Group i r prev w rest c0 c1 :
    matches r prev w rest c0 c1 ->
    matches (Group i r) prev w rest c0 ((i, w) :: c1).

End WithRuntime.

End Re.

(** ** Level metadata parser *)

Section LevelParser.
Context {rt : PyRuntime}.

Import Re.

Definition digits : regex := Plus (Class Str.isdigit).

(** The compiled pattern [\b(KW)\s*(NUM)\b], where KW is
    [Hauptgruppe|Gruppe|Untergruppe] and NUM is [[0-9]+(?:\.[0-9]+)*]. *)
Definition pattern : regex :=
  Cat Bound
 (Cat (Group 1 (Alt (word (Str.lit "Hauptgruppe"))
               (Alt (word (Str.lit "Gruppe"))
                    (word (Str.lit "Untergruppe")))))
 (Cat (Star (Class Str.isspace))
 (Cat (Group 2 (Cat digits (Star (Cat (Lit 46%N) digits))))
      Bound))).

Definition normalize (comment : option pystr) : pystr :=
  Str.join (Str.lit " ")
    (Str.split (match comment with Some c => c | None => [] end)).

(** Returns the pair (level number, level type), as the source does. *)
Definition extract_level_metadata (comment : option pystr)
  : option pystr * option pystr :=
  let normalized := normalize comment in
  match normalized with
  | [] => (None, None)
  | _ :: _ =>
      match search pattern normalized with
      | None => (None, None)
      | Some m =>
          let raw_type := Str.lower (group m 1) in
          let level_type :=
            if Str.eqb raw_type (Str.lit "hauptgruppe")
            then Str.lit "Hauptgruppe"
            else if Str.eqb raw_type (Str.lit "untergruppe")
            then Str.lit "Untergruppe"
            else Str.lit "Gruppe" in
          (Some (group m 2), Some level_type)
      end
  end.

End LevelParser.


(** ** Entity extractor *)

Record NodeBase := {
  id : pystr;
  label : pystr;
  raw_fragment : pystr;
  level_number : option pystr;
  level_type : option pystr
}.

(** An [xml.etree.ElementTree] element: tag (with its namespace in braces),
    attributes, text and child elements in document order. *)
Inductive Element :=
| Elem (tag : pystr) (attrib : list (pystr * pystr)) (text : option pystr)
       (children : list Element).

Definition tag (e : Element) := let (t, _, _, _) := e in t.
Definition attrib (e : Element) := let (_, a, _, _) := e in a.
Definition text (e : Element) := let (_, _, t, _) := e in t.
Definition children (e : Element) := let (_, _, _, c) := e in c.

(** Dictionaries keep their keys in insertion order; assigning to a key that
    is present replaces the value where it stands. *)
Module Dict.

Fixpoint get {V} (d : list (pystr * V)) (k : pystr) : option V :=
  match d with
  | [] => None
  | (k', v) :: d' => if Str.eqb k k' then Some v else get d' k
  end.

Fixpoint set {V} (d : list (pystr * V)) (k : pystr) (v : V)
  : list (pystr * V) :=
  match d with
  | [] => [(k, v)]
  | (k', v') :: d' =>
      if Str.eqb k k' then (k', v) :: d' else (k', v') :: set d' k v
  end.

Definition keys {V} (d : list (pystr * V)) : list pystr := map fst d.
Definition values {V} (d : list (pystr * V)) : list V := map snd d.

Definition mem {V} (d : list (pystr * V)) (k : pystr) : bool :=
  match get d k with Some _ => true | None => false end.

(** The keys of a dictionary are pairwise distinct. *)
Definition wf {V} (d : list (pystr * V)) : Prop := NoDup (keys d).

End Dict.

Definition OWL_NS := Str.lit "http://www.w3.org/2002/07/owl#".
Definition RDFS_NS := Str.lit "http://www.w3.org/2000/01/rdf-schema#".
Definition RDF_NS := Str.lit "http://www.w3.org/1999/02/22-rdf-syntax-ns#".
Definition XML_LANG := Str.lit "{http://www.w3.org/XML/1998/namespace}lang".

(** The qualified name [{ns}local]. *)
Definition qname (ns : pystr) (local : string) : pystr :=
  Str.lit "{" ++ ns ++ Str.lit "}" ++ Str.lit local.

(** [el.get(name)] *)
Definition get_attr (e : Element) (name : pystr) : option pystr :=
  Dict.get (attrib e) name.

(** [el.findall(tag)]: the direct children with this tag. *)
Definition findall (e : Element) (t : pystr) : list Element :=
  filter (fun c => Str.eqb (tag c) t) (children e).

(** [el.find(tag)]: the first of them. *)
Definition find_child (e : Element) (t : pystr) : option Element :=
  hd_error (findall e t).

(** [el.findall(".//" + tag)]: every element below [e] with this tag, in
    document order. *)
Fixpoint descendants (e : Element) : list Element :=
  match e with
  | Elem _ _ _ cs =>
      (fix go (l : list Element) : list Element :=
         match l with
         | [] => []
         | c :: l' => c :: descendants c ++ go l'
         end) cs
  end.

Definition findall_deep (e : Element) (t : pystr) : list Element :=
  filter (fun c => Str.eqb (tag c) t) (descendants e).

(** [x or ""] *)
Definition or_empty (x : option pystr) : pystr :=
  match x with Some s => s | None => [] end.

Definition truthy (s : pystr) : bool :=
  match s with [] => false | _ :: _ => true end.

Definition extract_fragment (iri : pystr) : pystr :=
  if existsb (N.eqb 35) iri
  then Str.after_last 35 iri
  else Str.after_last 47 (Str.rstrip_char 47 iri).

Definition humanize_fragment (fragment : pystr) : pystr :=
  Str.strip (Str.replace1 95 32 fragment).

Section Extractor.
Context {rt : PyRuntime}.

Definition label_text (lbl : Element) : pystr := Str.strip (or_empty (text lbl)).

Definition is_native_label (lbl : Element) : bool :=
  Str.eqb (Str.lower (or_empty (get_attr lbl XML_LANG))) (Str.lit "de")
  && truthy (label_text lbl).

Definition parse_preferred_label (class_el : Element)
                                 (fallback_fragment : pystr) : pystr :=
  let labels := findall class_el (qname RDFS_NS "label") in
  match find is_native_label labels with
  | Some lbl => label_text lbl
  | None =>
      match find (fun lbl => truthy (label_text lbl)) labels with
      | Some lbl => label_text lbl
      | None => humanize_fragment fallback_fragment
      end
  end.

(** The subclass references of one class: one raw edge for each reference
    that carries a target. *)
Definition class_edges (class_el : Element) (class_iri : pystr)
  : list (pystr * pystr) :=
  flat_map
    (fun sub_el =>
       match get_attr sub_el (qname RDF_NS "resource") with
       | Some parent_iri =>
           if truthy parent_iri then [(class_iri, parent_iri)] else []
       | None => []
       end)
    (findall class_el (qname RDFS_NS "subClassOf")).

Definition comment_text (class_el : Element) : pystr :=
  match find_child class_el (qname RDFS_NS "comment") with
  | Some comment_el =>
      if truthy (or_empty (text comment_el))
      then or_empty (text comment_el) else []
  | None => []
  end.

(** One round of the loop over the class elements. *)
Definition parse_class (st : list (pystr * NodeBase) * list (pystr * pystr))
                       (class_el : Element)
  : list (pystr * NodeBase) * list (pystr * pystr) :=
  let (nodes, edges) := st in
  match get_attr class_el (qname RDF_NS "about") with
  | None => st
  | Some class_iri =>
      if negb (truthy class_iri) then st
      else
        let fragment := extract_fragment class_iri in
        let label := parse_preferred_label class_el fragment in
        let (level_number, level_type) :=
          extract_level_metadata (Some (comment_text class_el)) in
        (Dict.set nodes class_iri
           {| id := class_iri; label := label; raw_fragment := fragment;
              level_number := level_number; level_type := level_type |},
         edges ++ class_edges class_el class_iri)
  end.

(** The raw extraction: all nodes and all edges, before the filter. *)
Definition extract_all (root : Element)
  : list (pystr * NodeBase) * list (pystr * pystr) :=
  fold_left parse_class (findall_deep root (qname OWL_NS "Class")) ([], []).

Definition valid_edge (nodes : list (pystr * NodeBase))
                      (e : pystr * pystr) : bool :=
  Dict.mem nodes (fst e) && Dict.mem nodes (snd e).

(** [parse_owl], from the parsed document on. *)
Definition parse_owl_root (root : Element)
  : list (pystr * NodeBase) * list (pystr * pystr) :=
  let (nodes, edges) := extract_all root in
  (nodes, filter (valid_edge nodes) edges).

End Extractor.

(** ** Forest builder *)

Inductive exn :=
| KeyError (key : pystr)
| NameError (name : string)
| RuntimeError (msg : string).

(** The outcome of a computation: a value, a raised exception, or the
    exhaustion of the fuel that bounds the depth of the recursion. *)
Inductive result (A : Type) :=
| Ok (a : A)
| Raise (e : exn)
| Fuel.
Arguments Ok {A} a.
Arguments Raise {A} e.
Arguments Fuel {A}.

Definition bind {A B} (m : result A) (f : A -> result B) : result B :=
  match m with
  | Ok a => f a
  | Raise e => Raise e
  | Fuel => Fuel
  end.

Notation "'do' x <- m ; f" := (bind m (fun x => f))
  (at level 10, x pattern, m at level 100, f at level 200).

(** A list comprehension whose body threads a state. *)
Fixpoint each {A B S} (f : A -> S -> result (B * S)) (l : list A) (s : S)
  : result (list B * S) :=
  match l with
  | [] => Ok ([], s)
  | a :: l' =>
      do (b, s1) <- f a s;
      do (bs, s2) <- each f l' s1;
      Ok (b :: bs, s2)
  end.

(** A list comprehension without state. *)
Fixpoint traverse {A B} (f : A -> result B) (l : list A) : result (list B) :=
  match l with
  | [] => Ok []
  | a :: l' =>
      do b <- f a;
      do bs <- traverse f l';
      Ok (b :: bs)
  end.

(** A set of strings, kept in the order of first insertion. *)
Module SSet.

Definition mem (x : pystr) (s : list pystr) : bool := existsb (Str.eqb x) s.

Definition add (x : pystr) (s : list pystr) : list pystr :=
  if mem x s then s else s ++ [x].

Definition diff (a b : list pystr) : list pystr :=
  filter (fun x => negb (mem x b)) a.

Fixpoint of_list (l : list pystr) : list pystr :=
  match l with
  | [] => []
  | x :: l' => if mem x l' then of_list l' else x :: of_list l'
  end.

End SSet.

(** A node of the output: the dictionary [render] builds; [t_cycle] says
    that the key [cycle] is present (its value is then [True]). *)
Inductive tree :=
| TNode (t_id t_label t_raw_fragment : pystr)
        (t_level_number t_level_type : option pystr)
        (t_children : list tree) (t_cycle : bool).

Definition t_id (t : tree) := let (i, _, _, _, _, _, _) := t in i.
Definition t_label (t : tree) := let (_, l, _, _, _, _, _) := t in l.
Definition t_raw_fragment (t : tree) := let (_, _, f, _, _, _, _) := t in f.
Definition t_level_number (t : tree) := let (_, _, _, n, _, _, _) := t in n.
Definition t_level_type (t : tree) := let (_, _, _, _, y, _, _) := t in y.
Definition t_children (t : tree) := let (_, _, _, _, _, c, _) := t in c.
Definition t_cycle (t : tree) := let (_, _, _, _, _, _, c) := t in c.

Definition node_dict (n : NodeBase) (kids : list tree) (cyc : bool) : tree :=
  TNode (id n) (label n) (raw_fragment n) (level_number n) (level_type n)
        kids cyc.

(** Sorting: keys are triples (tuple of integers, string, string) compared
    lexicographically; [sorted] is stable. *)
Module Sort.

Definition key := (list Z * pystr * pystr)%type.

(** Comparison of two tuples of integers: item by item, a proper prefix
    first. *)
Definition tuple_compare (a b : list Z) : comparison :=
  list_compare Z.compare a b.

Definition key_compare (k1 k2 : key) : comparison :=
  let '(t1, l1, f1) := k1 in
  let '(t2, l2, f2) := k2 in
  match tuple_compare t1 t2 with
  | Eq => match Str.compare l1 l2 with
          | Eq => Str.compare f1 f2
          | o => o
          end
  | o => o
  end.

Definition key_lt (k1 k2 : key) : bool :=
  match key_compare k1 k2 with Lt => true | _ => false end.

(** Insertion of an element that stood before all of [l]: it goes in front
    of the first element that is not strictly smaller. *)
Fixpoint insert {A} (x : key * A) (l : list (key * A)) : list (key * A) :=
  match l with
  | [] => [x]
  | y :: l' =>
      if key_lt (fst y) (fst x) then y :: insert x l' else x :: y :: l'
  end.

Definition sort_decorated {A} (l : list (key * A)) : list (key * A) :=
  fold_right insert [] l.

(** [sorted(l, key=keyf)]: the keys are computed first, one call for each
    element, and an exception of the key function ends the sort. *)
Definition sorted {A} (keyf : A -> result key) (l : list A)
  : result (list A) :=
  do ks <- traverse (fun a => do k <- keyf a; Ok (k, a)) l;
  Ok (map snd (sort_decorated ks)).

End Sort.

Section Int.
Context {rt : PyRuntime}.

Definition int_ws (c : N) : bool := (((9 <=? c) && (c <=? 13)) || (c =? 32))%N.

Fixpoint int_lskip (s : pystr) : pystr :=
  match s with
  | c :: s' => if int_ws c then int_lskip s' else s
  | [] => []
  end.

Definition digit_val (c : N) : Z := Z.of_N c - 48.

(** The digits after a first digit: each is a digit or an underscore
    followed by a digit. *)
Fixpoint int_digits (acc : Z) (s : pystr) : option Z :=
  match s with
  | [] => Some acc
  | c :: s' =>
      if Str.isdigit c then int_digits (acc * 10 + digit_val c) s'
      else if N.eqb c 95 then
        match s' with
        | d :: s'' =>
            if Str.isdigit d then int_digits (acc * 10 + digit_val d) s''
            else None
        | [] => None
        end
      else None
  end.

Definition int_unsigned (s : pystr) : option Z :=
  match s with
  | c :: s' => if Str.isdigit c then int_digits (digit_val c) s' else None
  | [] => None
  end.

Definition int_ascii (s : pystr) : option Z :=
  let t := rev (int_lskip (rev (int_lskip s))) in
  match t with
  | 43%N :: r => int_unsigned r
  | 45%N :: r => option_map Z.opp (int_unsigned r)
  | _ => int_unsigned t
  end.

(** [int(s)], [None] for a [ValueError].  ASCII text of at most 4300
    characters is read here; anything else is left to the runtime. *)
Definition py_int (s : pystr) : option Z :=
  if forallb Str.is_ascii s && Nat.leb (length s) 4300
  then int_ascii s else uni_int s.

(** [s.split(".")]: the pieces between the dots, empty ones included. *)
Fixpoint split_on (ch : N) (s : pystr) : list pystr :=
  match s with
  | [] => [[]]
  | c :: s' =>
      if N.eqb c ch then [] :: split_on ch s'
      else match split_on ch s' with
           | t :: ts => (c :: t) :: ts
           | [] => [[c]]
           end
  end.

Fixpoint all_some {A} (l : list (option A)) : option (list A) :=
  match l with
  | [] => Some []
  | Some a :: l' => option_map (cons a) (all_some l')
  | None :: _ => None
  end.

Definition SENTINEL : list Z := [10 ^ 9]%Z.

(** Nested in [build_forest] in the source, which is why [run] cannot
    name it. *)
Definition level_to_tuple (level : option pystr) : list Z :=
  match level with
  | None => SENTINEL
  | Some [] => SENTINEL
  | Some l =>
      match all_some (map py_int (split_on 46 l)) with
      | Some t => t
      | None => SENTINEL
      end
  end.

End Int.

Section ForestBuilder.
Context {rt : PyRuntime}.

Variable nodes : list (pystr * NodeBase).

(** [nodes[node_id]] *)
Definition lookup (node_id : pystr) : result NodeBase :=
  match Dict.get nodes node_id with
  | Some n => Ok n
  | None => Raise (KeyError node_id)
  end.

Definition node_sort_key (node_id : pystr) : result Sort.key :=
  do node <- lookup node_id;
  Ok (level_to_tuple (level_number node),
      Str.lower (label node),
      Str.lower (raw_fragment node)).

(** [children_by_parent[parent].add(child)] on a [defaultdict(set)] *)
Fixpoint cbp_add (d : list (pystr * list pystr)) (parent child : pystr)
  : list (pystr * list pystr) :=
  match d with
  | [] => [(parent, [child])]
  | (p, cs) :: d' =>
      if Str.eqb parent p then (p, SSet.add child cs) :: d'
      else (p, cs) :: cbp_add d' parent child
  end.

(** [parent_count[child] += 1] on a [defaultdict(int)] *)
Fixpoint count_incr (d : list (pystr * nat)) (child : pystr)
  : list (pystr * nat) :=
  match d with
  | [] => [(child, 1)]
  | (c, n) :: d' =>
      if Str.eqb child c then (c, S n) :: d'
      else (c, n) :: count_incr d' child
  end.

Definition index_edges (edges : list (pystr * pystr))
  : list (pystr * list pystr) * list (pystr * nat) :=
  fold_left
    (fun st e =>
       let '(child, parent) := e in
       (cbp_add (fst st) parent child, count_incr (snd st) child))
    edges ([], []).

Definition count_of (parent_count : list (pystr * nat)) (node_id : pystr)
  : nat :=
  match Dict.get parent_count node_id with Some n => n | None => 0 end.

(** [children_by_parent.get(node_id, set())], in the order in which the set
    hands out its elements. *)
Definition children_of (children_by_parent : list (pystr * list pystr))
                       (node_id : pystr) : list pystr :=
  match Dict.get children_by_parent node_id with
  | Some cs => set_iter cs
  | None => []
  end.

Fixpoint render (children_by_parent : list (pystr * list pystr))
                (fuel : nat) (node_id : pystr) (path : list pystr)
                (seen : list pystr) : result (tree * list pystr) :=
  match fuel with
  | O => Fuel
  | S fuel' =>
      if SSet.mem node_id path then
        do n <- lookup node_id;
        Ok (node_dict n [] true, seen)
      else
        let next_path := SSet.add node_id path in
        let seen1 := SSet.add node_id seen in
        do kids <- Sort.sorted node_sort_key
                     (children_of children_by_parent node_id);
        do n <- lookup node_id;
        do (ts, seen2) <- each (fun child_id s =>
                                  render children_by_parent fuel' child_id
                                         next_path s)
                               kids seen1;
        Ok (node_dict n ts false, seen2)
  end.

Definition choose_roots (parent_count : list (pystr * nat))
  : result (list pystr) :=
  do roots <- Sort.sorted node_sort_key
                (filter (fun node_id => Nat.eqb (count_of parent_count node_id) 0)
                        (Dict.keys nodes));
  match roots with
  | [] => Sort.sorted node_sort_key (Dict.keys nodes)
  | _ :: _ => Ok roots
  end.

Definition edge_eqb (a b : pystr * pystr) : bool :=
  Str.eqb (fst a) (fst b) && Str.eqb (snd a) (snd b).

(** [set(edges)] *)
Fixpoint distinct_edges (l : list (pystr * pystr)) : list (pystr * pystr) :=
  match l with
  | [] => []
  | e :: l' =>
      if existsb (edge_eqb e) l' then distinct_edges l'
      else e :: distinct_edges l'
  end.

(** The depth of the recursion never exceeds the number of nodes by more
    than one, so this much fuel is never used up.  The recursion limit of
    the interpreter, which cuts deeper recursions short with a
    [RecursionError], is not part of the model: what is stated of a result
    that [build_forest] returns holds whatever that limit is, and a
    statement that it does return is one about a limit that lies above the
    depth of the walk. *)
Definition render_fuel : nat := S (length nodes).

Definition build_forest (edges : list (pystr * pystr))
  : result (list tree * list pystr * nat) :=
  let (children_by_parent, parent_count) := index_edges edges in
  do roots <- choose_roots parent_count;
  do (forest, seen) <- each (fun root_id s =>
                               render children_by_parent render_fuel root_id [] s)
                            roots [];
  Ok (forest, seen, length (distinct_edges edges)).

End ForestBuilder.

(** ** The build run *)

Record payload := {
  source : pystr;
  node_count : nat;
  edge_count : nat;
  roots : list tree
}.

(** What a run leaves behind: the JSON document written to the output path,
    if the run got that far, and how the run ended (on success, the set of
    covered nodes it reports). *)
Record run_outcome := {
  written : option payload;
  status : result (list pystr)
}.

(** The names a function body of [run]'s nested [detached_sort_key] can see:
    its own locals, the locals of [run], and the names bound at module
    level.  [level_to_tuple] and [node_sort_key] are locals of
    [build_forest] and are in none of the three. *)
Definition detached_sort_key_locals : list string :=
  ["node"; "num"]%string.

Definition run_locals : list string :=
  ["source"; "out_json"; "content"; "nodes"; "edges"; "forest"; "seen";
   "edge_count"; "all_nodes"; "missing"; "node_id"; "detached_sort_key";
   "payload"; "out_path"; "empty_labels"]%string.

Definition module_globals : list string :=
  ["annotations"; "argparse"; "json"; "re"; "ssl"; "sys"; "urllib"; "ET";
   "defaultdict"; "dataclass"; "Path"; "Dict"; "List"; "Set"; "Tuple";
   "DEFAULT_SOURCE"; "DEFAULT_OUT_JSON"; "OWL_NS"; "RDFS_NS"; "RDF_NS";
   "NodeBase"; "is_url"; "load_source"; "extract_fragment";
   "humanize_fragment"; "extract_level_metadata"; "parse_preferred_label";
   "parse_owl"; "build_forest"; "run"; "parse_args"; "main"]%string.

Definition name_visible (name : string) : bool :=
  existsb (String.eqb name)
          (detached_sort_key_locals ++ run_locals ++ module_globals).

Definition EMPTY_LABELS_MSG : string :=
  "Found empty labels after normalization. Check input OWL fragments.".

(** The text in front of the parser's own in the message of a parse
    failure. *)
Definition PARSE_MSG : string := "Failed to parse OWL/XML content: ".

(** What [ET.fromstring] makes of the bytes that were loaded: the root
    element, or a [ParseError], of which the code uses the text. *)
Inductive fromstring :=
| Parsed (root : Element)
| ParseError (exc : string).

Section Run.
Context {rt : PyRuntime}.

(** Insertion sort of strings by their natural order: [sorted] of a set of
    identities. *)
Fixpoint insert_str (x : pystr) (l : list pystr) : list pystr :=
  match l with
  | [] => [x]
  | y :: l' =>
      match Str.compare y x with
      | Lt => y :: insert_str x l'
      | _ => x :: y :: l'
      end
  end.

Definition sorted_str (l : list pystr) : list pystr :=
  fold_right insert_str [] l.

Definition detached_sort_key (node : tree) : result Sort.key :=
  if name_visible "level_to_tuple" then
    Ok (level_to_tuple (t_level_number node),
        Str.lower (t_label node),
        Str.lower (t_raw_fragment node))
  else Raise (NameError "level_to_tuple").

(** The post-pass of [run] over the nodes the walk did not reach. *)
Definition reconcile (nodes : list (pystr * NodeBase))
                     (forest : list tree) (seen : list pystr)
  : result (list tree * list pystr) :=
  let all_nodes := Dict.keys nodes in
  let missing := sorted_str (set_iter (SSet.diff all_nodes seen)) in
  match missing with
  | [] => Ok (forest, seen)
  | _ :: _ =>
      do leaves <- traverse (fun node_id =>
                               do n <- lookup nodes node_id;
                               Ok (node_dict n [] false))
                            missing;
      let forest1 := forest ++ leaves in
      let seen1 := fold_left (fun s node_id => SSet.add node_id s) missing seen in
      do forest2 <- Sort.sorted detached_sort_key forest1;
      Ok (forest2, seen1)
  end.

(** [run] from the parsed document on. *)
Definition run_parsed (src : pystr) (root : Element) : run_outcome :=
  let (nodes, edges) := parse_owl_root root in
  match (do (fs, edge_count) <- build_forest nodes edges;
         do (forest, seen) <- reconcile nodes (fst fs) (snd fs);
         Ok (forest, seen, edge_count)) with
  | Ok (forest, seen, edge_count) =>
      let p := {| source := src;
                  node_count := length nodes;
                  edge_count := edge_count;
                  roots := forest |} in
      let empty_labels :=
        map raw_fragment
            (filter (fun node => negb (truthy (label node)))
                    (Dict.values nodes)) in
      match empty_labels with
      | [] => {| written := Some p; status := Ok seen |}
      | _ :: _ =>
          {| written := Some p;
             status := Raise (RuntimeError EMPTY_LABELS_MSG) |}
      end
  | Raise e => {| written := None; status := Raise e |}
  | Fuel => {| written := None; status := Fuel |}
  end.

(** [run], from the loaded bytes on: when they are not well-formed XML,
    [parse_owl] raises a [RuntimeError] whose message ends in the text of
    the parser's error. *)
Definition run (src : pystr) (document : fromstring) : run_outcome :=
  match document with
  | ParseError exc =>
      {| written := None;
         status := Raise (RuntimeError (String.append PARSE_MSG exc)) |}
  | Parsed root => run_parsed src root
  end.

End Run.
(** Two runtimes to run examples on: both know nothing beyond ASCII and
    differ in the order in which a set hands out its elements. *)
Definition rt_fifo : PyRuntime :=
  {| uni_isalnum := fun _ => false;
     uni_lower := fun s => s;
     uni_int := fun _ => None;
     set_iter := fun l => l;
     set_iter_perm := fun l => Permutation_refl l |}.

Definition rt_lifo : PyRuntime :=
  {| uni_isalnum := fun _ => false;
     uni_lower := fun s => s;
     uni_int := fun _ => None;
     set_iter := fun l => rev l;
     set_iter_perm := fun l => Permutation_sym (Permutation_rev l) |}.

(** ** Vocabulary of the statements *)

(** [text] is the keyword [kw] up to the case of its letters. *)
Definition ci_eq (kw text : pystr) : Prop :=
  Forall2 (fun c x => Re.lit_match c x = true) kw text.

(** The keyword [kw] occurs in [s], in any casing. *)
Definition ci_occurs (kw s : pystr) : Prop :=
  exists pre text post, s = pre ++ text ++ post /\ ci_eq kw text.

(** A dot-separated run of digits: one or more non-empty groups of ASCII
    digits with single dots between them. *)
Definition digit_run (p : pystr) : Prop :=
  p <> [] /\ Forall (fun c => Str.isdigit c = true) p.

Definition dotted_digits (num : pystr) : Prop :=
  exists parts, parts <> [] /\ Forall digit_run parts /\
                num = Str.join (Str.lit ".") parts.

Definition KEYWORDS : list pystr :=
  [Str.lit "Hauptgruppe"; Str.lit "Gruppe"; Str.lit "Untergruppe"].

(** The sort key of a rendered node, from the fields it carries. *)
Definition tree_key {rt : PyRuntime} (t : tree) : Sort.key :=
  (level_to_tuple (t_level_number t),
   Str.lower (t_label t),
   Str.lower (t_raw_fragment t)).

(** No rendered node comes after a later one in the order of the keys. *)
Definition ordered {rt : PyRuntime} (ts : list tree) : Prop :=
  StronglySorted
    (fun t u => Sort.key_lt (tree_key u) (tree_key t) = false) ts.

(** The children of every node of the tree are in order, at every depth. *)
Inductive well_ordered {rt : PyRuntime} : tree -> Prop :=
| WellOrdered i l f n y kids c :
    ordered kids -> Forall well_ordered kids ->
    well_ordered (TNode i l f n y kids c).

(** The number of levels of a rendered tree. *)
Fixpoint tree_depth (t : tree) : nat :=
  match t with
  | TNode _ _ _ _ _ kids _ =>
      S (fold_right (fun k d => Nat.max (tree_depth k) d) 0 kids)
  end.

(** A node has no level when its level number is absent, empty, or has a
    segment that [int] rejects. *)
Definition no_level {rt : PyRuntime} (n : NodeBase) : Prop :=
  level_number n = None \/ level_number n = Some [] \/
  exists l, level_number n = Some l /\
            all_some (map py_int (split_on 46 l)) = None.

(** Both ends of every edge are known nodes. *)
Definition valid_edges (nodes : list (pystr * NodeBase))
                       (edges : list (pystr * pystr)) : Prop :=
  forall child parent, In (child, parent) edges ->
    In child (Dict.keys nodes) /\ In parent (Dict.keys nodes).

(** All the nodes of a rendered tree, the root first. *)
Fixpoint subtrees (t : tree) : list tree :=
  match t with
  | TNode _ _ _ _ _ kids _ =>
      t :: (fix go (l : list tree) : list tree :=
              match l with
              | [] => []
              | k :: l' => subtrees k ++ go l'
              end) kids
  end.

(** A node flagged [cycle: true], without children. *)
Definition is_cycle_leaf (t : tree) : Prop :=
  t_cycle t = true /\ t_children t = [].

(** A text of whitespace only. *)
Definition blank (s : pystr) : Prop :=
  Forall (fun c => Str.isspace c = true) s.

(** The identity a class element declares, if it declares one. *)
Definition class_iri_of (class_el : Element) : option pystr :=
  match get_attr class_el (qname RDF_NS "about") with
  | Some iri => if truthy iri then Some iri else None
  | None => None
  end.

(** The raw edges of all class elements, in document order. *)
Definition raw_edges {rt : PyRuntime} (cls : list Element)
  : list (pystr * pystr) :=
  flat_map (fun class_el =>
              match class_iri_of class_el with
              | Some iri => class_edges class_el iri
              | None => []
              end) cls.

(** The parent-child links of a rendered tree, as (child, parent) pairs of
    identities. *)
Fixpoint tree_links (t : tree) : list (pystr * pystr) :=
  match t with
  | TNode i _ _ _ _ kids _ =>
      map (fun k => (t_id k, i)) kids
      ++ (fix go (l : list tree) : list (pystr * pystr) :=
            match l with
            | [] => []
            | k :: l' => tree_links k ++ go l'
            end) kids
  end.

(** [x] stands somewhere before [y] in [l]. *)
Definition precedes {A} (x y : A) (l : list A) : Prop :=
  exists l1 l2 l3, l = l1 ++ x :: l2 ++ y :: l3.

(** ** Further vocabulary of the proofs *)

(** Whitespace-free texts, and texts at the start of or inside another. *)
Module Norm.

Definition no_ws (u : pystr) : Prop := Forall (fun c => Str.isspace c = false) u.
Definition prefix (u t : pystr) : Prop := exists q, t = u ++ q.
Definition infix (u t : pystr) : Prop := exists p q, t = p ++ u ++ q.

(** [" ".join(s.split())] *)
Definition norm (s : pystr) : pystr := Str.join (Str.lit " ") (Str.split s).

End Norm.

(** An ASCII letter. *)
Definition is_letter (c : N) : bool := Str.isupper c || Str.islower c.

(** The order of pairs: by the first component, then by the second. *)
Definition lex {A B} (ca : A -> A -> comparison) (cb : B -> B -> comparison)
               (p q : A * B) : comparison :=
  match ca (fst p) (fst q) with
  | Eq => cb (snd p) (snd q)
  | o => o
  end.

(** The order of the sort keys, as a product of orders. *)
Definition key_lex : Sort.key -> Sort.key -> comparison :=
  lex (lex Sort.tuple_compare Str.compare) Str.compare.

(** [k1] does not come after [k2]. *)
Definition key_le (k1 k2 : Sort.key) : Prop := Sort.key_lt k2 k1 = false.

(** A decorated list in ascending order of its keys. *)
Definition ascending {A} (l : list (Sort.key * A)) : Prop :=
  StronglySorted (fun x y => key_le (fst x) (fst y)) l.

(** The sort key of a node record. *)
Definition key_of {rt : PyRuntime} (n : NodeBase) : Sort.key :=
  (level_to_tuple (level_number n), Str.lower (label n),
   Str.lower (raw_fragment n)).

(** The depth of the deepest tree of a list. *)
Definition forest_depth (ts : list tree) : nat :=
  fold_right (fun k d => Nat.max (tree_depth k) d) 0 ts.

(** The seen set only gains elements, and only known nodes. *)
Definition seen_grows (nodes : list (pystr * NodeBase)) (s s' : list pystr)
  : Prop :=
  incl s s' /\ (forall x, In x s' -> In x s \/ In x (Dict.keys nodes)) /\
  (NoDup s -> NoDup s').

(** The children recorded for a parent, none if it has no entry. *)
Definition cbp_get (d : list (pystr * list pystr)) (p : pystr) : list pystr :=
  match Dict.get d p with Some cs => cs | None => [] end.

(** One round of the loop that indexes the edges. *)
Definition index_step (st : list (pystr * list pystr) * list (pystr * nat))
                      (e : pystr * pystr) :=
  let '(child, parent) := e in
  (cbp_add (fst st) parent child, count_incr (snd st) child).

(** The pure 3-cycle on three identities: every node is the child of the
    next one, as (child, parent) pairs; the index of its edges; and the
    tree that walks the cycle once from a root and ends in the cycle
    leaf. *)
Definition cycle3_nodes (a b c : pystr) (na nb nc : NodeBase)
  : list (pystr * NodeBase) := [(a, na); (b, nb); (c, nc)].

Definition cycle3_edges (a b c : pystr) : list (pystr * pystr) :=
  [(a, b); (b, c); (c, a)].

Definition cycle3_children (a b c : pystr) : list (pystr * list pystr) :=
  [(b, [a]); (c, [b]); (a, [c])].

Definition cycle_leaf (n : NodeBase) : tree := node_dict n [] true.

Definition chain (n1 n2 n3 : NodeBase) : tree :=
  node_dict n1 [node_dict n2 [node_dict n3 [cycle_leaf n1] false] false] false.

Definition cycle3_tree (a b : pystr) (na nb nc : NodeBase) (r : pystr)
  : tree :=
  if Str.eqb r a then chain na nc nb
  else if Str.eqb r b then chain nb na nc
  else chain nc nb na.

(** The identities the walk did not reach, as [run] lists them. *)
Definition missing_of {rt : PyRuntime} (nodes : list (pystr * NodeBase))
                      (seen : list pystr) : list pystr :=
  sorted_str (set_iter (SSet.diff (Dict.keys nodes) seen)).

(** ** Vocabulary of the further properties *)

(** A character that [humanize_fragment] removes when it stands at an end:
    an underscore or whitespace. *)
Definition filler (c : N) : bool := N.eqb c 95 || Str.isspace c.

(** The number a run of decimal digits stands for. *)
Definition decimal (s : pystr) : Z :=
  fold_left (fun acc c => (acc * 10 + digit_val c)%Z) s 0%Z.

(** The record [parse_owl] stores for a class element that declares the
    identity [class_iri]. *)
Definition node_of {rt : PyRuntime} (class_el : Element) (class_iri : pystr)
  : NodeBase :=
  let fragment := extract_fragment class_iri in
  let meta := extract_level_metadata (Some (comment_text class_el)) in
  {| id := class_iri;
     label := parse_preferred_label class_el fragment;
     raw_fragment := fragment;
     level_number := fst meta;
     level_type := snd meta |}.

(** The identities the class elements declare, in document order, with
    repetitions. *)
Definition class_iris (cls : list Element) : list pystr :=
  flat_map (fun class_el =>
              match class_iri_of class_el with
              | Some iri => [iri]
              | None => []
              end) cls.

(** A list of identities without its repetitions, each identity where it
    stood first. *)
Definition first_occurrences (l : list pystr) : list pystr :=
  fold_left (fun acc k => SSet.add k acc) l [].

(** The class element declares the identity [k]. *)
Definition declares (k : pystr) (class_el : Element) : bool :=
  match class_iri_of class_el with
  | Some iri => Str.eqb k iri
  | None => false
  end.

(** The last class element of the document that declares [k]. *)
Definition last_declaration (cls : list Element) (k : pystr)
  : option Element :=
  find (declares k) (rev cls).

(** Every record of the mapping is stored under its own identity, as
    [parse_owl] builds it. *)
Definition keyed (nodes : list (pystr * NodeBase)) : Prop :=
  forall k n, Dict.get nodes k = Some n -> id n = k.

(** [k] is the child of some edge. *)
Definition has_parent (edges : list (pystr * pystr)) (k : pystr) : bool :=
  existsb (fun e => Str.eqb (fst e) k) edges.

(** The nodes without a parent, in the order of the mapping. *)
Definition orphans (nodes : list (pystr * NodeBase))
                   (edges : list (pystr * pystr)) : list pystr :=
  filter (fun k => negb (has_parent edges k)) (Dict.keys nodes).

(** The identities the walk starts from: the nodes without a parent, or
    every node when there is none. *)
Definition root_ids (nodes : list (pystr * NodeBase))
                    (edges : list (pystr * pystr)) : list pystr :=
  match orphans nodes edges with
  | [] => Dict.keys nodes
  | _ :: _ => orphans nodes edges
  end.

(** [k] is [r] or is below [r], along the edges from parent to child. *)
Inductive descends (edges : list (pystr * pystr)) (r : pystr)
  : pystr -> Prop :=
| D_self : descends edges r r
| D_step p c : descends edges r p -> In (c, p) edges -> descends edges r c.

(** The identities of the nodes of a rendered tree that are not cycle
    leaves. *)
Definition walked (t : tree) : list pystr :=
  map t_id (filter (fun u => negb (t_cycle u)) (subtrees t)).

(** Below the ancestors [anc], a rendered tree flags a node as a cycle leaf
    exactly when its identity is one of its ancestors, and then gives it no
    children. *)
Inductive path_sound : list pystr -> tree -> Prop :=
| PS_cycle anc i l f n y :
    In i anc -> path_sound anc (TNode i l f n y [] true)
| PS_node anc i l f n y kids :
    ~ In i anc -> Forall (path_sound (anc ++ [i])) kids ->
    path_sound anc (TNode i l f n y kids false).

(** The nodes of [path] are still being walked; every other node of [seen]
    has all its children in [seen]. *)
Definition settled {rt : PyRuntime} (cbp : list (pystr * list pystr))
                   (path seen : list pystr) : Prop :=
  incl path seen /\
  forall p, In p seen ->
    In p path \/ forall c, In c (children_of cbp p) -> In c seen.

(** No edge closes a loop: the parent of an edge is never the child itself
    or below it. *)
Definition acyclic (edges : list (pystr * pystr)) : Prop :=
  forall c p, In (c, p) edges -> ~ descends edges c p.

(** ** Inputs of the examples *)

(** Two siblings: [a] with the level 2000000000, [b] without a level. *)
Definition big_level_nodes : list (pystr * NodeBase) :=
  [(Str.lit "a",
    {| id := Str.lit "a"; label := Str.lit "a"; raw_fragment := Str.lit "a";
       level_number := Some (Str.lit "2000000000");
       level_type := Some (Str.lit "Gruppe") |});
   (Str.lit "b",
    {| id := Str.lit "b"; label := Str.lit "b"; raw_fragment := Str.lit "b";
       level_number := None; level_type := None |})].

(** Three siblings whose labels run against their levels. *)
Definition three_siblings : list (pystr * NodeBase) :=
  [(Str.lit "x",
    {| id := Str.lit "x"; label := Str.lit "a"; raw_fragment := Str.lit "x";
       level_number := None; level_type := None |});
   (Str.lit "y",
    {| id := Str.lit "y"; label := Str.lit "b"; raw_fragment := Str.lit "y";
       level_number := Some (Str.lit "10");
       level_type := Some (Str.lit "Gruppe") |});
   (Str.lit "z",
    {| id := Str.lit "z"; label := Str.lit "c"; raw_fragment := Str.lit "z";
       level_number := Some (Str.lit "2");
       level_type := Some (Str.lit "Gruppe") |})].

(** The pure 3-cycle A -> B -> C -> A, as (child, parent) pairs. *)
Definition cycle_node (k : string) : NodeBase :=
  {| id := Str.lit k; label := Str.lit k; raw_fragment := Str.lit k;
     level_number := None; level_type := None |}.

Definition cycle_nodes : list (pystr * NodeBase) :=
  map (fun k => (Str.lit k, cycle_node k)) ["A"; "B"; "C"]%string.

Definition cycle_edges : list (pystr * pystr) :=
  [(Str.lit "A", Str.lit "B"); (Str.lit "B", Str.lit "C");
   (Str.lit "C", Str.lit "A")].

Definition class_el (about : string) (kids : list Element) : Element :=
  Elem (qname OWL_NS "Class") [(qname RDF_NS "about", Str.lit about)] None kids.

Definition sub_class_of (resource : string) : Element :=
  Elem (qname RDFS_NS "subClassOf")
       [(qname RDF_NS "resource", Str.lit resource)] None [].

Definition rdf_doc (kids : list Element) : Element :=
  Elem (qname RDF_NS "RDF") [] None kids.

(** A root class R and two classes A and B that are subclasses of each
    other. *)
Definition detached_cycle_doc : Element :=
  rdf_doc [class_el "http://x.org/o#R" [];
           class_el "http://x.org/o#A" [sub_class_of "http://x.org/o#B"];
           class_el "http://x.org/o#B" [sub_class_of "http://x.org/o#A"]].

(** The same, with a class whose fragment is a lone underscore. *)
Definition empty_label_doc : Element :=
  rdf_doc [class_el "http://x.org/o#R" [];
           class_el "http://x.org/o#_" [];
           class_el "http://x.org/o#A" [sub_class_of "http://x.org/o#B"];
           class_el "http://x.org/o#B" [sub_class_of "http://x.org/o#A"]].

(** A class P with two subclasses that have the same fragment, in two
    namespaces, and no label. *)
Definition tie_doc : Element :=
  rdf_doc [class_el "http://x.org/o#P" [];
           class_el "http://a.org/o#Drehen" [sub_class_of "http://x.org/o#P"];
           class_el "http://b.org/o#Drehen" [sub_class_of "http://x.org/o#P"]].

(** A class that refers to a class declared after it, and to one that is
    declared nowhere. *)
Definition forward_doc : Element :=
  rdf_doc [class_el "http://x.org/o#A"
             [sub_class_of "http://x.org/o#B";
              sub_class_of "http://x.org/o#Nowhere"];
           class_el "http://x.org/o#B" []].

(** A label element with its text. *)
Definition label_el (txt : string) : Element :=
  Elem (qname RDFS_NS "label") [] (Some (Str.lit txt)) [].

(** One identity declared twice, with two labels. *)
Definition twice_doc : Element :=
  rdf_doc [class_el "http://x.org/o#A" [label_el "first"];
           class_el "http://x.org/o#A" [label_el "second"]].

(** Two classes without parent that tie on the whole sort key. *)
Definition two_roots_doc : Element :=
  rdf_doc [class_el "http://a.org/o#Drehen" [];
           class_el "http://b.org/o#Drehen" []].

(** * Properties *)

(** ** Strings *)

Module StrFacts.

Lemma eqb_eq a b : Str.eqb a b = true <-> a = b.
Proof.
  revert b; induction a as [|x a IH]; intros [|y b]; simpl;
    try (split; [discriminate | intros H; discriminate H]);
    try (split; reflexivity).
  rewrite andb_true_iff, N.eqb_eq, IH.
  split; [intros [-> ->]; reflexivity | intros H; inversion H; auto].
Qed.

Lemma eqb_refl a : Str.eqb a a = true.
Proof. apply eqb_eq; reflexivity. Qed.

Lemma eqb_neq a b : Str.eqb a b = false <-> a <> b.
Proof.
  destruct (Str.eqb a b) eqn:E.
  - apply eqb_eq in E. split; [discriminate | congruence].
  - split; auto. intros _ H. apply eqb_eq in H. congruence.
Qed.

End StrFacts.

(** ** Dictionaries and sets *)

Module DictFacts.
Import StrFacts.

Lemma get_In {V} (d : list (pystr * V)) k v :
  Dict.get d k = Some v -> In (k, v) d.
Proof.
  induction d as [|[k' v'] d IH]; simpl; [discriminate|].
  destruct (Str.eqb k k') eqn:E.
  - apply eqb_eq in E. subst. intros H. inversion H. left. reflexivity.
  - intros H. right. auto.
Qed.

Lemma get_some_keys {V} (d : list (pystr * V)) k v :
  Dict.get d k = Some v -> In k (Dict.keys d).
Proof.
  intros H. apply get_In in H. apply (in_map fst) in H. exact H.
Qed.

Lemma keys_get {V} (d : list (pystr * V)) k :
  In k (Dict.keys d) -> exists v, Dict.get d k = Some v.
Proof.
  induction d as [|[k' v'] d IH]; simpl; [intros []|].
  destruct (Str.eqb k k') eqn:E; [eauto|].
  intros [H | H]; [|auto]. apply eqb_neq in E. congruence.
Qed.

Lemma mem_keys {V} (d : list (pystr * V)) k :
  Dict.mem d k = true <-> In k (Dict.keys d).
Proof.
  unfold Dict.mem. split.
  - destruct (Dict.get d k) eqn:E; [|discriminate].
    intros _. eapply get_some_keys; eauto.
  - intros H. apply keys_get in H as [v ->]. reflexivity.
Qed.

Lemma get_set {V} (d : list (pystr * V)) k v k' :
  Dict.get (Dict.set d k v) k' =
  if Str.eqb k' k then Some v else Dict.get d k'.
Proof.
  induction d as [|[k0 v0] d IH]; simpl.
  - destruct (Str.eqb k' k); reflexivity.
  - destruct (Str.eqb k k0) eqn:E; simpl.
    + apply eqb_eq in E. subst. destruct (Str.eqb k' k0); reflexivity.
    + destruct (Str.eqb k' k0) eqn:E'; [|exact IH].
      apply eqb_eq in E'. subst.
      destruct (Str.eqb k0 k) eqn:E''; [|reflexivity].
      apply eqb_eq in E''. subst. rewrite eqb_refl in E. discriminate.
Qed.

Lemma keys_set {V} (d : list (pystr * V)) k v :
  Dict.keys (Dict.set d k v) =
  if Dict.mem d k then Dict.keys d else Dict.keys d ++ [k].
Proof.
  unfold Dict.mem. induction d as [|[k0 v0] d IH]; simpl; [reflexivity|].
  destruct (Str.eqb k k0) eqn:E; simpl; [reflexivity|].
  unfold Dict.keys in *. rewrite IH.
  destruct (Dict.get d k); reflexivity.
Qed.

Lemma In_keys_set {V} (d : list (pystr * V)) k v k' :
  In k' (Dict.keys (Dict.set d k v)) <-> k' = k \/ In k' (Dict.keys d).
Proof.
  rewrite keys_set. destruct (Dict.mem d k) eqn:E.
  - apply mem_keys in E. split; [auto|]. intros [-> | H]; assumption.
  - rewrite in_app_iff. simpl. split.
    + intros [H | [H | []]]; auto.
    + intros [-> | H]; auto.
Qed.

End DictFacts.

Module SSetFacts.
Import StrFacts.

Lemma mem_In x s : SSet.mem x s = true <-> In x s.
Proof.
  unfold SSet.mem. rewrite existsb_exists. split.
  - intros (y & Hy & E). apply eqb_eq in E. subst. assumption.
  - intros H. exists x. split; [assumption | apply eqb_refl].
Qed.

Lemma mem_false x s : SSet.mem x s = false <-> ~ In x s.
Proof.
  rewrite <- mem_In. destruct (SSet.mem x s); split; congruence.
Qed.

Lemma add_In x s y : In y (SSet.add x s) <-> y = x \/ In y s.
Proof.
  unfold SSet.add. destruct (SSet.mem x s) eqn:E.
  - apply mem_In in E. split; [auto|]. intros [-> | H]; assumption.
  - rewrite in_app_iff. simpl. split.
    + intros [H | [H | []]]; auto.
    + intros [-> | H]; auto.
Qed.

Lemma add_new x s : SSet.mem x s = false -> SSet.add x s = s ++ [x].
Proof. unfold SSet.add. intros ->. reflexivity. Qed.

Lemma add_NoDup x s : NoDup s -> NoDup (SSet.add x s).
Proof.
  intros H. unfold SSet.add. destruct (SSet.mem x s) eqn:E; [assumption|].
  apply mem_false in E. apply NoDup_app; [assumption | repeat constructor; auto |].
  intros y Hy [<- | []]. contradiction.
Qed.

Lemma add_incl x s : incl s (SSet.add x s).
Proof. intros y H. apply add_In. auto. Qed.

Lemma diff_In a b x : In x (SSet.diff a b) <-> In x a /\ ~ In x b.
Proof.
  unfold SSet.diff. rewrite filter_In, negb_true_iff, mem_false. tauto.
Qed.

End SSetFacts.

(** ** The result monad *)

Module ResultFacts.

Lemma forall2_in_r {A B} (R : A -> B -> Prop) l l' y :
  Forall2 R l l' -> In y l' -> exists x, In x l /\ R x y.
Proof.
  induction 1 as [|a b l l' Hab _ IH]; intros Hy; [destruct Hy|].
  destruct Hy as [<- | Hy]; [exists a; simpl; auto|].
  destruct (IH Hy) as (x & Hx & Hr). exists x. simpl. auto.
Qed.

Lemma forall2_in_l {A B} (R : A -> B -> Prop) l l' x :
  Forall2 R l l' -> In x l -> exists y, In y l' /\ R x y.
Proof.
  induction 1 as [|a b l l' Hab _ IH]; intros Hx; [destruct Hx|].
  destruct Hx as [<- | Hx]; [exists b; simpl; auto|].
  destruct (IH Hx) as (y & Hy & Hr). exists y. simpl. auto.
Qed.

Lemma bind_ok {A B} (m : result A) (f : A -> result B) b :
  bind m f = Ok b -> exists a, m = Ok a /\ f a = Ok b.
Proof. destruct m; simpl; [eauto | discriminate | discriminate]. Qed.

Lemma traverse_ok {A B} (f : A -> result B) l bs :
  traverse f l = Ok bs -> Forall2 (fun a b => f a = Ok b) l bs.
Proof.
  revert bs; induction l as [|a l IH]; simpl; intros bs H.
  - inversion H. constructor.
  - apply bind_ok in H as (b & Hb & H).
    apply bind_ok in H as (bs' & Hbs & H). inversion H; subst.
    constructor; auto.
Qed.

Lemma traverse_all_ok {A B} (f : A -> result B) l :
  (forall a, In a l -> exists b, f a = Ok b) ->
  exists bs, traverse f l = Ok bs.
Proof.
  induction l as [|a l IH]; intros H; simpl; [eauto|].
  destruct (H a (or_introl eq_refl)) as [b ->].
  destruct IH as [bs ->]; [intros; apply H; right; assumption|].
  simpl. eauto.
Qed.

Lemma traverse_no_fuel {A B} (f : A -> result B) l :
  (forall a, In a l -> f a <> Fuel) -> traverse f l <> Fuel.
Proof.
  induction l as [|a l IH]; intros H; simpl; [discriminate|].
  pose proof (H a (or_introl eq_refl)) as Ha.
  destruct (f a); simpl; [|discriminate|congruence].
  assert (traverse f l <> Fuel) as Hl
    by (apply IH; intros; apply H; right; assumption).
  destruct (traverse f l); simpl; [discriminate|discriminate|congruence].
Qed.

Lemma each_no_fuel {A B S} (f : A -> S -> result (B * S)) l :
  (forall a s, In a l -> f a s <> Fuel) -> forall s, each f l s <> Fuel.
Proof.
  induction l as [|a l IH]; intros H s; simpl; [discriminate|].
  pose proof (H a s (or_introl eq_refl)) as Ha.
  destruct (f a s) as [[b s1]| |]; simpl; [|discriminate|congruence].
  assert (each f l s1 <> Fuel) as Hl
    by (apply IH; intros; apply H; right; assumption).
  destruct (each f l s1) as [[bs s2]| |]; simpl;
    [discriminate|discriminate|congruence].
Qed.

(** A comprehension fails with an exception only if one of its calls
    does. *)
Lemma each_raises {A B S} (f : A -> S -> result (B * S)) l : forall s e,
  each f l s = Raise e -> exists a s1, In a l /\ f a s1 = Raise e.
Proof.
  induction l as [|a l IH]; intros s e H; simpl in H; [discriminate|].
  destruct (f a s) as [[b s1]| |] eqn:Ea; simpl in H; [| |discriminate].
  - destruct (each f l s1) as [[bs s2]| |] eqn:El; simpl in H;
      try discriminate.
    destruct (IH s1 e) as (a' & s' & Hin & Ha'); [congruence|].
    exists a', s'. split; [right; exact Hin | exact Ha'].
  - exists a, s. split; [left; reflexivity | congruence].
Qed.

End ResultFacts.

(** ** The matcher reads what its result says *)

Module ReFacts.
Import Re.

Section WithRuntime.
Context {rt : PyRuntime}.

Lemma lastc_app prev w1 w2 :
  lastc prev (w1 ++ w2) = lastc (lastc prev w1) w2.
Proof. revert prev; induction w1; simpl; auto. Qed.

Lemma matcher_sound r : forall prev s cs (k : cont) res,
  matcher r prev s cs k = Some res ->
  exists w rest cs',
    s = w ++ rest /\ matches r prev w rest cs cs' /\
    k (lastc prev w) rest cs' = Some res.
Proof.
  induction r as [c|p| | |r1 IH1 r2 IH2|r1 IH1 r2 IH2|r1 IH1|i r1 IH1];
    intros prev s cs k res H; simpl in H.
  - destruct s as [|x s']; [discriminate|].
    destruct (lit_match c x) eqn:E; [|discriminate].
    exists [x], s', cs. repeat split; auto. now constructor.
  - destruct s as [|x s']; [discriminate|].
    destruct (p x) eqn:E; [|discriminate].
    exists [x], s', cs. repeat split; auto. now constructor.
  - destruct (at_boundary prev s) eqn:E; [|discriminate].
    exists [], s, cs. repeat split; auto. now constructor.
  - exists [], s, cs. repeat split; auto. constructor.
  - apply IH1 in H as (w1 & rest1 & c1 & -> & M1 & H).
    apply IH2 in H as (w2 & rest & c2 & -> & M2 & H).
    exists (w1 ++ w2), rest, c2. rewrite lastc_app, <- app_assoc.
    repeat split; auto. econstructor; eauto.
  - destruct (matcher r1 prev s cs k) eqn:E.
    + inversion H; subst. apply IH1 in E as (w & rest & c1 & -> & M1 & E).
      exists w, rest, c1. repeat split; auto. now apply M_AltL.
    + apply IH2 in H as (w & rest & c1 & -> & M1 & E').
      exists w, rest, c1. repeat split; auto. now apply M_AltR.
  - revert H. generalize (length s). intros n. revert prev s cs.
    induction n as [|n IHn]; intros prev s cs H; simpl in H.
    + exists [], s, cs. repeat split; auto. constructor.
    + match type of H with
      | match ?m with _ => _ end = _ => destruct m eqn:E
      end.
      * inversion H; subst.
        apply IH1 in E as (w1 & rest1 & c1 & -> & M1 & E).
        destruct (Nat.ltb _ _); [|discriminate].
        apply IHn in E as (w2 & rest & c2 & -> & M2 & E).
        exists (w1 ++ w2), rest, c2. rewrite lastc_app, <- app_assoc.
        repeat split; auto. econstructor; eauto.
      * exists [], s, cs. repeat split; auto. constructor.
  - apply IH1 in H as (w & rest & c1 & -> & M1 & H).
    exists w, rest, ((i, w) :: c1). repeat split; auto.
    + now constructor.
    + rewrite length_app, Nat.add_sub, firstn_app, Nat.sub_diag in H.
      simpl in H. rewrite firstn_all, app_nil_r in H. exact H.
Qed.

Lemma search_from_sound r : forall s prev cs,
  search_from r prev s = Some cs ->
  exists pre w rest,
    s = pre ++ w ++ rest /\ matches r (lastc prev pre) w rest [] cs.
Proof.
  induction s as [|x s IH]; intros prev cs H; simpl in H.
  - destruct (matcher r prev [] [] _) eqn:E; [|discriminate].
    inversion H; subst.
    apply matcher_sound in E as (w & rest & c1 & Es & M1 & E).
    inversion E; subst. exists [], w, rest. auto.
  - destruct (matcher r prev (x :: s) [] _) eqn:E.
    + inversion H; subst.
      apply matcher_sound in E as (w & rest & c1 & Es & M1 & E).
      inversion E; subst. exists [], w, rest. auto.
    + apply IH in H as (pre & w & rest & -> & M1).
      exists (x :: pre), w, rest. auto.
Qed.

End WithRuntime.
End ReFacts.

(** ** Whitespace normalization keeps every word where it was *)

Module NormFacts.
Import Norm.


Lemma isspace_false_mid x : (33 <= x < 133)%N -> Str.isspace x = false.
Proof.
  intros H. unfold Str.isspace.
  assert ((x <=? 13)%N = false) as -> by (apply N.leb_gt; lia).
  assert ((x <=? 32)%N = false) as -> by (apply N.leb_gt; lia).
  assert ((8192 <=? x)%N = false) as -> by (apply N.leb_gt; lia).
  repeat match goal with
  | |- context [N.eqb x ?k] =>
      assert (N.eqb x k = false) as -> by (apply N.eqb_neq; lia)
  end.
  rewrite !andb_false_r. reflexivity.
Qed.

Lemma split_head_nonempty c s :
  Str.isspace c = false -> Str.split (c :: s) <> [].
Proof.
  intros H. simpl. rewrite H. destruct s as [|d s]; [discriminate|].
  destruct (Str.isspace d); [discriminate|].
  destruct (Str.split (d :: s)); discriminate.
Qed.

Lemma norm_ws c s : Str.isspace c = true -> norm (c :: s) = norm s.
Proof. intros H. unfold norm. simpl. rewrite H. reflexivity. Qed.

Lemma norm_single c : Str.isspace c = false -> norm [c] = [c].
Proof. intros H. unfold norm. simpl. rewrite H. reflexivity. Qed.

Lemma norm_word c d s :
  Str.isspace c = false -> Str.isspace d = false ->
  norm (c :: d :: s) = c :: norm (d :: s).
Proof.
  intros Hc Hd. unfold norm.
  pose proof (split_head_nonempty d s Hd) as Hne.
  change (Str.split (c :: d :: s))
    with (if Str.isspace c then Str.split (d :: s)
          else if Str.isspace d then [c] :: Str.split (d :: s)
          else match Str.split (d :: s) with
               | t :: ts => (c :: t) :: ts
               | [] => [[c]]
               end).
  rewrite Hc, Hd.
  destruct (Str.split (d :: s)) as [|t [|t' ts]]; [congruence| |]; reflexivity.
Qed.

Lemma norm_gap c d s :
  Str.isspace c = false -> Str.isspace d = true ->
  norm (c :: d :: s) = [c] \/ norm (c :: d :: s) = c :: 32%N :: norm (d :: s).
Proof.
  intros Hc Hd. unfold norm.
  change (Str.split (c :: d :: s))
    with (if Str.isspace c then Str.split (d :: s)
          else if Str.isspace d then [c] :: Str.split (d :: s)
          else match Str.split (d :: s) with
               | t :: ts => (c :: t) :: ts
               | [] => [[c]]
               end).
  rewrite Hc, Hd.
  destruct (Str.split (d :: s)) as [|t ts]; [left | right]; reflexivity.
Qed.

Lemma prefix_cons_inv u c t :
  prefix u (c :: t) -> u = [] \/ exists u', u = c :: u' /\ prefix u' t.
Proof.
  intros [q E]. destruct u as [|x u]; [left; reflexivity|].
  right. inversion E; subst. exists u. split; [reflexivity | exists q; reflexivity].
Qed.

Lemma infix_cons_inv u c t :
  infix u (c :: t) -> prefix u (c :: t) \/ infix u t.
Proof.
  intros (p & q & E). destruct p as [|x p].
  - left. exists q. exact E.
  - right. inversion E; subst. exists p, q. reflexivity.
Qed.

Lemma prefix_infix u t : prefix u t -> infix u t.
Proof. intros [q E]. exists [], q. exact E. Qed.

Lemma infix_cons u c t : infix u t -> infix u (c :: t).
Proof. intros (p & q & ->). exists (c :: p), q. reflexivity. Qed.

Lemma prefix_nil t : prefix [] t.
Proof. exists t. reflexivity. Qed.

Lemma prefix_cons c u t : prefix u t -> prefix (c :: u) (c :: t).
Proof. intros [q ->]. exists q. reflexivity. Qed.

(** A whitespace-free text at the start of the normalized string stood at
    the start of the original, when that did not begin with whitespace. *)
Lemma norm_prefix s : forall u,
  no_ws u -> (forall c s', s = c :: s' -> Str.isspace c = false) ->
  prefix u (norm s) -> prefix u s.
Proof.
  induction s as [|c s IH]; intros u Hu Hs Hp.
  - exact Hp.
  - pose proof (Hs c s eq_refl) as Hc.
    destruct s as [|d s].
    + rewrite norm_single in Hp by assumption. exact Hp.
    + destruct (Str.isspace d) eqn:Hd.
      * assert (u = [] \/ u = [c]) as [-> | ->];
          [|apply prefix_nil | apply (prefix_cons c [] (d :: s)), prefix_nil].
        destruct (norm_gap c d s Hc Hd) as [E | E]; rewrite E in Hp;
          apply prefix_cons_inv in Hp as [-> | (u' & -> & Hp)]; auto;
          right; f_equal.
        -- destruct Hp as [q Hq]. destruct u'; [reflexivity | discriminate].
        -- apply prefix_cons_inv in Hp as [-> | (u'' & -> & _)];
             [reflexivity|].
           inversion Hu as [|? ? _ Hu']; subst.
           inversion Hu' as [|? ? H32 _]; subst. discriminate H32.
      * rewrite norm_word in Hp by assumption.
        apply prefix_cons_inv in Hp as [-> | (u' & -> & Hp)];
          [apply prefix_nil|].
        apply prefix_cons. apply IH; auto.
        -- inversion Hu; assumption.
        -- intros c' s' E. inversion E; subst. assumption.
Qed.

(** A whitespace-free text inside the normalized string occurs in the
    original. *)
Lemma norm_infix s : forall u, no_ws u -> infix u (norm s) -> infix u s.
Proof.
  induction s as [|c s IH]; intros u Hu Hi.
  - exact Hi.
  - destruct (Str.isspace c) eqn:Hc.
    + rewrite norm_ws in Hi by assumption. apply infix_cons, IH; assumption.
    + destruct s as [|d s].
      * rewrite norm_single in Hi by assumption. exact Hi.
      * destruct (Str.isspace d) eqn:Hd.
        -- assert (prefix u [c] \/ infix u (norm (d :: s))) as [Hp | Hi'].
           { destruct (norm_gap c d s Hc Hd) as [E | E]; rewrite E in Hi.
             - apply infix_cons_inv in Hi as [Hp | Hi]; [left; exact Hp|].
               left. destruct Hi as (p & q & E').
               destruct p; [|discriminate]. destruct u; [|discriminate].
               apply prefix_nil.
             - apply infix_cons_inv in Hi as [Hp | Hi].
               + left.
                 apply prefix_cons_inv in Hp as [-> | (u' & -> & Hp)];
                   [apply prefix_nil|].
                 apply prefix_cons.
                 apply prefix_cons_inv in Hp as [-> | (u'' & -> & _)];
                   [apply prefix_nil|].
                 inversion Hu as [|? ? _ Hu']; subst.
                 inversion Hu' as [|? ? H32 _]; subst. discriminate H32.
               + apply infix_cons_inv in Hi as [Hp | Hi]; [|right; exact Hi].
                 apply prefix_cons_inv in Hp as [-> | (u' & -> & _)].
                 * left. apply prefix_nil.
                 * inversion Hu as [|? ? H32 _]; subst. discriminate H32. }
           ++ destruct Hp as [q E]. exists [], (q ++ d :: s).
              simpl. rewrite app_assoc, <- E. reflexivity.
           ++ apply infix_cons, IH; assumption.
        -- rewrite norm_word in Hi by assumption.
           apply infix_cons_inv in Hi as [Hp | Hi].
           ++ apply prefix_infix.
              apply prefix_cons_inv in Hp as [-> | (u' & -> & Hp)];
                [apply prefix_nil|].
              apply prefix_cons. apply norm_prefix; auto.
              ** inversion Hu; assumption.
              ** intros c' s' E. inversion E; subst. assumption.
           ++ apply infix_cons, IH; assumption.
Qed.

End NormFacts.

(** ** Level metadata parser *)

Module LevelFacts.
Import Re ReFacts.

Section WithRuntime.
Context {rt : PyRuntime}.

Lemma matches_word kw : forall prev w rest c c',
  matches (word kw) prev w rest c c' -> c' = c /\ ci_eq kw w.
Proof.
  induction kw as [|a kw IH]; intros prev w rest c c' H.
  - inversion H; subst. split; [reflexivity | constructor].
  - destruct kw as [|b kw].
    + inversion H; subst. split; [reflexivity|].
      constructor; [assumption | constructor].
    + change (word (a :: b :: kw)) with (Cat (Lit a) (word (b :: kw))) in H.
      inversion H as [| | | |? ? ? w1 w2 ? ? c1 ? M1 M2| | | | |]; subst.
      inversion M1; subst.
      apply IH in M2 as [-> Hci]. split; [reflexivity|].
      constructor; assumption.
Qed.

Lemma matches_star_class p prev w rest c c' :
  matches (Star (Class p)) prev w rest c c' ->
  c' = c /\ Forall (fun x => p x = true) w.
Proof.
  remember (Star (Class p)) as r eqn:Er. intros H.
  induction H; try discriminate; inversion Er; subst.
  - split; [reflexivity | constructor].
  - destruct (IHmatches2 eq_refl) as [-> F].
    inversion H; subst. split; [reflexivity|]. constructor; assumption.
Qed.

Lemma matches_digits prev w rest c c' :
  matches digits prev w rest c c' -> c' = c /\ digit_run w.
Proof.
  unfold digits, Plus. intros H.
  inversion H as [| | | |? ? ? w1 w2 ? ? c1 ? M1 M2| | | | |]; subst.
  inversion M1; subst.
  apply matches_star_class in M2 as [-> F].
  split; [reflexivity|]. split; [discriminate|]. constructor; assumption.
Qed.

Lemma matches_dot_groups prev w rest c c' :
  matches (Star (Cat (Lit 46%N) digits)) prev w rest c c' ->
  c' = c /\ exists parts, Forall digit_run parts /\
                          w = concat (map (fun p => 46%N :: p) parts).
Proof.
  remember (Star (Cat (Lit 46%N) digits)) as r eqn:Er. intros H.
  induction H; try discriminate; inversion Er; subst.
  - split; [reflexivity|]. exists []. split; [constructor | reflexivity].
  - destruct (IHmatches2 eq_refl) as [-> (parts & F & ->)].
    inversion H as [| | | |? ? ? u1 u2 ? ? d1 ? M1 M2| | | | |]; subst.
    inversion M1 as [? x ? ? ? Hx| | | | | | | | |]; subst.
    apply matches_digits in M2 as [-> D].
    split; [reflexivity|]. exists (u2 :: parts).
    split; [constructor; assumption|].
    assert (x = 46%N) as ->.
    { unfold lit_match, Str.ascii_lower in Hx.
      destruct (Str.isupper x) eqn:U; simpl in Hx;
        apply N.eqb_eq in Hx; [|assumption].
      unfold Str.isupper in U. apply andb_true_iff in U as [U1 U2].
      apply N.leb_le in U1. lia. }
    reflexivity.
Qed.

Lemma join_dot_groups d parts :
  d ++ concat (map (fun p => 46%N :: p) parts)
  = Str.join (Str.lit ".") (d :: parts).
Proof.
  revert d; induction parts as [|q parts IH]; intros d.
  - simpl. apply app_nil_r.
  - change (Str.join (Str.lit ".") (d :: q :: parts))
      with (d ++ Str.lit "." ++ Str.join (Str.lit ".") (q :: parts)).
    rewrite <- IH. reflexivity.
Qed.

(** What a match of the pattern looks like. *)
Lemma matches_pattern prev w rest cs :
  matches pattern prev w rest [] cs ->
  exists kwt ws num,
    w = kwt ++ ws ++ num /\
    cs = [(2, num); (1, kwt)] /\
    at_boundary prev (w ++ rest) = true /\
    Exists (fun kw => ci_eq kw kwt) KEYWORDS /\
    Forall (fun c => Str.isspace c = true) ws /\
    dotted_digits num /\
    at_boundary (lastc prev w) rest = true.
Proof.
  unfold pattern. intros H.
  inversion H as [| | | |? ? ? w0 w1 ? ? c1 ? M0 M1| | | | |]; subst; clear H.
  inversion M0; subst; clear M0. simpl in *.
  inversion M1 as [| | | |? ? ? kwt w2 ? ? c2 ? MG M2| | | | |];
    subst; clear M1.
  inversion M2 as [| | | |? ? ? ws w3 ? ? c3 ? MS M3| | | | |];
    subst; clear M2.
  inversion M3 as [| | | |? ? ? num w4 ? ? c4 ? MN MB| | | | |];
    subst; clear M3.
  inversion MB; subst; clear MB.
  apply matches_star_class in MS as [-> Fws].
  inversion MG as [| | | | | | | | |? ? ? ? ? ? c5 MK]; subst; clear MG.
  inversion MN as [| | | | | | | | |? ? ? ? ? ? c6 MD]; subst; clear MN.
  inversion MD as [| | | |? ? ? d0 w5 ? ? c7 ? MD0 MD1| | | | |];
    subst; clear MD.
  apply matches_digits in MD0 as [-> D0].
  apply matches_dot_groups in MD1 as [-> (parts & Fp & ->)].
  assert (c5 = [] /\ Exists (fun kw => ci_eq kw kwt) KEYWORDS) as [-> HK].
  { unfold KEYWORDS.
    inversion MK as [| | | | |? ? ? ? ? ? ? MA|? ? ? ? ? ? ? MA| | |]; subst.
    - apply (matches_word (Str.lit "Hauptgruppe")) in MA as [-> Hci].
      split; auto.
    - inversion MA as [| | | | |? ? ? ? ? ? ? MA'|? ? ? ? ? ? ? MA'| | |];
        subst.
      + apply (matches_word (Str.lit "Gruppe")) in MA' as [-> Hci].
        split; auto.
      + apply (matches_word (Str.lit "Untergruppe")) in MA' as [-> Hci].
        split; auto. }
  exists kwt, ws, (d0 ++ concat (map (fun p => 46%N :: p) parts)).
  rewrite app_nil_r in *.
  repeat split; auto.
  - exists (d0 :: parts). split; [discriminate|].
    split; [constructor; assumption | apply join_dot_groups].
  - rewrite !lastc_app in *. assumption.
Qed.

Lemma lit_match_ascii c x :
  Str.is_ascii c = true -> lit_match c x = true ->
  Str.is_ascii x = true /\ Str.ascii_lower x = Str.ascii_lower c.
Proof.
  unfold lit_match, Str.is_ascii. intros Hc H. apply N.eqb_eq in H.
  split; [|assumption]. apply N.ltb_lt in Hc. apply N.ltb_lt.
  unfold Str.ascii_lower, Str.isupper in H.
  destruct ((65 <=? x) && (x <=? 90))%N eqn:Ux;
    destruct ((65 <=? c) && (c <=? 90))%N eqn:Uc;
    try (apply andb_true_iff in Ux as [U1 U2]; apply N.leb_le in U2);
    try (apply andb_true_iff in Uc as [U3 U4]; apply N.leb_le in U4);
    lia.
Qed.

(** A text that is an ASCII keyword up to case lowers to the lowered
    keyword. *)
Lemma ci_eq_lower kw text :
  forallb Str.is_ascii kw = true -> ci_eq kw text ->
  Str.lower text = map Str.ascii_lower kw.
Proof.
  intros Ha H. unfold Str.lower.
  assert (forallb Str.is_ascii text = true /\
          map Str.ascii_lower text = map Str.ascii_lower kw) as [-> ->];
    [|reflexivity].
  induction H as [|c x kw text Hcx H IH]; [split; reflexivity|].
  simpl in Ha. apply andb_true_iff in Ha as [Hc Ha].
  destruct (lit_match_ascii c x Hc Hcx) as [Hx Hl].
  destruct (IH Ha) as [IH1 IH2]. simpl. rewrite Hx, IH1, Hl, IH2.
  split; reflexivity.
Qed.

(** The shape of every successful extraction: in the normalized comment a
    keyword (in any casing) stands at a word boundary, any number of
    whitespace characters follows, then the dotted digits, which end at a
    word boundary. *)
Lemma extract_shape comment num ty :
  extract_level_metadata comment = (Some num, Some ty) ->
  exists pre kwt ws post,
    normalize comment = pre ++ kwt ++ ws ++ num ++ post /\
    In ty KEYWORDS /\ ci_eq ty kwt /\
    at_boundary (lastc None pre) (kwt ++ ws ++ num ++ post) = true /\
    Forall (fun c => Str.isspace c = true) ws /\
    dotted_digits num /\
    at_boundary (lastc None (pre ++ kwt ++ ws ++ num)) post = true.
Proof.
  unfold extract_level_metadata. intros H.
  destruct (normalize comment) as [|c0 s0] eqn:En; [discriminate|].
  destruct (search pattern (c0 :: s0)) as [m|] eqn:Es; [|discriminate].
  apply search_from_sound in Es as (pre & w & post & Ew & M).
  apply matches_pattern
    in M as (kwt & ws & n & -> & -> & B1 & HK & Fws & Dn & B2).
  cbn [group Nat.eqb] in H.
  assert (n = num) as -> by (inversion H; reflexivity).
  exists pre, kwt, ws, post. rewrite Ew, <- !app_assoc in *.
  rewrite lastc_app.
  unfold KEYWORDS in HK.
  assert (In ty KEYWORDS /\ ci_eq ty kwt) as [Hin Hci].
  { inversion HK as [? ? Hci|? ? HK1]; subst.
    - rewrite (ci_eq_lower (Str.lit "Hauptgruppe") kwt eq_refl Hci) in H.
      inversion H; subst. split; [left; reflexivity | assumption].
    - inversion HK1 as [? ? Hci|? ? HK2]; subst.
      + rewrite (ci_eq_lower (Str.lit "Gruppe") kwt eq_refl Hci) in H.
        inversion H; subst.
        split; [right; left; reflexivity | assumption].
      + inversion HK2 as [? ? Hci|? ? HK3]; subst; [|inversion HK3].
        rewrite (ci_eq_lower (Str.lit "Untergruppe") kwt eq_refl Hci) in H.
        inversion H; subst.
        split; [right; right; left; reflexivity | assumption]. }
  repeat split; auto.
Qed.

(** An extraction yields both parts or none. *)
Lemma extract_both_or_none comment :
  extract_level_metadata comment = (None, None) \/
  exists num ty, extract_level_metadata comment = (Some num, Some ty).
Proof.
  unfold extract_level_metadata.
  destruct (normalize comment); [left; reflexivity|].
  destruct (search pattern _); [right; eauto | left; reflexivity].
Qed.


Lemma is_letter_range c :
  is_letter c = true <-> (65 <= c <= 90 \/ 97 <= c <= 122)%N.
Proof.
  unfold is_letter, Str.isupper, Str.islower.
  rewrite orb_true_iff, !andb_true_iff, !N.leb_le. tauto.
Qed.

Lemma lit_match_letter c x :
  is_letter c = true -> lit_match c x = true -> is_letter x = true.
Proof.
  rewrite !is_letter_range. unfold lit_match. intros Hc H.
  apply N.eqb_eq in H. unfold Str.ascii_lower, Str.isupper in H.
  destruct ((65 <=? x) && (x <=? 90))%N eqn:Ux;
    destruct ((65 <=? c) && (c <=? 90))%N eqn:Uc;
    try (apply andb_true_iff in Ux as [U1 U2];
         apply N.leb_le in U1; apply N.leb_le in U2);
    try (apply andb_true_iff in Uc as [U3 U4];
         apply N.leb_le in U3; apply N.leb_le in U4);
    try (apply andb_false_iff in Uc as [U5 | U5]; apply N.leb_gt in U5);
    lia.
Qed.

Lemma ci_eq_letters kw text :
  forallb is_letter kw = true -> ci_eq kw text ->
  Forall (fun x => is_letter x = true) text.
Proof.
  intros Hk H. induction H as [|c x kw text Hcx H IH]; [constructor|].
  simpl in Hk. apply andb_true_iff in Hk as [Hc Hk].
  constructor; [eapply lit_match_letter; eauto | auto].
Qed.

Lemma letter_not_space x : is_letter x = true -> Str.isspace x = false.
Proof.
  rewrite is_letter_range. intros H.
  apply NormFacts.isspace_false_mid. lia.
Qed.

Lemma letter_is_word x : is_letter x = true -> Str.is_word x = true.
Proof.
  intros H. pose proof H as R. rewrite is_letter_range in R.
  unfold Str.is_word, Str.is_ascii, Str.ascii_isalnum.
  assert ((x <? 128)%N = true) as -> by (apply N.ltb_lt; lia).
  unfold is_letter in H.
  apply orb_true_iff in H as [H | H]; rewrite H, ?orb_true_r; reflexivity.
Qed.

Lemma keywords_letters kw :
  In kw KEYWORDS -> forallb is_letter kw = true.
Proof.
  intros [<- | [<- | [<- | []]]]; reflexivity.
Qed.

Lemma normalize_norm comment :
  normalize (Some comment) = Norm.norm comment.
Proof. reflexivity. Qed.

(** A keyword found in the normalized comment occurs in the comment. *)
Lemma ci_occurs_norm kw comment :
  In kw KEYWORDS -> ci_occurs kw (normalize (Some comment)) ->
  ci_occurs kw comment.
Proof.
  intros Hk (pre & text0 & post & E & Hci). rewrite normalize_norm in E.
  assert (Norm.infix text0 comment) as (p & q & ->).
  { apply NormFacts.norm_infix.
    - eapply Forall_impl; [|eapply ci_eq_letters; eauto using keywords_letters].
      apply letter_not_space.
    - exists pre, post. exact E. }
  exists p, text0, q. auto.
Qed.

(** A match of [Gruppe] never starts right after a letter, so it is never
    the tail of [Untergruppe]. *)
Lemma gruppe_not_inside pre kwt tail u pre' :
  at_boundary (lastc None pre) (kwt ++ tail) = true ->
  ci_eq (Str.lit "Gruppe") kwt ->
  pre = pre' ++ u -> ~ ci_eq (Str.lit "Unter") u.
Proof.
  intros B Hk -> Hu.
  pose proof (ci_eq_letters (Str.lit "Gruppe") kwt eq_refl Hk) as Lk.
  pose proof (ci_eq_letters (Str.lit "Unter") u eq_refl Hu) as Lu.
  inversion Hk as [|? g ? kwt' _ _]; subst.
  do 5 (let x := fresh "x" in let H := fresh "H" in
        inversion Hu as [|? x ? ? _ H]; subst; clear Hu; rename H into Hu).
  inversion Hu; subst. clear Hu.
  rewrite lastc_app in B. cbn [lastc app hd_error] in B.
  unfold at_boundary in B. cbn [hd_error app word_opt] in B.
  inversion Lk as [|? ? Lg _]; subst.
  do 4 (let H := fresh "H" in
        inversion Lu as [|? ? _ H]; subst; clear Lu; rename H into Lu).
  inversion Lu as [|? ? Lr _]; subst.
  rewrite (letter_is_word _ Lg), (letter_is_word _ Lr) in B. discriminate B.
Qed.

(** C3: the keyword is reported in one of its three canonical spellings,
    the number is the matched text itself, a match reported as [Gruppe] is
    never the tail of an occurrence of [Untergruppe], and the comments of
    the specification come out as it says: "siehe Untergruppe 5.1.2 fuer
    Details" (with u-umlaut) as Untergruppe 5.1.2, "Untergruppe 5.1" as
    Untergruppe 5.1, "Gruppe 3" as Gruppe 3, and a comment in which none
    of the three keywords occurs as (None, None). *)
Theorem level_keyword_disambiguation :
  (forall comment num ty,
     extract_level_metadata comment = (Some num, Some ty) ->
     In ty KEYWORDS /\
     exists pre kwt ws post,
       normalize comment = pre ++ kwt ++ ws ++ num ++ post /\
       ci_eq ty kwt /\
       (ty = Str.lit "Gruppe" ->
        forall pre' u, pre = pre' ++ u -> ~ ci_eq (Str.lit "Unter") u)) /\
  (forall comment,
     extract_level_metadata comment = (None, None) \/
     exists num ty, extract_level_metadata comment = (Some num, Some ty)) /\
  extract_level_metadata
    (Some (Str.lit "siehe Untergruppe 5.1.2 f" ++ [252%N]
           ++ Str.lit "r Details"))
  = (Some (Str.lit "5.1.2"), Some (Str.lit "Untergruppe")) /\
  extract_level_metadata (Some (Str.lit "Untergruppe 5.1"))
  = (Some (Str.lit "5.1"), Some (Str.lit "Untergruppe")) /\
  extract_level_metadata (Some (Str.lit "Gruppe 3"))
  = (Some (Str.lit "3"), Some (Str.lit "Gruppe")) /\
  (forall comment,
     (forall kw, In kw KEYWORDS -> ~ ci_occurs kw comment) ->
     extract_level_metadata (Some comment) = (None, None)).
Proof.
  split; [|split; [|split; [|split; [|split]]]].
  - intros comment num ty H.
    apply extract_shape
      in H as (pre & kwt & ws & post & E & Hin & Hci & B1 & _).
    split; [assumption|]. exists pre, kwt, ws, post.
    split; [assumption|]. split; [assumption|].
    intros -> pre' u Ep. eapply gruppe_not_inside; eauto.
  - apply extract_both_or_none.
  - vm_compute. reflexivity.
  - vm_compute. reflexivity.
  - vm_compute. reflexivity.
  - intros comment Hno.
    destruct (extract_both_or_none (Some comment)) as [E | (num & ty & E)];
      [assumption|].
    exfalso.
    apply extract_shape
      in E as (pre & kwt & ws & post & E & Hin & Hci & _).
    apply (Hno ty Hin). apply ci_occurs_norm; [assumption|].
    exists pre, kwt, (ws ++ num ++ post). auto.
Qed.

Lemma star_greedy (step : option N -> pystr -> captures -> cont -> option captures)
  (p : N -> bool) (k : cont) d :
  (forall prev s cs k', step prev s cs k' =
     match s with
     | x :: s' => if p x then k' (Some x) s' cs else None
     | [] => None
     end) ->
  forall prev rest cs res n,
  Forall (fun x => p x = true) d ->
  match rest with [] => True | x :: _ => p x = false end ->
  length d <= n ->
  k (lastc prev d) rest cs = Some res ->
  star_loop step k n prev (d ++ rest) cs = Some res.
Proof.
  intros Hstep.
  induction d as [|x d IH]; intros prev rest cs res n Hd Hr Hn Hk.
  - simpl in *. destruct n; simpl; [assumption|]. rewrite Hstep.
    destruct rest as [|y rest]; [assumption|]. rewrite Hr. assumption.
  - destruct n as [|n]; [simpl in Hn; lia|].
    inversion Hd as [|? ? Hx Hd']; subst.
    simpl. rewrite Hstep, Hx.
    assert (Nat.ltb (length (d ++ rest)) (S (length (d ++ rest))) = true) as ->
      by (apply Nat.ltb_lt; lia).
    rewrite (IH (Some x) rest cs res n); auto. simpl in Hn; lia.
Qed.

Lemma star_class_greedy p d prev rest cs (k : cont) res :
  Forall (fun x => p x = true) d ->
  match rest with [] => True | x :: _ => p x = false end ->
  k (lastc prev d) rest cs = Some res ->
  matcher (Star (Class p)) prev (d ++ rest) cs k = Some res.
Proof.
  intros Hd Hr Hk. cbn [matcher].
  apply (star_greedy (matcher (Class p)) p); auto.
  rewrite length_app. lia.
Qed.

Lemma digit_is_word x : Str.isdigit x = true -> Str.is_word x = true.
Proof.
  intros H. unfold Str.is_word, Str.ascii_isalnum. rewrite H.
  unfold Str.isdigit in H. apply andb_true_iff in H as [_ H].
  apply N.leb_le in H. unfold Str.is_ascii.
  assert ((x <? 128)%N = true) as -> by (apply N.ltb_lt; lia). reflexivity.
Qed.

Lemma digit_not_space x : Str.isdigit x = true -> Str.isspace x = false.
Proof.
  intros H. unfold Str.isdigit in H. apply andb_true_iff in H as [H1 H2].
  apply N.leb_le in H1. apply N.leb_le in H2.
  apply NormFacts.isspace_false_mid. lia.
Qed.

Lemma lastc_digits prev d :
  digit_run d -> word_opt (lastc prev d) = true.
Proof.
  intros [Hne Hd]. revert prev. induction Hd as [|x d Hx Hd IH]; [congruence|].
  intros prev. simpl. destruct d as [|y d].
  - simpl. apply digit_is_word. assumption.
  - apply IH. discriminate.
Qed.

Lemma star_greedy_end (step : option N -> pystr -> captures -> cont -> option captures)
  (p : N -> bool) (k : cont) d prev cs res n :
  (forall prev s cs k', step prev s cs k' =
     match s with
     | x :: s' => if p x then k' (Some x) s' cs else None
     | [] => None
     end) ->
  Forall (fun x => p x = true) d ->
  length d <= n ->
  k (lastc prev d) [] cs = Some res ->
  star_loop step k n prev d cs = Some res.
Proof.
  intros Hs Hd Hn Hk. rewrite <- (app_nil_r d).
  eapply star_greedy; eauto.
Qed.

Lemma firstn_keyword (kw : pystr) n m (d : pystr) :
  n = length kw + m -> firstn (n - m) (kw ++ d) = kw.
Proof.
  intros ->. rewrite Nat.add_sub, firstn_app, Nat.sub_diag, firstn_all.
  simpl. apply app_nil_r.
Qed.

Lemma pattern_abutting kw d :
  In kw KEYWORDS -> digit_run d ->
  matcher pattern None (kw ++ d) [] (fun _ _ cs => Some cs)
  = Some [(2, d); (1, kw)].
Proof.
  intros Hk Hd. pose proof Hd as [Hne Fd].
  destruct d as [|x d]; [congruence|].
  inversion Fd as [|? ? Hx Fd']; subst.
  pose proof (digit_not_space x Hx) as Hsp.
  pose proof (lastc_digits None (x :: d) Hd) as Hl. simpl in Hl.
  destruct Hk as [<- | [<- | [<- | []]]].
  all: cbn -[Nat.sub firstn]; rewrite Hsp, Hx.
  all: erewrite star_greedy_end with (p := Str.isdigit);
    [ | reflexivity | exact Fd' | apply Nat.le_refl
      | cbn -[Nat.sub firstn]; unfold at_boundary; cbn [hd_error word_opt];
        rewrite Hl; reflexivity ].
  all: rewrite Nat.sub_0_r; change (S (length d)) with (length (x :: d));
    rewrite firstn_all.
  all: match goal with
       | |- context [firstn (?a - ?b) _] =>
           first [ replace (a - b) with 11 by lia
                 | replace (a - b) with 6 by lia ]
       end; reflexivity.
Qed.

Lemma search_from_hit r prev s cs :
  matcher r prev s [] (fun _ _ c => Some c) = Some cs ->
  search_from r prev s = Some cs.
Proof. intros H. destruct s; simpl; rewrite H; reflexivity. Qed.

Lemma norm_no_ws s : Norm.no_ws s -> Norm.norm s = s.
Proof.
  induction s as [|c s IH]; intros H; [reflexivity|].
  inversion H as [|? ? Hc Hs]; subst. destruct s as [|d s].
  - apply NormFacts.norm_single. assumption.
  - inversion Hs; subst.
    rewrite NormFacts.norm_word, IH by assumption. reflexivity.
Qed.

(** A keyword with a run of digits right behind it is a match. *)
Lemma extract_abutting kw d :
  In kw KEYWORDS -> digit_run d ->
  extract_level_metadata (Some (kw ++ d)) = (Some d, Some kw).
Proof.
  intros Hk Hd.
  assert (search pattern (kw ++ d) = Some [(2, d); (1, kw)]) as Hs
    by (apply search_from_hit, pattern_abutting; assumption).
  assert (normalize (Some (kw ++ d)) = kw ++ d) as Hn.
  { rewrite normalize_norm. apply norm_no_ws. apply Forall_app. split.
    - apply Forall_forall. intros c Hc. apply letter_not_space.
      pose proof (keywords_letters kw Hk) as L.
      rewrite forallb_forall in L. auto.
    - destruct Hd as [_ Hd]. eapply Forall_impl; [|exact Hd].
      apply digit_not_space. }
  unfold extract_level_metadata. rewrite Hn.
  destruct (kw ++ d) as [|c s] eqn:E.
  { destruct Hk as [<- | [<- | [<- | []]]]; discriminate E. }
  rewrite Hs. cbn [group Nat.eqb].
  destruct Hk as [<- | [<- | [<- | []]]]; reflexivity.
Qed.

(** C8, as the code has it: level metadata is returned only when, in the
    normalized comment, one of the three keywords (in any casing) is
    followed by zero or more whitespace characters and then a dot-separated
    run of digits; whitespace is not required, and a keyword with a run of
    digits right behind it yields that number and that keyword. *)
Theorem level_match_shape :
  (forall comment num ty,
     extract_level_metadata comment = (Some num, Some ty) ->
     exists pre kwt ws post,
       normalize comment = pre ++ kwt ++ ws ++ num ++ post /\
       In ty KEYWORDS /\ ci_eq ty kwt /\
       Forall (fun c => Str.isspace c = true) ws /\
       dotted_digits num) /\
  (forall kw d,
     In kw KEYWORDS -> digit_run d ->
     extract_level_metadata (Some (kw ++ d)) = (Some d, Some kw)).
Proof.
  split.
  - intros comment num ty H.
    apply extract_shape
      in H as (pre & kwt & ws & post & E & Hin & Hci & _ & Fws & Dn & _).
    exists pre, kwt, ws, post. auto.
  - apply extract_abutting.
Qed.

End WithRuntime.
End LevelFacts.

(** ** Sorting *)

Module SortFacts.
Import ResultFacts.

(** *** The order on keys *)

Section Product.
Variables (A B : Type) (ca : A -> A -> comparison) (cb : B -> B -> comparison).
Hypothesis ca_eq : forall x y, ca x y = Eq <-> x = y.
Hypothesis cb_eq : forall x y, cb x y = Eq <-> x = y.
Hypothesis ca_opp : forall x y, ca y x = CompOpp (ca x y).
Hypothesis cb_opp : forall x y, cb y x = CompOpp (cb x y).
Hypothesis ca_trans : forall x y z c, ca x y = c -> ca y z = c -> ca x z = c.
Hypothesis cb_trans : forall x y z c, cb x y = c -> cb y z = c -> cb x z = c.

Lemma lex_eq p q : lex ca cb p q = Eq <-> p = q.
Proof.
  destruct p as [a b], q as [a' b']. unfold lex. simpl.
  destruct (ca a a') eqn:E.
  - apply ca_eq in E. subst. rewrite cb_eq. split; congruence.
  - split; [discriminate|]. intros H. inversion H; subst.
    assert (ca a' a' = Eq) by (apply ca_eq; reflexivity). congruence.
  - split; [discriminate|]. intros H. inversion H; subst.
    assert (ca a' a' = Eq) by (apply ca_eq; reflexivity). congruence.
Qed.

Lemma lex_opp p q : lex ca cb q p = CompOpp (lex ca cb p q).
Proof.
  destruct p as [a b], q as [a' b']. unfold lex. simpl.
  rewrite (ca_opp a a'). destruct (ca a a'); simpl; auto.
Qed.

Lemma lex_trans p q r c :
  lex ca cb p q = c -> lex ca cb q r = c -> lex ca cb p r = c.
Proof.
  destruct p as [a b], q as [a' b'], r as [a'' b'']. unfold lex. simpl.
  destruct (ca a a') eqn:E1; destruct (ca a' a'') eqn:E2;
    try (apply ca_eq in E1; subst); try (apply ca_eq in E2; subst);
    try rewrite E1; try rewrite E2; intros H1 H2; subst;
    try discriminate; eauto.
  - assert (ca a'' a'' = Eq) as -> by (apply ca_eq; reflexivity). eauto.
  - rewrite (ca_trans _ _ _ _ E1 E2). reflexivity.
  - rewrite (ca_trans _ _ _ _ E1 E2). reflexivity.
Qed.

End Product.

Lemma N_compare_trans x y z c :
  N.compare x y = c -> N.compare y z = c -> N.compare x z = c.
Proof.
  destruct c; intros H1 H2.
  - apply N.compare_eq_iff in H1, H2. subst. apply N.compare_refl.
  - rewrite N.compare_lt_iff in *. lia.
  - rewrite N.compare_gt_iff in *. lia.
Qed.

Lemma Z_compare_trans x y z c :
  Z.compare x y = c -> Z.compare y z = c -> Z.compare x z = c.
Proof.
  destruct c; intros H1 H2.
  - apply Z.compare_eq_iff in H1, H2. subst. apply Z.compare_refl.
  - rewrite Z.compare_lt_iff in *. lia.
  - rewrite Z.compare_gt_iff in *. lia.
Qed.

Lemma str_compare_eq a b : Str.compare a b = Eq <-> a = b.
Proof. apply list_compare_refl, N.compare_eq_iff. Qed.

Lemma str_compare_opp a b : Str.compare b a = CompOpp (Str.compare a b).
Proof.
  apply list_compare_antisym;
    [apply N.compare_eq_iff | intros; apply N.compare_antisym].
Qed.

Lemma str_compare_trans a b c o :
  Str.compare a b = o -> Str.compare b c = o -> Str.compare a c = o.
Proof.
  apply list_compare_trans;
    [apply N.compare_eq_iff | apply N_compare_trans
     | intros; apply N.compare_antisym].
Qed.

Lemma tuple_compare_eq a b : Sort.tuple_compare a b = Eq <-> a = b.
Proof. apply list_compare_refl, Z.compare_eq_iff. Qed.

Lemma tuple_compare_opp a b :
  Sort.tuple_compare b a = CompOpp (Sort.tuple_compare a b).
Proof.
  apply list_compare_antisym;
    [apply Z.compare_eq_iff | intros; apply Z.compare_antisym].
Qed.

Lemma tuple_compare_trans a b c o :
  Sort.tuple_compare a b = o -> Sort.tuple_compare b c = o ->
  Sort.tuple_compare a c = o.
Proof.
  apply list_compare_trans;
    [apply Z.compare_eq_iff | apply Z_compare_trans
     | intros; apply Z.compare_antisym].
Qed.

Lemma key_compare_lex k1 k2 : Sort.key_compare k1 k2 = key_lex k1 k2.
Proof.
  destruct k1 as [[t1 l1] f1], k2 as [[t2 l2] f2].
  unfold Sort.key_compare, key_lex, lex. simpl.
  destruct (Sort.tuple_compare t1 t2); [|reflexivity|reflexivity].
  destruct (Str.compare l1 l2); reflexivity.
Qed.

Lemma key_compare_eq k1 k2 : Sort.key_compare k1 k2 = Eq <-> k1 = k2.
Proof.
  rewrite key_compare_lex. unfold key_lex.
  apply lex_eq; [|apply str_compare_eq].
  apply lex_eq; [apply tuple_compare_eq | apply str_compare_eq].
Qed.

Lemma key_compare_opp k1 k2 :
  Sort.key_compare k2 k1 = CompOpp (Sort.key_compare k1 k2).
Proof.
  rewrite !key_compare_lex. unfold key_lex.
  apply lex_opp; [|apply str_compare_opp].
  apply lex_opp; [apply tuple_compare_opp | apply str_compare_opp].
Qed.

Lemma key_compare_trans k1 k2 k3 c :
  Sort.key_compare k1 k2 = c -> Sort.key_compare k2 k3 = c ->
  Sort.key_compare k1 k3 = c.
Proof.
  rewrite !key_compare_lex. unfold key_lex.
  apply lex_trans; [| |apply str_compare_trans].
  - apply lex_eq; [apply tuple_compare_eq | apply str_compare_eq].
  - apply lex_trans;
      [apply tuple_compare_eq | apply tuple_compare_trans
       | apply str_compare_trans].
Qed.

Lemma key_lt_irrefl k : Sort.key_lt k k = false.
Proof.
  unfold Sort.key_lt.
  assert (Sort.key_compare k k = Eq) as -> by (apply key_compare_eq; reflexivity).
  reflexivity.
Qed.

Lemma key_lt_le k1 k2 : Sort.key_lt k1 k2 = true -> key_le k1 k2.
Proof.
  unfold key_le, Sort.key_lt. rewrite (key_compare_opp k1 k2).
  destruct (Sort.key_compare k1 k2); simpl; congruence.
Qed.

Lemma key_le_total k1 k2 : Sort.key_lt k1 k2 = false -> key_le k2 k1.
Proof. auto. Qed.

Lemma key_le_trans k1 k2 k3 : key_le k1 k2 -> key_le k2 k3 -> key_le k1 k3.
Proof.
  unfold key_le, Sort.key_lt.
  rewrite (key_compare_opp k1 k2), (key_compare_opp k2 k3),
          (key_compare_opp k1 k3).
  destruct (Sort.key_compare k1 k2) eqn:E1;
    destruct (Sort.key_compare k2 k3) eqn:E2; simpl; try discriminate;
    intros _ _.
  - rewrite (key_compare_trans _ _ _ _ E1 E2). reflexivity.
  - apply key_compare_eq in E1. subst. rewrite E2. reflexivity.
  - apply key_compare_eq in E2. subst. rewrite E1. reflexivity.
  - rewrite (key_compare_trans _ _ _ _ E1 E2). reflexivity.
Qed.

(** *** Insertion sort *)

Section Decorated.
Variable A : Type.

Lemma insert_perm (x : Sort.key * A) l : Permutation (Sort.insert x l) (x :: l).
Proof.
  induction l as [|y l IH]; simpl; [reflexivity|].
  destruct (Sort.key_lt (fst y) (fst x)); [|reflexivity].
  rewrite IH. apply perm_swap.
Qed.

Lemma sort_perm (l : list (Sort.key * A)) :
  Permutation (Sort.sort_decorated l) l.
Proof.
  induction l as [|x l IH]; simpl; [reflexivity|].
  rewrite insert_perm. constructor. exact IH.
Qed.

Lemma insert_ascending (x : Sort.key * A) l :
  ascending l -> ascending (Sort.insert x l).
Proof.
  unfold ascending. induction l as [|y l IH]; intros H; simpl.
  - repeat constructor.
  - inversion H as [|? ? Hl Hy]; subst.
    destruct (Sort.key_lt (fst y) (fst x)) eqn:E.
    + constructor; [auto|].
      eapply Permutation_Forall; [symmetry; apply insert_perm|].
      constructor; [apply key_lt_le; assumption | assumption].
    + constructor; [assumption|]. constructor; [exact E|].
      eapply Forall_impl; [|exact Hy]. intros z Hz.
      eapply key_le_trans; [exact E | exact Hz].
Qed.

Lemma sort_ascending (l : list (Sort.key * A)) :
  ascending (Sort.sort_decorated l).
Proof.
  induction l as [|x l IH]; simpl; [constructor|].
  apply insert_ascending. exact IH.
Qed.

Variable keyf : A -> result Sort.key.

Lemma sorted_inv l out :
  Sort.sorted keyf l = Ok out ->
  exists ks,
    Forall2 (fun a ka => keyf a = Ok (fst ka) /\ snd ka = a) l ks /\
    out = map snd (Sort.sort_decorated ks).
Proof.
  unfold Sort.sorted. intros H.
  apply bind_ok in H as (ks & Hks & H). inversion H; subst.
  exists ks. split; [|reflexivity].
  apply traverse_ok in Hks. eapply Forall2_impl; [|exact Hks].
  intros a [k a'] Ha. simpl in Ha.
  destruct (keyf a); simpl in Ha; inversion Ha; subst. auto.
Qed.

Lemma decorated_snd l ks :
  Forall2 (fun a (ka : Sort.key * A) => keyf a = Ok (fst ka) /\ snd ka = a)
          l ks ->
  map snd ks = l /\ Forall (fun ka => keyf (snd ka) = Ok (fst ka)) ks.
Proof.
  induction 1 as [|a ka l ks [Hk Ha] _ [IH1 IH2]]; simpl.
  - split; constructor.
  - split; [congruence|]. constructor; [congruence | assumption].
Qed.

Lemma sorted_perm l out :
  Sort.sorted keyf l = Ok out -> Permutation out l.
Proof.
  intros H. apply sorted_inv in H as (ks & F & ->).
  apply decorated_snd in F as [<- _].
  apply Permutation_map, sort_perm.
Qed.

Lemma sorted_total l :
  (forall a, In a l -> exists k, keyf a = Ok k) ->
  exists out, Sort.sorted keyf l = Ok out.
Proof.
  intros H. unfold Sort.sorted.
  destruct (traverse_all_ok (fun a => do k <- keyf a; Ok (k, a)) l)
    as [ks ->]; [|simpl; eauto].
  intros a Ha. destruct (H a Ha) as [k ->]. simpl. eauto.
Qed.

Lemma sorted_no_fuel l :
  (forall a, In a l -> keyf a <> Fuel) -> Sort.sorted keyf l <> Fuel.
Proof.
  intros H. unfold Sort.sorted.
  assert (traverse (fun a => do k <- keyf a; Ok (k, a)) l <> Fuel) as Ht.
  { apply traverse_no_fuel. intros a Ha. specialize (H a Ha).
    destruct (keyf a); simpl; congruence. }
  destruct (traverse _ l); simpl; congruence.
Qed.

Lemma sorted_keys_ok l out a :
  Sort.sorted keyf l = Ok out -> In a l -> exists k, keyf a = Ok k.
Proof.
  intros H Ha. apply sorted_inv in H as (ks & F & _).
  clear out. induction F as [|a' ka l ks [Hk _] _ IH]; [destruct Ha|].
  destruct Ha as [<- | Ha]; eauto.
Qed.

(** The output is in ascending order of the keys. *)
Lemma sorted_ascending l out :
  Sort.sorted keyf l = Ok out ->
  StronglySorted
    (fun x y => forall kx ky, keyf x = Ok kx -> keyf y = Ok ky -> key_le kx ky)
    out.
Proof.
  intros H. apply sorted_inv in H as (ks & F & ->).
  apply decorated_snd in F as [_ F].
  assert (Forall (fun ka => keyf (snd ka) = Ok (fst ka))
                 (Sort.sort_decorated ks)) as F'
    by (eapply Permutation_Forall; [symmetry; apply sort_perm | exact F]).
  pose proof (sort_ascending ks) as S. unfold ascending in S.
  induction S as [|x l' S IH Hx]; simpl; [constructor|].
  inversion F' as [|? ? Fx Fl]; subst.
  constructor; [auto|].
  rewrite Forall_map. rewrite Forall_forall in *.
  intros y Hy kx ky Ex Ey.
  rewrite Fx in Ex. rewrite (Fl y Hy) in Ey.
  inversion Ex; inversion Ey; subst. auto.
Qed.

Lemma strongly_sorted_mid (R : A -> A -> Prop) l1 x l2 :
  StronglySorted R (l1 ++ x :: l2) -> forall y, In y l1 -> R y x.
Proof.
  induction l1 as [|z l1 IH]; simpl; intros H y Hy; [destruct Hy|].
  inversion H as [|? ? Hs Hz]; subst.
  destruct Hy as [<- | Hy]; [|auto].
  rewrite Forall_forall in Hz. apply Hz. apply in_elt.
Qed.

(** An element with a strictly smaller key comes out first. *)
Lemma sorted_precedes l out x y kx ky :
  Sort.sorted keyf l = Ok out -> In x l -> In y l ->
  keyf x = Ok kx -> keyf y = Ok ky -> Sort.key_lt kx ky = true ->
  precedes x y out.
Proof.
  intros H Hx Hy Ex Ey Hlt.
  pose proof (sorted_ascending _ _ H) as S.
  pose proof (sorted_perm _ _ H) as P.
  apply (Permutation_in _ (Permutation_sym P)) in Hx, Hy.
  apply in_split in Hx as (l1 & l2 & ->).
  apply in_app_or in Hy as [Hy | [Hy | Hy]].
  - pose proof (strongly_sorted_mid _ _ _ _ S y Hy ky kx Ey Ex) as C.
    unfold key_le in C. congruence.
  - subst. rewrite Ex in Ey. inversion Ey; subst.
    rewrite key_lt_irrefl in Hlt. discriminate.
  - apply in_split in Hy as (l3 & l4 & ->).
    exists l1, l3, l4. reflexivity.
Qed.

End Decorated.

End SortFacts.

(** ** Entity extractor *)

Module ExtractFacts.
Import StrFacts DictFacts.

Lemma lstrip_nil s : Str.lstrip s = [] <-> blank s.
Proof.
  unfold blank. induction s as [|c s IH]; simpl.
  - split; [constructor | reflexivity].
  - destruct (Str.isspace c) eqn:E.
    + rewrite IH. split; [constructor; assumption|].
      intros H. inversion H; assumption.
    + split; [discriminate|]. intros H. inversion H; congruence.
Qed.

Lemma lstrip_head s c s' : Str.lstrip s = c :: s' -> Str.isspace c = false.
Proof.
  induction s as [|d s IH]; simpl; [discriminate|].
  destruct (Str.isspace d) eqn:E; [assumption|].
  intros H. inversion H; subst. assumption.
Qed.

Lemma blank_rev s : blank (rev s) <-> blank s.
Proof.
  unfold blank. split; intros H.
  - rewrite <- (rev_involutive s). apply Forall_rev. assumption.
  - apply Forall_rev. assumption.
Qed.

(** A text strips to nothing exactly when it is blank. *)
Lemma strip_nil s : Str.strip s = [] <-> blank s.
Proof.
  unfold Str.strip, Str.rstrip. split.
  - intros H. apply (f_equal (@rev N)) in H. rewrite rev_involutive in H.
    simpl in H. apply lstrip_nil in H. apply (proj1 (blank_rev _)) in H.
    apply lstrip_nil. destruct (Str.lstrip s) as [|c s'] eqn:E; [reflexivity|].
    apply lstrip_head in E. unfold blank in H. inversion H; congruence.
  - intros H. apply lstrip_nil in H. rewrite H. reflexivity.
Qed.

Lemma lstrip_incl s : incl (Str.lstrip s) s.
Proof.
  induction s as [|c s IH]; simpl; [apply incl_refl|].
  destruct (Str.isspace c); [apply incl_tl; assumption | apply incl_refl].
Qed.

Lemma strip_incl s : incl (Str.strip s) s.
Proof.
  unfold Str.strip, Str.rstrip. intros x Hx.
  apply (proj2 (in_rev _ _)), lstrip_incl in Hx.
  apply (proj2 (in_rev _ _)), lstrip_incl in Hx. exact Hx.
Qed.

Lemma lstrip_suffix s : exists p, s = p ++ Str.lstrip s.
Proof.
  induction s as [|c s [p IH]]; simpl; [exists []; reflexivity|].
  destruct (Str.isspace c); [|exists []; reflexivity].
  exists (c :: p). simpl. congruence.
Qed.

(** What [strip] leaves begins and ends with a character that is not
    whitespace. *)
Lemma strip_trimmed s c t :
  Str.strip s = c :: t ->
  Str.isspace c = false /\
  exists t' d, c :: t = t' ++ [d] /\ Str.isspace d = false.
Proof.
  unfold Str.strip, Str.rstrip. intros H.
  destruct (Str.lstrip (rev (Str.lstrip s))) as [|d w] eqn:E;
    [discriminate|].
  pose proof (lstrip_head _ _ _ E) as Hd.
  split; [|exists (rev w), d; split; [rewrite <- H; reflexivity | exact Hd]].
  destruct (lstrip_suffix (rev (Str.lstrip s))) as [p Hp].
  rewrite E in Hp. apply (f_equal (@rev N)) in Hp.
  rewrite rev_involutive, rev_app_distr, H in Hp.
  simpl in Hp. eapply lstrip_head. exact Hp.
Qed.

Lemma truthy_true s : truthy s = true <-> s <> [].
Proof. destruct s; simpl; split; congruence. Qed.

Lemma truthy_false s : truthy s = false <-> s = [].
Proof. destruct s; simpl; split; congruence. Qed.


Lemma find_none_all {A} (f : A -> bool) l :
  Forall (fun y => f y = false) l -> find f l = None.
Proof.
  induction 1 as [|y l Hy _ IH]; simpl; [reflexivity|]. rewrite Hy. exact IH.
Qed.

Section WithRuntime.
Context {rt : PyRuntime}.

Lemma humanize_no_underscore fragment :
  ~ In 95%N (humanize_fragment fragment).
Proof.
  unfold humanize_fragment, Str.replace1. intros H.
  apply strip_incl, in_map_iff in H as (c & E & _).
  destruct (N.eqb c 95) eqn:E'; [discriminate|].
  apply N.eqb_neq in E'. congruence.
Qed.

Lemma native_label lbl :
  is_native_label lbl = true <->
  Str.lower (or_empty (get_attr lbl XML_LANG)) = Str.lit "de" /\
  ~ blank (or_empty (text lbl)).
Proof.
  unfold is_native_label, label_text.
  rewrite andb_true_iff, eqb_eq, truthy_true, strip_nil. tauto.
Qed.

Lemma blank_label lbl :
  truthy (label_text lbl) = false <-> blank (or_empty (text lbl)).
Proof. unfold label_text. rewrite truthy_false, strip_nil. tauto. Qed.



(** *** The loop over the class elements *)

Lemma parse_class_step st class_el :
  parse_class st class_el =
  match class_iri_of class_el with
  | None => st
  | Some class_iri =>
      let fragment := extract_fragment class_iri in
      let meta := extract_level_metadata (Some (comment_text class_el)) in
      (Dict.set (fst st) class_iri
         {| id := class_iri;
            label := parse_preferred_label class_el fragment;
            raw_fragment := fragment;
            level_number := fst meta; level_type := snd meta |},
       snd st ++ class_edges class_el class_iri)
  end.
Proof.
  destruct st as [nodes edges]. unfold parse_class, class_iri_of.
  destruct (get_attr class_el (qname RDF_NS "about")) as [iri|];
    [|reflexivity].
  destruct (truthy iri); simpl; [|reflexivity].
  destruct (extract_level_metadata _); reflexivity.
Qed.

Lemma fold_parse_edges cls : forall st,
  snd (fold_left parse_class cls st) = snd st ++ raw_edges cls.
Proof.
  induction cls as [|class_el cls IH]; intros st; simpl.
  - symmetry. apply app_nil_r.
  - rewrite IH, parse_class_step. unfold raw_edges at 2. simpl.
    destruct (class_iri_of class_el); simpl.
    + rewrite <- app_assoc. reflexivity.
    + reflexivity.
Qed.

Lemma fold_parse_keys cls : forall st k,
  In k (Dict.keys (fst (fold_left parse_class cls st))) <->
  In k (Dict.keys (fst st)) \/
  exists class_el, In class_el cls /\ class_iri_of class_el = Some k.
Proof.
  induction cls as [|class_el cls IH]; intros st k; simpl.
  - split; [auto|]. intros [H | (e & [] & _)]. exact H.
  - rewrite IH, parse_class_step.
    destruct (class_iri_of class_el) as [iri|] eqn:E; simpl.
    + rewrite In_keys_set. split.
      * intros [[-> | H] | (e & He & Hk)]; eauto.
      * intros [H | (e & [<- | He] & Hk)]; eauto.
        rewrite E in Hk. inversion Hk. auto.
    + split.
      * intros [H | (e & He & Hk)]; eauto.
      * intros [H | (e & [<- | He] & Hk)]; eauto. congruence.
Qed.

Lemma fold_parse_ids cls : forall st,
  (forall k n, Dict.get (fst st) k = Some n -> id n = k) ->
  forall k n, Dict.get (fst (fold_left parse_class cls st)) k = Some n ->
              id n = k.
Proof.
  induction cls as [|class_el cls IH]; intros st H; simpl; [exact H|].
  apply IH. rewrite parse_class_step.
  destruct (class_iri_of class_el) as [iri|]; simpl; [|exact H].
  intros k n. rewrite get_set. destruct (Str.eqb k iri) eqn:E.
  - apply eqb_eq in E. subst. intros Hn. inversion Hn. reflexivity.
  - apply H.
Qed.

(** Every node of the mapping is stored under its own identity. *)
Lemma extract_all_ids root k n :
  Dict.get (fst (extract_all root)) k = Some n -> id n = k.
Proof.
  unfold extract_all. apply fold_parse_ids. intros k' n'. discriminate.
Qed.

Lemma extract_all_edges root :
  snd (extract_all root)
  = raw_edges (findall_deep root (qname OWL_NS "Class")).
Proof. unfold extract_all. rewrite fold_parse_edges. reflexivity. Qed.

Lemma extract_all_keys root k :
  In k (Dict.keys (fst (extract_all root))) <->
  exists class_el,
    In class_el (findall_deep root (qname OWL_NS "Class")) /\
    class_iri_of class_el = Some k.
Proof.
  unfold extract_all. rewrite fold_parse_keys. simpl. tauto.
Qed.

Lemma parse_owl_root_eq root :
  parse_owl_root root
  = (fst (extract_all root),
     filter (valid_edge (fst (extract_all root))) (snd (extract_all root))).
Proof.
  unfold parse_owl_root. destruct (extract_all root). reflexivity.
Qed.

Lemma valid_edge_keys nodes c p :
  valid_edge nodes (c, p) = true <->
  In c (Dict.keys nodes) /\ In p (Dict.keys nodes).
Proof.
  unfold valid_edge. simpl. rewrite andb_true_iff, !mem_keys. tauto.
Qed.

End WithRuntime.
End ExtractFacts.

(** ** Forest builder *)

Module ForestFacts.
Import StrFacts DictFacts SSetFacts ResultFacts SortFacts.

Section WithNodes.
Context {rt : PyRuntime}.
Variable nodes : list (pystr * NodeBase).

Lemma lookup_ok k n : lookup nodes k = Ok n <-> Dict.get nodes k = Some n.
Proof.
  unfold lookup. destruct (Dict.get nodes k); split; congruence.
Qed.

Lemma lookup_no_fuel k : lookup nodes k <> Fuel.
Proof. unfold lookup. destruct (Dict.get nodes k); discriminate. Qed.

Lemma lookup_keys k : In k (Dict.keys nodes) <-> exists n, lookup nodes k = Ok n.
Proof.
  split.
  - intros H. apply keys_get in H as [n H]. exists n. apply lookup_ok, H.
  - intros [n H]. apply lookup_ok in H. eapply get_some_keys; eauto.
Qed.

Lemma node_sort_key_ok k key :
  node_sort_key nodes k = Ok key <->
  exists n, lookup nodes k = Ok n /\ key = key_of n.
Proof.
  unfold node_sort_key. split.
  - intros H. apply bind_ok in H as (n & Hn & H). inversion H. eauto.
  - intros (n & -> & ->). reflexivity.
Qed.

Lemma node_sort_key_no_fuel k : node_sort_key nodes k <> Fuel.
Proof.
  unfold node_sort_key. pose proof (lookup_no_fuel k).
  destruct (lookup nodes k); simpl; congruence.
Qed.

Lemma tree_key_node_dict n kids c :
  tree_key (node_dict n kids c) = key_of n.
Proof. reflexivity. Qed.

(** *** [each] *)

Lemma each_ok {A B S} (f : A -> S -> result (B * S)) l : forall s bs s',
  each f l s = Ok (bs, s') ->
  Forall2 (fun a b => exists s1 s2, f a s1 = Ok (b, s2)) l bs.
Proof.
  induction l as [|a l IH]; simpl; intros s bs s' H.
  - inversion H. constructor.
  - apply bind_ok in H as ([b s1] & Hb & H).
    apply bind_ok in H as ([bs' s2] & Hbs & H). inversion H; subst.
    constructor; eauto.
Qed.

(** *** The walk never runs out of fuel *)

Lemma path_bound path :
  NoDup path -> incl path (Dict.keys nodes) -> length path <= length nodes.
Proof.
  intros Hn Hi. unfold Dict.keys in Hi.
  rewrite <- (length_map fst nodes). apply NoDup_incl_length; assumption.
Qed.

Lemma render_fuel_enough cbp : forall fuel node_id path seen,
  NoDup path -> incl path (Dict.keys nodes) ->
  length nodes < fuel + length path ->
  render nodes cbp fuel node_id path seen <> Fuel.
Proof.
  induction fuel as [|fuel IH]; intros node_id path seen Hn Hi Hf.
  - pose proof (path_bound path Hn Hi). simpl in Hf. lia.
  - simpl. destruct (SSet.mem node_id path) eqn:Em.
    + pose proof (lookup_no_fuel node_id).
      destruct (lookup nodes node_id); simpl; congruence.
    + pose proof (sorted_no_fuel _ (node_sort_key nodes)
                    (children_of cbp node_id)
                    (fun a _ => node_sort_key_no_fuel a)) as Hs.
      destruct (Sort.sorted _ _) as [kids| |]; simpl;
        [|discriminate|congruence].
      destruct (lookup nodes node_id) as [n| |] eqn:El; simpl;
        [|discriminate|exact (False_ind _ (lookup_no_fuel _ El))].
      assert (each (fun child_id s =>
                      render nodes cbp fuel child_id
                             (SSet.add node_id path) s)
                   kids (SSet.add node_id seen) <> Fuel) as He.
      { apply each_no_fuel. intros c s _. apply IH.
        - apply add_NoDup. assumption.
        - intros y Hy. apply add_In in Hy as [-> | Hy]; [|auto].
          apply lookup_keys. eauto.
        - rewrite add_new by assumption. rewrite length_app. simpl. lia. }
      destruct (each _ kids _) as [[ts seen2]| |]; simpl;
        [discriminate|discriminate|congruence].
Qed.

Lemma choose_roots_no_fuel pc : choose_roots nodes pc <> Fuel.
Proof.
  unfold choose_roots.
  pose proof (fun l => sorted_no_fuel _ (node_sort_key nodes) l
                         (fun a _ => node_sort_key_no_fuel a)) as Hs.
  pose proof (Hs (filter (fun node_id => Nat.eqb (count_of pc node_id) 0)
                         (Dict.keys nodes))) as H1.
  destruct (Sort.sorted _ (filter _ _)) as [[|r rs]| |]; simpl;
    [apply Hs | discriminate | discriminate | congruence].
Qed.

Lemma build_forest_no_fuel edges : build_forest nodes edges <> Fuel.
Proof.
  unfold build_forest. destruct (index_edges edges) as [cbp pc].
  pose proof (choose_roots_no_fuel pc) as Hr.
  destruct (choose_roots nodes pc) as [roots| |]; simpl;
    [|discriminate|congruence].
  assert (each (fun root_id s =>
                  render nodes cbp (render_fuel nodes) root_id [] s)
               roots [] <> Fuel) as He.
  { apply each_no_fuel. intros r s _. apply render_fuel_enough.
    - constructor.
    - intros y [].
    - unfold render_fuel. simpl. lia. }
  destruct (each _ roots _) as [[forest seen]| |]; simpl;
    [discriminate|discriminate|congruence].
Qed.

(** *** The two cases of [render] *)

Lemma render_cycle cbp fuel node_id path seen :
  SSet.mem node_id path = true ->
  render nodes cbp (S fuel) node_id path seen =
  (do n <- lookup nodes node_id; Ok (node_dict n [] true, seen)).
Proof. intros H. simpl. rewrite H. reflexivity. Qed.

Lemma render_descend cbp fuel node_id path seen :
  SSet.mem node_id path = false ->
  render nodes cbp (S fuel) node_id path seen =
  (do kids <- Sort.sorted (node_sort_key nodes) (children_of cbp node_id);
   do n <- lookup nodes node_id;
   do (ts, seen2) <- each (fun child_id s =>
                             render nodes cbp fuel child_id
                                    (path ++ [node_id]) s)
                          kids (SSet.add node_id seen);
   Ok (node_dict n ts false, seen2)).
Proof.
  intros H. simpl. rewrite H, (add_new _ _ H). reflexivity.
Qed.

(** *** More fuel changes nothing *)

Lemma each_ext {A B S} (f g : A -> S -> result (B * S)) l :
  (forall a s, In a l -> f a s <> Fuel -> g a s = f a s) ->
  forall s, each f l s <> Fuel -> each g l s = each f l s.
Proof.
  induction l as [|a l IH]; intros H s Hf; simpl in *; [reflexivity|].
  destruct (f a s) as [[b s1]| |] eqn:Ea; simpl in *; [| |congruence].
  - rewrite (H a s (or_introl eq_refl)) by congruence. rewrite Ea. simpl.
    rewrite IH; [reflexivity | intros; apply H; auto |].
    destruct (each f l s1) as [[bs s2]| |]; simpl in *; congruence.
  - rewrite (H a s (or_introl eq_refl)) by congruence. rewrite Ea.
    reflexivity.
Qed.

Lemma render_more_fuel cbp : forall fuel node_id path seen,
  render nodes cbp fuel node_id path seen <> Fuel ->
  render nodes cbp (S fuel) node_id path seen =
  render nodes cbp fuel node_id path seen.
Proof.
  induction fuel as [|fuel IH]; intros node_id path seen H;
    [simpl in H; congruence|].
  destruct (SSet.mem node_id path) eqn:Em.
  - rewrite !render_cycle by assumption. reflexivity.
  - rewrite (render_descend cbp (S fuel)) by assumption.
    rewrite (render_descend cbp fuel) in * by assumption.
    destruct (Sort.sorted _ _) as [kids| |]; cbn [bind] in *;
      try reflexivity.
    destruct (lookup nodes node_id) as [n| |]; cbn [bind] in *;
      try reflexivity.
    rewrite (each_ext
               (fun child_id s =>
                  render nodes cbp fuel child_id (path ++ [node_id]) s)
               (fun child_id s =>
                  render nodes cbp (S fuel) child_id (path ++ [node_id]) s)).
    + reflexivity.
    + intros a s _ Ha. apply IH. exact Ha.
    + destruct (each _ kids _) as [[ts s2]| |]; cbn [bind] in *; congruence.
Qed.

Lemma render_fuel_plus cbp k : forall fuel node_id path seen,
  render nodes cbp fuel node_id path seen <> Fuel ->
  render nodes cbp (fuel + k) node_id path seen =
  render nodes cbp fuel node_id path seen.
Proof.
  induction k as [|k IH]; intros fuel node_id path seen H.
  - rewrite Nat.add_0_r. reflexivity.
  - rewrite Nat.add_succ_r, render_more_fuel; [apply IH, H|].
    rewrite IH; assumption.
Qed.

(** *** The depth of the result *)

Lemma forest_depth_le ts d :
  Forall (fun t => tree_depth t <= d) ts -> forest_depth ts <= d.
Proof.
  induction 1 as [|t ts Ht _ IH]; simpl; [lia|].
  apply Nat.max_lub; assumption.
Qed.

Lemma render_depth cbp : forall fuel node_id path seen t seen',
  render nodes cbp fuel node_id path seen = Ok (t, seen') ->
  tree_depth t <= fuel.
Proof.
  induction fuel as [|fuel IH]; intros node_id path seen t seen' H;
    [discriminate|].
  simpl in H. destruct (SSet.mem node_id path).
  - apply bind_ok in H as (n & _ & H). inversion H; subst. simpl. lia.
  - apply bind_ok in H as (kids & _ & H).
    apply bind_ok in H as (n & _ & H).
    apply bind_ok in H as ([ts s2] & He & H). inversion H; subst.
    unfold node_dict. simpl. apply le_n_S.
    apply forest_depth_le. apply each_ok in He.
    clear -He IH. induction He as [|c t kids ts (s1 & s2' & Hc) _ IHe];
      constructor; eauto.
Qed.

(** *** The children of every node are in order *)

Lemma render_key cbp fuel node_id path seen t seen' :
  render nodes cbp fuel node_id path seen = Ok (t, seen') ->
  node_sort_key nodes node_id = Ok (tree_key t).
Proof.
  destruct fuel as [|fuel]; [discriminate|]. simpl.
  destruct (SSet.mem node_id path); intros H.
  - apply bind_ok in H as (n & Hn & H). inversion H; subst.
    apply node_sort_key_ok. eauto.
  - apply bind_ok in H as (kids & _ & H).
    apply bind_ok in H as (n & Hn & H).
    apply bind_ok in H as ([ts s2] & _ & H). inversion H; subst.
    apply node_sort_key_ok. eauto.
Qed.

Lemma each_render_ordered cbp fuel path ids : forall out seen ts seen',
  Sort.sorted (node_sort_key nodes) ids = Ok out ->
  each (fun c s => render nodes cbp fuel c path s) out seen = Ok (ts, seen') ->
  ordered ts.
Proof.
  intros out seen ts seen' Hs He.
  apply sorted_ascending in Hs. apply each_ok in He.
  unfold ordered. clear seen seen'.
  revert ts He. induction Hs as [|c out Hs IH Hc]; intros ts He;
    inversion He as [|? t ? ts' (s1 & s2 & Ht) He']; subst; constructor.
  - apply IH. assumption.
  - apply render_key in Ht.
    rewrite Forall_forall in *. intros u Hu.
    destruct (forall2_in_r _ _ _ u He' Hu) as (c' & Hc' & (s3 & s4 & Hu')).
    apply render_key in Hu'.
    apply (Hc c' Hc' _ _ Ht Hu').
Qed.

Lemma render_well_ordered cbp : forall fuel node_id path seen t seen',
  render nodes cbp fuel node_id path seen = Ok (t, seen') ->
  well_ordered t.
Proof.
  induction fuel as [|fuel IH]; intros node_id path seen t seen' H;
    [discriminate|].
  simpl in H. destruct (SSet.mem node_id path).
  - apply bind_ok in H as (n & _ & H). inversion H; subst.
    constructor; constructor.
  - apply bind_ok in H as (kids & Hs & H).
    apply bind_ok in H as (n & _ & H).
    apply bind_ok in H as ([ts s2] & He & H). inversion H; subst.
    constructor.
    + eapply each_render_ordered; eauto.
    + apply each_ok in He. clear -He IH.
      induction He as [|c t kids ts (s1 & s2' & Hc) _ IHe];
        constructor; eauto.
Qed.

(** *** With valid edges the walk succeeds *)

Lemma each_all_ok {A B S} (f : A -> S -> result (B * S)) l :
  (forall a s, In a l -> exists b s', f a s = Ok (b, s')) ->
  forall s, exists bs s', each f l s = Ok (bs, s').
Proof.
  induction l as [|a l IH]; intros H s; simpl; [eauto|].
  destruct (H a s (or_introl eq_refl)) as (b & s1 & ->). simpl.
  destruct (IH (fun a' s' Ha => H a' s' (or_intror Ha)) s1)
    as (bs & s2 & ->).
  simpl. eauto.
Qed.

Lemma sorted_known ids :
  incl ids (Dict.keys nodes) ->
  exists out, Sort.sorted (node_sort_key nodes) ids = Ok out /\
              Permutation out ids.
Proof.
  intros Hi.
  destruct (sorted_total _ (node_sort_key nodes) ids) as [out Ho].
  - intros a Ha. apply Hi, lookup_keys in Ha as [n Hn].
    exists (key_of n). apply node_sort_key_ok. eauto.
  - exists out. split; [assumption|]. eapply sorted_perm; eauto.
Qed.

Lemma render_ok cbp :
  (forall p c, In c (children_of cbp p) -> In c (Dict.keys nodes)) ->
  forall fuel node_id path seen,
  In node_id (Dict.keys nodes) ->
  NoDup path -> incl path (Dict.keys nodes) ->
  length nodes < fuel + length path ->
  exists t seen', render nodes cbp fuel node_id path seen = Ok (t, seen').
Proof.
  intros Hc. induction fuel as [|fuel IH];
    intros node_id path seen Hk Hn Hi Hf.
  - pose proof (path_bound path Hn Hi). simpl in Hf. lia.
  - apply lookup_keys in Hk as [n Hl].
    destruct (SSet.mem node_id path) eqn:Em.
    + rewrite render_cycle, Hl by assumption. simpl. eauto.
    + rewrite render_descend by assumption.
      destruct (sorted_known (children_of cbp node_id))
        as (kids & -> & Hp); [intros c; apply Hc|].
      rewrite Hl. cbn [bind].
      destruct (each_all_ok
                  (fun child_id s =>
                     render nodes cbp fuel child_id (path ++ [node_id]) s)
                  kids) with (s := SSet.add node_id seen)
        as (ts & s2 & ->); [|simpl; eauto].
      intros c s Hin. apply IH.
      * eapply Hc, Permutation_in; eauto.
      * rewrite <- (add_new _ _ Em). apply add_NoDup. assumption.
      * intros y Hy. apply in_app_or in Hy as [Hy | [<- | []]]; [auto|].
        apply lookup_keys. eauto.
      * rewrite length_app. simpl. lia.
Qed.

(** Whatever bounds its depth, the walk over known children raises no
    exception of its own: it reaches the bound or returns. *)
Lemma render_no_raise cbp :
  (forall p c, In c (children_of cbp p) -> In c (Dict.keys nodes)) ->
  forall fuel node_id path seen e,
  In node_id (Dict.keys nodes) ->
  render nodes cbp fuel node_id path seen <> Raise e.
Proof.
  intros Hc. induction fuel as [|fuel IH]; intros node_id path seen e Hk;
    [discriminate|].
  apply lookup_keys in Hk as [n Hl].
  destruct (SSet.mem node_id path) eqn:Em.
  - rewrite render_cycle, Hl by assumption. discriminate.
  - rewrite render_descend by assumption.
    destruct (sorted_known (children_of cbp node_id))
      as (kids & -> & Hp); [intros c; apply Hc|].
    rewrite Hl. cbn [bind].
    destruct (each _ kids _) as [[ts s2]| e'|] eqn:He; simpl;
      [discriminate| |discriminate].
    apply each_raises in He as (c & s1 & Hin & Hr).
    exfalso. eapply IH; [|exact Hr].
    eapply Hc, Permutation_in; eauto.
Qed.

Lemma render_bounded cbp fuel node_id path seen :
  (forall p c, In c (children_of cbp p) -> In c (Dict.keys nodes)) ->
  In node_id (Dict.keys nodes) ->
  render nodes cbp fuel node_id path seen = Fuel \/
  exists t seen', render nodes cbp fuel node_id path seen = Ok (t, seen').
Proof.
  intros Hc Hk.
  pose proof (fun e => render_no_raise cbp Hc fuel node_id path seen e Hk)
    as H.
  destruct (render nodes cbp fuel node_id path seen) as [[t s']| e|];
    [right; eauto | exfalso; eapply H; reflexivity | left; reflexivity].
Qed.

(** *** What the walk has seen *)

Lemma each_seen {A B} (f : A -> list pystr -> result (B * list pystr)) l
                (P : list pystr -> list pystr -> Prop) :
  (forall s, P s s) ->
  (forall s1 s2 s3, P s1 s2 -> P s2 s3 -> P s1 s3) ->
  (forall a s b s', In a l -> f a s = Ok (b, s') -> P s s') ->
  forall s bs s', each f l s = Ok (bs, s') -> P s s'.
Proof.
  intros Hr Ht. induction l as [|a l IH]; intros Hf s bs s' H; simpl in H.
  - inversion H; subst. apply Hr.
  - apply bind_ok in H as ([b s1] & Hb & H).
    apply bind_ok in H as ([bs' s2] & Hbs & H). inversion H; subst.
    eapply Ht; [eapply Hf; [left; reflexivity | exact Hb]|].
    eapply IH; [|exact Hbs]. intros; eapply Hf; [right|]; eauto.
Qed.

Local Abbreviation grows := (seen_grows nodes).

Lemma grows_refl s : grows s s.
Proof. repeat split; auto using incl_refl. Qed.

Lemma grows_trans s1 s2 s3 : grows s1 s2 -> grows s2 s3 -> grows s1 s3.
Proof.
  intros (I1 & K1 & N1) (I2 & K2 & N2). repeat split.
  - eapply incl_tran; eauto.
  - intros x Hx. destruct (K2 x Hx) as [H | H]; auto.
  - auto.
Qed.

Lemma render_grows cbp : forall fuel node_id path seen t seen',
  render nodes cbp fuel node_id path seen = Ok (t, seen') ->
  grows seen seen' /\ (SSet.mem node_id path = false -> In node_id seen').
Proof.
  induction fuel as [|fuel IH]; intros node_id path seen t seen' H;
    [discriminate|].
  destruct (SSet.mem node_id path) eqn:Em.
  - rewrite render_cycle in H by assumption.
    apply bind_ok in H as (n & _ & H). inversion H; subst.
    split; [apply grows_refl | discriminate].
  - rewrite render_descend in H by assumption.
    apply bind_ok in H as (kids & _ & H).
    apply bind_ok in H as (n & Hn & H).
    apply bind_ok in H as ([ts s2] & He & H). inversion H; subst.
    assert (grows (SSet.add node_id seen) seen') as G.
    { eapply (each_seen _ kids grows grows_refl grows_trans); [|exact He].
      intros c s b s' _ Hc. apply IH in Hc as [Gc _]. exact Gc. }
    assert (grows seen (SSet.add node_id seen)) as G0.
    { repeat split.
      - apply add_incl.
      - intros x Hx. apply add_In in Hx as [-> | Hx]; [right|left; auto].
        apply lookup_keys. eauto.
      - apply add_NoDup. }
    split; [eapply grows_trans; eauto|].
    intros _. destruct G as (I & _). apply I, add_In. auto.
Qed.

Lemma roots_seen cbp fuel roots : forall seen ts seen',
  each (fun r s => render nodes cbp fuel r [] s) roots seen = Ok (ts, seen') ->
  grows seen seen' /\ incl roots seen'.
Proof.
  induction roots as [|r roots IH]; intros seen ts seen' H; simpl in H.
  - inversion H; subst. split; [apply grows_refl | intros x []].
  - apply bind_ok in H as ([t s1] & Hr & H).
    apply bind_ok in H as ([ts' s2] & Hrs & H). inversion H; subst.
    apply render_grows in Hr as [G1 Hin]. apply IH in Hrs as [G2 Hi].
    split; [eapply grows_trans; eauto|].
    intros x [<- | Hx]; [|auto].
    destruct G2 as (I2 & _). apply I2, Hin. reflexivity.
Qed.

(** *** The links of the result are edges *)

Lemma tree_links_unfold i l f n y kids c e :
  In e (tree_links (TNode i l f n y kids c)) <->
  (exists k, In k kids /\ e = (t_id k, i)) \/
  (exists k, In k kids /\ In e (tree_links k)).
Proof.
  simpl. rewrite in_app_iff, in_map_iff.
  assert (forall ts,
            In e ((fix go (l0 : list tree) : list (pystr * pystr) :=
                     match l0 with
                     | [] => []
                     | k :: l' => tree_links k ++ go l'
                     end) ts) <->
            exists k, In k ts /\ In e (tree_links k)) as Hgo.
  { induction ts as [|k ts IH]; simpl.
    - split; [intros [] | intros (k & [] & _)].
    - rewrite in_app_iff, IH. split.
      + intros [H | (k' & Hk & H)]; eauto.
      + intros (k' & [<- | Hk] & H); eauto. }
  rewrite Hgo. split.
  - intros [(k & E & Hk) | H]; [left; eauto | right; exact H].
  - intros [(k & Hk & E) | H]; [left; eauto | right; exact H].
Qed.

Lemma render_links cbp edges :
  (forall k n, lookup nodes k = Ok n -> id n = k) ->
  (forall c p, In c (children_of cbp p) -> In (c, p) edges) ->
  forall fuel node_id path seen t seen',
  render nodes cbp fuel node_id path seen = Ok (t, seen') ->
  t_id t = node_id /\ incl (tree_links t) edges.
Proof.
  intros Hid Hc. induction fuel as [|fuel IH];
    intros node_id path seen t seen' H; [discriminate|].
  destruct (SSet.mem node_id path) eqn:Em.
  - rewrite render_cycle in H by assumption.
    apply bind_ok in H as (n & Hn & H). inversion H; subst.
    split; [apply Hid; assumption | intros e []].
  - rewrite render_descend in H by assumption.
    apply bind_ok in H as (kids & Hs & H).
    apply bind_ok in H as (n & Hn & H).
    apply bind_ok in H as ([ts s2] & He & H). inversion H; subst.
    pose proof (Hid _ _ Hn) as Ei. split; [exact Ei|].
    apply each_ok in He. apply sorted_perm in Hs.
    intros e He'. unfold node_dict in He'.
    apply tree_links_unfold in He' as [(k & Hk & ->) | (k & Hk & He')].
    + destruct (forall2_in_r _ _ _ k He Hk) as (c & Hin & s1 & s3 & Hr).
      apply IH in Hr as [<- _]. rewrite Ei.
      apply Hc. eapply Permutation_in; eauto.
    + destruct (forall2_in_r _ _ _ k He Hk) as (c & Hin & s1 & s3 & Hr).
      apply IH in Hr as [_ Hl]. apply Hl. exact He'.
Qed.

End WithNodes.

(** *** The index of the edges *)

Section Index.
Context {rt : PyRuntime}.

Lemma cbp_add_get d p c p' :
  cbp_get (cbp_add d p c) p' =
  if Str.eqb p' p then SSet.add c (cbp_get d p) else cbp_get d p'.
Proof.
  unfold cbp_get. induction d as [|[p0 cs] d IH]; simpl.
  - destruct (Str.eqb p' p); reflexivity.
  - destruct (Str.eqb p p0) eqn:E; simpl.
    + apply eqb_eq in E. subst. destruct (Str.eqb p' p0); reflexivity.
    + destruct (Str.eqb p' p0) eqn:E'; [|exact IH].
      apply eqb_eq in E'. subst.
      destruct (Str.eqb p0 p) eqn:E''; [|reflexivity].
      apply eqb_eq in E''. subst. rewrite eqb_refl in E. discriminate.
Qed.

Lemma count_incr_get d c c' :
  count_of (count_incr d c) c' =
  if Str.eqb c' c then S (count_of d c) else count_of d c'.
Proof.
  unfold count_of. induction d as [|[c0 n] d IH]; simpl.
  - destruct (Str.eqb c' c); reflexivity.
  - destruct (Str.eqb c c0) eqn:E; simpl.
    + apply eqb_eq in E. subst. destruct (Str.eqb c' c0); reflexivity.
    + destruct (Str.eqb c' c0) eqn:E'; [|exact IH].
      apply eqb_eq in E'. subst.
      destruct (Str.eqb c0 c) eqn:E''; [|reflexivity].
      apply eqb_eq in E''. subst. rewrite eqb_refl in E. discriminate.
Qed.

Lemma index_edges_fold edges :
  index_edges edges = fold_left index_step edges ([], []).
Proof. reflexivity. Qed.

Lemma fold_children edges : forall st c p,
  In c (cbp_get (fst (fold_left index_step edges st)) p) <->
  In c (cbp_get (fst st) p) \/ In (c, p) edges.
Proof.
  induction edges as [|[c0 p0] edges IH]; intros st c p; simpl.
  - tauto.
  - rewrite IH. simpl. rewrite cbp_add_get.
    destruct (Str.eqb p p0) eqn:E.
    + apply eqb_eq in E. subst. rewrite add_In. split.
      * intros [[-> | H] | H]; auto.
      * intros [H | [H | H]]; auto. inversion H; auto.
    + apply eqb_neq in E. split.
      * intros [H | H]; auto.
      * intros [H | [H | H]]; auto. inversion H; subst. congruence.
Qed.

Lemma fold_count edges : forall st c,
  count_of (snd (fold_left index_step edges st)) c = 0 <->
  count_of (snd st) c = 0 /\ forall p, ~ In (c, p) edges.
Proof.
  induction edges as [|[c0 p0] edges IH]; intros st c; simpl.
  - tauto.
  - rewrite IH. simpl. rewrite count_incr_get.
    destruct (Str.eqb c c0) eqn:E.
    + apply eqb_eq in E. subst. split.
      * intros [H _]. discriminate.
      * intros [_ H]. exfalso. apply (H p0). auto.
    + apply eqb_neq in E. split.
      * intros [H1 H2]. split; [assumption|].
        intros p [H | H]; [inversion H; subst; congruence | eapply H2; eauto].
      * intros [H1 H2]. split; [assumption|]. intros p H. apply (H2 p). auto.
Qed.

(** The children handed out for [p] are the children of [p] in the edge
    list. *)
Lemma children_of_edges edges c p :
  In c (children_of (fst (index_edges edges)) p) <-> In (c, p) edges.
Proof.
  rewrite index_edges_fold. unfold children_of.
  pose proof (fold_children edges ([], []) c p) as H.
  unfold cbp_get in H.
  destruct (Dict.get (fst (fold_left index_step edges ([], []))) p) as [cs|].
  - simpl in H. split.
    + intros Hc. apply (Permutation_in _ (set_iter_perm cs)) in Hc.
      apply H in Hc as [[] | Hc]. exact Hc.
    + intros Hc. apply (Permutation_in _ (Permutation_sym (set_iter_perm cs))).
      apply H. auto.
  - simpl in H. split; [intros [] | intros Hc; apply H; auto].
Qed.

(** A node has no incoming edge exactly when its count is zero. *)
Lemma count_zero edges c :
  count_of (snd (index_edges edges)) c = 0 <-> forall p, ~ In (c, p) edges.
Proof.
  rewrite index_edges_fold, fold_count. simpl. tauto.
Qed.

End Index.

(** *** The forest as a whole *)

Section Forest.
Context {rt : PyRuntime}.
Variable nodes : list (pystr * NodeBase).

Lemma choose_roots_inv pc roots :
  choose_roots nodes pc = Ok roots ->
  let zero := filter (fun node_id => Nat.eqb (count_of pc node_id) 0)
                     (Dict.keys nodes) in
  (zero <> [] /\ Sort.sorted (node_sort_key nodes) zero = Ok roots) \/
  (zero = [] /\ Sort.sorted (node_sort_key nodes) (Dict.keys nodes) = Ok roots).
Proof.
  unfold choose_roots. intros H. cbv zeta.
  apply bind_ok in H as (r0 & Hs & H).
  destruct r0 as [|r rs].
  - right. split; [|assumption].
    apply sorted_perm, Permutation_nil in Hs. exact Hs.
  - left. inversion H; subst. split; [|assumption].
    intros E. rewrite E in Hs. discriminate Hs.
Qed.

Lemma choose_roots_known pc roots :
  choose_roots nodes pc = Ok roots -> incl roots (Dict.keys nodes).
Proof.
  intros H. apply choose_roots_inv in H as [[_ H] | [_ H]];
    apply sorted_perm in H; intros x Hx;
    apply (Permutation_in _ H) in Hx; [|assumption].
  apply filter_In in Hx as [Hx _]. exact Hx.
Qed.

Lemma choose_roots_ok pc : exists roots, choose_roots nodes pc = Ok roots.
Proof.
  unfold choose_roots.
  destruct (sorted_known nodes
              (filter (fun node_id => Nat.eqb (count_of pc node_id) 0)
                      (Dict.keys nodes))) as (r0 & -> & _).
  { intros x Hx. apply filter_In in Hx as [Hx _]. exact Hx. }
  simpl. destruct r0; [|eauto].
  destruct (sorted_known nodes (Dict.keys nodes) (incl_refl _))
    as (r1 & -> & _). eauto.
Qed.

Lemma build_forest_inv edges forest seen n :
  build_forest nodes edges = Ok (forest, seen, n) ->
  exists roots,
    choose_roots nodes (snd (index_edges edges)) = Ok roots /\
    each (fun root_id s =>
            render nodes (fst (index_edges edges)) (render_fuel nodes)
                   root_id [] s) roots [] = Ok (forest, seen) /\
    n = length (distinct_edges edges).
Proof.
  unfold build_forest. destruct (index_edges edges) as [cbp pc]. intros H.
  apply bind_ok in H as (roots & Hr & H).
  apply bind_ok in H as ([f s] & He & H). inversion H; subst.
  exists roots. auto.
Qed.

Lemma build_forest_ok edges :
  valid_edges nodes edges ->
  exists forest seen,
    build_forest nodes edges
    = Ok (forest, seen, length (distinct_edges edges)).
Proof.
  intros Hv. unfold build_forest.
  pose proof (fun c p => children_of_edges edges c p) as Hc.
  destruct (index_edges edges) as [cbp pc]. simpl in Hc.
  destruct (choose_roots_ok pc) as [roots Hr]. rewrite Hr. cbn [bind].
  destruct (each_all_ok
              (fun root_id s =>
                 render nodes cbp (render_fuel nodes) root_id [] s) roots)
    with (s := @nil pystr) as (forest & seen & ->); [|simpl; eauto].
  intros r s Hin. apply render_ok.
  - intros p c H. apply Hc in H. apply (Hv c p H).
  - eapply choose_roots_known; eauto.
  - constructor.
  - intros x [].
  - unfold render_fuel. simpl. lia.
Qed.

Lemma build_forest_links edges forest seen n :
  (forall k nd, lookup nodes k = Ok nd -> id nd = k) ->
  build_forest nodes edges = Ok (forest, seen, n) ->
  forall t, In t forest -> incl (tree_links t) edges.
Proof.
  intros Hid H t Ht. apply build_forest_inv in H as (roots & _ & He & _).
  apply each_ok in He.
  destruct (forall2_in_r _ _ _ t He Ht) as (r & _ & s1 & s2 & Hr).
  eapply (render_links nodes _ edges Hid) in Hr; [apply Hr|].
  intros c p Hc. apply children_of_edges. exact Hc.
Qed.

Lemma edge_eqb_eq e1 e2 : edge_eqb e1 e2 = true <-> e1 = e2.
Proof.
  destruct e1 as [c1 p1], e2 as [c2 p2]. unfold edge_eqb. simpl.
  rewrite andb_true_iff, !eqb_eq. split; [intros [-> ->] | intros H];
    [reflexivity | inversion H; auto].
Qed.

(** [set(edges)] holds every edge once. *)
Lemma distinct_edges_spec l :
  NoDup (distinct_edges l) /\
  forall e, In e (distinct_edges l) <-> In e l.
Proof.
  induction l as [|e l [IHn IHi]]; simpl; [split; [constructor | tauto]|].
  destruct (existsb (edge_eqb e) l) eqn:E.
  - split; [assumption|]. intros e'. rewrite IHi. split; [auto|].
    intros [<- | H]; [|assumption].
    apply existsb_exists in E as (x & Hx & Ex).
    apply edge_eqb_eq in Ex. subst. assumption.
  - split.
    + constructor; [|assumption]. rewrite IHi. intros H.
      assert (existsb (edge_eqb e) l = true) as C.
      { apply existsb_exists. exists e.
        split; [assumption | apply edge_eqb_eq; reflexivity]. }
      congruence.
    + intros e'. simpl. rewrite IHi. tauto.
Qed.

(** C10: the depth-first walk terminates on every node mapping and every
    edge list, cyclic or not.  The walk never exhausts its fuel and more
    fuel changes nothing; a call on a node of the current path returns at
    once with the cycle leaf; any other call passes to its children the
    path extended by its own node, which was not on it; a path of distinct
    known nodes is no longer than the node mapping, so no rendered tree is
    deeper than the number of nodes plus the cycle leaf; and with valid
    edges a call on a known node raises no exception of its own: whatever
    bounds the depth of the recursion, as the recursion limit of the
    interpreter does, the call ends by reaching that bound or by returning
    a tree. *)
Theorem render_terminates :
  (forall edges, build_forest nodes edges <> Fuel) /\
  (forall cbp fuel node_id path seen,
     NoDup path -> incl path (Dict.keys nodes) ->
     length nodes < fuel + length path ->
     render nodes cbp fuel node_id path seen <> Fuel /\
     forall k, render nodes cbp (fuel + k) node_id path seen
               = render nodes cbp fuel node_id path seen) /\
  (forall cbp fuel node_id path seen,
     SSet.mem node_id path = true ->
     render nodes cbp (S fuel) node_id path seen
     = (do n <- lookup nodes node_id; Ok (node_dict n [] true, seen))) /\
  (forall cbp fuel node_id path seen,
     SSet.mem node_id path = false ->
     ~ In node_id path /\
     length (path ++ [node_id]) = S (length path) /\
     render nodes cbp (S fuel) node_id path seen
     = (do kids <- Sort.sorted (node_sort_key nodes)
                     (children_of cbp node_id);
        do n <- lookup nodes node_id;
        do (ts, seen2) <- each (fun child_id s =>
                                  render nodes cbp fuel child_id
                                         (path ++ [node_id]) s)
                               kids (SSet.add node_id seen);
        Ok (node_dict n ts false, seen2))) /\
  (forall path node_id n,
     NoDup path -> incl path (Dict.keys nodes) ->
     ~ In node_id path -> lookup nodes node_id = Ok n ->
     NoDup (path ++ [node_id]) /\
     incl (path ++ [node_id]) (Dict.keys nodes) /\
     length (path ++ [node_id]) <= length nodes) /\
  (forall edges forest seen n,
     build_forest nodes edges = Ok (forest, seen, n) ->
     Forall (fun t => tree_depth t <= S (length nodes)) forest) /\
  (forall edges fuel node_id path seen,
     valid_edges nodes edges -> In node_id (Dict.keys nodes) ->
     render nodes (fst (index_edges edges)) fuel node_id path seen = Fuel \/
     exists t seen',
       render nodes (fst (index_edges edges)) fuel node_id path seen
       = Ok (t, seen')).
Proof.
  split; [apply build_forest_no_fuel|].
  split.
  { intros cbp fuel node_id path seen Hn Hi Hf.
    pose proof (render_fuel_enough nodes cbp fuel node_id path seen Hn Hi Hf).
    split; [assumption|]. intros k. apply render_fuel_plus. assumption. }
  split; [intros; apply render_cycle; assumption|].
  split.
  { intros cbp fuel node_id path seen Em.
    split; [apply mem_false; assumption|].
    split; [rewrite length_app; simpl; lia|].
    apply render_descend. assumption. }
  split.
  { intros path node_id n Hn Hi Hnot Hl.
    assert (NoDup (path ++ [node_id])) as Hn'.
    { apply mem_false in Hnot. rewrite <- (add_new _ _ Hnot).
      apply add_NoDup. assumption. }
    assert (incl (path ++ [node_id]) (Dict.keys nodes)) as Hi'.
    { intros y Hy. apply in_app_or in Hy as [Hy | [<- | []]]; [auto|].
      apply lookup_keys. eauto. }
    split; [assumption|]. split; [assumption|].
    apply path_bound; assumption. }
  split.
  { intros edges forest seen n H.
    apply build_forest_inv in H as (roots & _ & He & _).
    apply each_ok in He. clear -He.
    induction He as [|r t roots ts (s1 & s2 & Hr) _ IH]; constructor; auto.
    eapply render_depth; eauto. }
  intros edges fuel node_id path seen Hv Hk.
  apply render_bounded; [|exact Hk].
  intros p c H. apply children_of_edges in H. apply (Hv c p H).
Qed.

(** *** The order of siblings and roots *)

Lemma precedes3 {A} (a b x y z : A) :
  precedes a b [x; y; z] ->
  (a = x /\ b = y) \/ (a = x /\ b = z) \/ (a = y /\ b = z).
Proof.
  intros (l1 & l2 & l3 & E).
  destruct l1 as [|u1 l1]; simpl in E; injection E as Ex E1.
  - destruct l2 as [|v1 l2]; simpl in E1; injection E1 as Ey E2.
    + left. auto.
    + destruct l2 as [|v2 l2]; simpl in E2; [injection E2 as Ez E3|].
      * right; left; auto.
      * injection E2 as Ez E3. destruct l2; discriminate E3.
  - destruct l1 as [|u2 l1]; simpl in E1; injection E1 as Ey E2.
    + destruct l2 as [|v1 l2]; simpl in E2; injection E2 as Ez E3.
      * right; right; auto.
      * destruct l2; discriminate E3.
    + destruct l1 as [|u3 l1]; simpl in E2; injection E2 as Ez E3.
      * destruct l2; discriminate E3.
      * destruct l1; discriminate E3.
Qed.

Lemma three_in_order {A} (a b c : A) out :
  Permutation out [a; b; c] -> NoDup [a; b; c] ->
  precedes a b out -> precedes b c out -> out = [a; b; c].
Proof.
  intros P N Hab Hbc.
  pose proof (Permutation_length P) as L.
  pose proof (Permutation_NoDup (Permutation_sym P) N) as N'.
  destruct out as [|x [|y [|z [|w out]]]]; try discriminate L.
  apply precedes3 in Hab, Hbc.
  inversion N as [|? ? Na N1]; inversion N1 as [|? ? Nb N2]; subst.
  inversion N' as [|? ? Nx N1']; inversion N1' as [|? ? Ny _]; subst.
  simpl in Na, Nb, Nx, Ny.
  destruct Hab as [[-> ->] | [[-> ->] | [-> ->]]];
    destruct Hbc as [[E1 E2] | [[E1 E2] | [E1 E2]]]; subst;
    try reflexivity; exfalso; tauto.
Qed.

Lemma key_lt_tuple t1 l1 f1 t2 l2 f2 :
  Sort.tuple_compare t1 t2 = Lt ->
  Sort.key_lt (t1, l1, f1) (t2, l2, f2) = true.
Proof. unfold Sort.key_lt, Sort.key_compare. intros ->. reflexivity. Qed.

Lemma no_level_sentinel n :
  no_level n -> level_to_tuple (level_number n) = SENTINEL.
Proof.
  unfold level_to_tuple. intros [-> | [-> | (l & -> & H)]]; try reflexivity.
  destruct l; [reflexivity|]. rewrite H. reflexivity.
Qed.

Lemma below_sentinel z t :
  (z < 10 ^ 9)%Z -> Sort.tuple_compare (z :: t) SENTINEL = Lt.
Proof.
  intros H. unfold Sort.tuple_compare, SENTINEL. cbn [list_compare].
  apply Z.compare_lt_iff in H. rewrite H. reflexivity.
Qed.

Lemma build_forest_ordered edges forest seen n :
  build_forest nodes edges = Ok (forest, seen, n) ->
  ordered forest /\ Forall well_ordered forest.
Proof.
  intros H. apply build_forest_inv in H as (roots & Hr & He & _). split.
  - apply choose_roots_inv in Hr as [[_ Hs] | [_ Hs]];
      eapply each_render_ordered; eauto.
  - apply each_ok in He. clear -He.
    induction He as [|r t roots ts (s1 & s2 & Ht) _ IH]; constructor; auto.
    eapply render_well_ordered; eauto.
Qed.

(** C4, as the code has it: roots and siblings are sorted, at every level,
    by the key (level number as a tuple of integers, lowered label, lowered
    raw fragment); tuples are compared as numbers, so the level decides
    before any label does and 2 comes before 10; a node without a level
    (absent, empty, or with a segment that is no integer) gets the tuple
    (10^9,) and so comes after every node whose level starts with a segment
    below 10^9; siblings with levels 2, 10 and none come out in this order
    whatever their labels are. *)
Theorem sibling_order :
  (forall edges forest seen n,
     build_forest nodes edges = Ok (forest, seen, n) ->
     ordered forest /\ Forall well_ordered forest) /\
  (forall k n,
     lookup nodes k = Ok n ->
     node_sort_key nodes k
     = Ok (level_to_tuple (level_number n), Str.lower (label n),
           Str.lower (raw_fragment n))) /\
  (forall ids out,
     Sort.sorted (node_sort_key nodes) ids = Ok out ->
     Permutation out ids /\
     forall x y nx ny,
       In x ids -> In y ids ->
       lookup nodes x = Ok nx -> lookup nodes y = Ok ny ->
       (Sort.tuple_compare (level_to_tuple (level_number nx))
                           (level_to_tuple (level_number ny)) = Lt ->
        precedes x y out) /\
       (forall z t, level_to_tuple (level_number nx) = z :: t ->
                    (z < 10 ^ 9)%Z -> no_level ny -> precedes x y out)) /\
  (level_to_tuple (Some (Str.lit "2")) = [2%Z] /\
   level_to_tuple (Some (Str.lit "10")) = [10%Z] /\
   level_to_tuple (Some (Str.lit "5.1.2")) = [5%Z; 1%Z; 2%Z] /\
   Sort.tuple_compare [2%Z] [10%Z] = Lt /\
   Str.compare (Str.lit "10") (Str.lit "2") = Lt) /\
  (forall a b c na nb nc ids,
     lookup nodes a = Ok na -> lookup nodes b = Ok nb ->
     lookup nodes c = Ok nc ->
     level_number na = Some (Str.lit "2") ->
     level_number nb = Some (Str.lit "10") ->
     level_number nc = None ->
     NoDup [a; b; c] -> Permutation ids [a; b; c] ->
     Sort.sorted (node_sort_key nodes) ids = Ok [a; b; c]).
Proof.
  assert (forall ids out x y nx ny,
            Sort.sorted (node_sort_key nodes) ids = Ok out ->
            In x ids -> In y ids ->
            lookup nodes x = Ok nx -> lookup nodes y = Ok ny ->
            Sort.tuple_compare (level_to_tuple (level_number nx))
                               (level_to_tuple (level_number ny)) = Lt ->
            precedes x y out) as Hlevel.
  { intros ids out x y nx ny Hs Hx Hy Lx Ly Hlt.
    eapply (sorted_precedes _ (node_sort_key nodes)); eauto.
    - apply node_sort_key_ok. eauto.
    - apply node_sort_key_ok. eauto.
    - apply key_lt_tuple. assumption. }
  split; [apply build_forest_ordered|].
  split; [intros k n H; apply node_sort_key_ok; eauto|].
  split.
  { intros ids out Hs. split; [eapply sorted_perm; eauto|].
    intros x y nx ny Hx Hy Lx Ly. split; [eauto|].
    intros z t Ez Hz Hno. eapply Hlevel; eauto.
    rewrite Ez, (no_level_sentinel ny Hno). apply below_sentinel, Hz. }
  split; [repeat split; vm_compute; reflexivity|].
  intros a b c na nb nc ids La Lb Lc Ea Eb Ec N P.
  destruct (sorted_known nodes ids) as (out & Hs & Po).
  { intros x Hx. apply (Permutation_in _ P) in Hx.
    apply lookup_keys. destruct Hx as [<- | [<- | [<- | []]]]; eauto. }
  rewrite Hs. f_equal. apply three_in_order; auto.
  - rewrite Po. exact P.
  - eapply Hlevel; eauto.
    + apply (Permutation_in _ (Permutation_sym P)). simpl. auto.
    + apply (Permutation_in _ (Permutation_sym P)). simpl. auto.
    + rewrite Ea, Eb. vm_compute. reflexivity.
  - eapply Hlevel; eauto.
    + apply (Permutation_in _ (Permutation_sym P)). simpl. auto.
    + apply (Permutation_in _ (Permutation_sym P)). simpl. auto.
    + rewrite Eb, Ec. vm_compute. reflexivity.
Qed.

End Forest.
End ForestFacts.

(** ** The pure 3-cycle *)

Module CycleFacts.
Import StrFacts DictFacts SSetFacts ResultFacts SortFacts ForestFacts.

Section ThreeCycle.
Context {rt : PyRuntime}.

Lemma set_iter_single x : set_iter [x] = [x].
Proof. apply Permutation_length_1_inv, Permutation_sym, set_iter_perm. Qed.

Lemma sorted_single {A} (keyf : A -> result Sort.key) x k :
  keyf x = Ok k -> Sort.sorted keyf [x] = Ok [x].
Proof. intros H. unfold Sort.sorted. simpl. rewrite H. reflexivity. Qed.

Lemma each_map {A B S} (f : A -> S -> result (B * S)) (g : A -> B) l :
  (forall a s, In a l -> exists s', f a s = Ok (g a, s')) ->
  forall s, exists s', each f l s = Ok (map g l, s').
Proof.
  induction l as [|a l IH]; intros H s; simpl; [eauto|].
  destruct (H a s (or_introl eq_refl)) as (s1 & ->). simpl.
  destruct (IH (fun a' s' Ha => H a' s' (or_intror Ha)) s1) as (s2 & ->).
  simpl. eauto.
Qed.

Variables (a b c : pystr) (na nb nc : NodeBase).
Hypotheses (Hab : a <> b) (Hbc : b <> c) (Hac : a <> c).

Local Abbreviation nodes3 := (cycle3_nodes a b c na nb nc).
Local Abbreviation edges3 := (cycle3_edges a b c).
Local Abbreviation cbp3 := (cycle3_children a b c).
Local Abbreviation tree_of := (cycle3_tree a b na nb nc).

Lemma index3 :
  index_edges edges3 = ([(b, [a]); (c, [b]); (a, [c])], [(a, 1); (b, 1); (c, 1)]).
Proof.
  assert (Str.eqb c b = false) as E1 by (apply eqb_neq; congruence).
  assert (Str.eqb a b = false) as E2 by (apply eqb_neq; congruence).
  assert (Str.eqb a c = false) as E3 by (apply eqb_neq; congruence).
  assert (Str.eqb b a = false) as E4 by (apply eqb_neq; congruence).
  assert (Str.eqb c a = false) as E5 by (apply eqb_neq; congruence).
  unfold index_edges, cycle3_edges.
  repeat (progress (simpl; rewrite ?E1, ?E2, ?E3, ?E4, ?E5)). reflexivity.
Qed.

Lemma eqb3 :
  Str.eqb a b = false /\ Str.eqb b a = false /\ Str.eqb a c = false /\
  Str.eqb c a = false /\ Str.eqb b c = false /\ Str.eqb c b = false.
Proof. repeat split; apply eqb_neq; congruence. Qed.

Lemma lookup3 :
  lookup nodes3 a = Ok na /\ lookup nodes3 b = Ok nb /\
  lookup nodes3 c = Ok nc.
Proof.
  destruct eqb3 as (E1 & E2 & E3 & E4 & E5 & E6).
  unfold lookup, cycle3_nodes. simpl.
  rewrite !eqb_refl, E2, E4, E6. repeat split; reflexivity.
Qed.

Lemma children3 :
  children_of cbp3 a = [c] /\ children_of cbp3 b = [a] /\
  children_of cbp3 c = [b].
Proof.
  destruct eqb3 as (E1 & E2 & E3 & E4 & E5 & E6).
  unfold children_of, cycle3_children. simpl.
  rewrite !eqb_refl, E1, E3, E6, !set_iter_single. repeat split; reflexivity.
Qed.

Lemma sorted3 x :
  In x [a; b; c] -> Sort.sorted (node_sort_key nodes3) [x] = Ok [x].
Proof.
  destruct lookup3 as (La & Lb & Lc).
  intros [<- | [<- | [<- | []]]];
    eapply sorted_single; apply node_sort_key_ok; eauto.
Qed.

Ltac walk3 :=
  destruct eqb3 as (E1 & E2 & E3 & E4 & E5 & E6);
  destruct lookup3 as (La & Lb & Lc);
  destruct children3 as (Ca & Cb & Cc);
  pose proof (sorted3 a) as Sa; pose proof (sorted3 b) as Sb;
  pose proof (sorted3 c) as Sc;
  eexists;
  repeat (progress (simpl; unfold SSet.add, SSet.mem;
    rewrite ?eqb_refl, ?E1, ?E2, ?E3, ?E4, ?E5, ?E6, ?La, ?Lb, ?Lc,
            ?Ca, ?Cb, ?Cc, ?Sa, ?Sb, ?Sc by (simpl; auto)));
  reflexivity.

Lemma render3_a seen :
  exists seen', render nodes3 cbp3 4 a [] seen = Ok (chain na nc nb, seen').
Proof. walk3. Qed.

Lemma render3_b seen :
  exists seen', render nodes3 cbp3 4 b [] seen = Ok (chain nb na nc, seen').
Proof. walk3. Qed.

Lemma render3_c seen :
  exists seen', render nodes3 cbp3 4 c [] seen = Ok (chain nc nb na, seen').
Proof. walk3. Qed.

Lemma roots3 :
  exists roots, choose_roots nodes3 [(a, 1); (b, 1); (c, 1)] = Ok roots /\
                Permutation roots [a; b; c].
Proof.
  destruct eqb3 as (E1 & E2 & E3 & E4 & E5 & E6).
  unfold choose_roots, count_of, cycle3_nodes. simpl.
  rewrite !eqb_refl, E2, E4, E6. simpl.
  change (Sort.sorted (node_sort_key [(a, na); (b, nb); (c, nc)]) [])
    with (@Ok (list pystr) []). cbn [bind].
  apply (sorted_known nodes3 [a; b; c]). apply incl_refl.
Qed.

Lemma distinct3 : length (distinct_edges edges3) = 3.
Proof.
  destruct eqb3 as (E1 & E2 & E3 & E4 & E5 & E6).
  unfold cycle3_edges. simpl. unfold edge_eqb. simpl.
  rewrite ?E1, ?E2, ?E3, ?E4, ?E5, ?E6. reflexivity.
Qed.

(** C2: on the pure 3-cycle A -> B -> C -> A (three distinct identities,
    any node records) the builder terminates with a result; no node has
    zero incoming edges, so all three nodes become roots; the forest
    consists of the three trees that walk the cycle once from each node
    and end in a leaf flagged as cycle, without children; each of the
    three nodes is a root of the output and is in the seen set, once. *)
Theorem three_cycle :
  (forall k, In k (Dict.keys nodes3) ->
             count_of (snd (index_edges edges3)) k <> 0) /\
  exists roots forest seen,
    build_forest nodes3 edges3 = Ok (forest, seen, 3) /\
    choose_roots nodes3 (snd (index_edges edges3)) = Ok roots /\
    Permutation roots [a; b; c] /\
    forest = map tree_of roots /\
    Permutation forest [chain na nc nb; chain nb na nc; chain nc nb na] /\
    Permutation seen [a; b; c] /\
    Forall (fun t => Exists is_cycle_leaf (subtrees t)) forest.
Proof.
  destruct eqb3 as (E1 & E2 & E3 & E4 & E5 & E6).
  split.
  { intros k Hk. rewrite count_zero. intros H.
    destruct Hk as [<- | [<- | [<- | []]]].
    - apply (H b). simpl. auto.
    - apply (H c). simpl. auto.
    - apply (H a). simpl. auto. }
  destruct roots3 as (roots & Hr & Pr).
  assert (forall r s, In r roots ->
            exists s', render nodes3 cbp3 (render_fuel nodes3) r [] s
                       = Ok (tree_of r, s')) as Hw.
  { intros r s Hin. apply (Permutation_in _ Pr) in Hin.
    unfold cycle3_tree.
    destruct Hin as [<- | [<- | [<- | []]]];
      rewrite ?eqb_refl, ?E2, ?E4, ?E6.
    - apply render3_a.
    - apply render3_b.
    - apply render3_c. }
  destruct (each_map _ tree_of roots Hw []) as (seen & He).
  exists roots, (map tree_of roots), seen.
  assert (build_forest nodes3 edges3 = Ok (map tree_of roots, seen, 3)) as Hb.
  { unfold build_forest. rewrite index3, Hr. cbn [bind].
    fold (cycle3_children a b c). rewrite He. cbn [bind]. rewrite distinct3. reflexivity. }
  split; [exact Hb|]. rewrite index3. split; [exact Hr|].
  split; [exact Pr|]. split; [reflexivity|]. split; [|split].
  - apply (Permutation_map tree_of) in Pr. simpl in Pr.
    unfold cycle3_tree in Pr at 2 3 4.
    rewrite !eqb_refl, ?E2, ?E4, ?E6 in Pr. exact Pr.
  - destruct (roots_seen nodes3 cbp3 _ roots [] _ _ He)
      as ((_ & Hk & Hn) & Hi).
    apply NoDup_Permutation.
    + apply Hn. constructor.
    + repeat constructor; simpl; intuition congruence.
    + intros x. split.
      * intros Hx. destruct (Hk x Hx) as [[] | H]. exact H.
      * intros Hx. apply Hi. apply (Permutation_in _ (Permutation_sym Pr)).
        exact Hx.
  - apply Forall_forall. intros t Ht. apply in_map_iff in Ht as (r & <- & Hin).
    unfold cycle3_tree.
    destruct (Str.eqb r a); [|destruct (Str.eqb r b)];
      unfold chain, cycle_leaf, node_dict; simpl;
      do 3 apply Exists_cons_tl; apply Exists_cons_hd; split; reflexivity.
Qed.

End ThreeCycle.
End CycleFacts.

(** ** The build run *)

Module RunFacts.
Import StrFacts DictFacts SSetFacts ResultFacts SortFacts ForestFacts.
Import ExtractFacts.

Section WithRuntime.
Context {rt : PyRuntime}.

(** [level_to_tuple] is not among the names [detached_sort_key] can see. *)
Lemma detached_raises t :
  detached_sort_key t = Raise (NameError "level_to_tuple").
Proof. reflexivity. Qed.

Lemma sorted_detached_raises l :
  l <> [] ->
  Sort.sorted detached_sort_key l = Raise (NameError "level_to_tuple").
Proof. destruct l as [|t l]; [congruence|]. intros _. reflexivity. Qed.

Lemma insert_str_perm x l : Permutation (insert_str x l) (x :: l).
Proof.
  induction l as [|y l IH]; simpl; [reflexivity|].
  destruct (Str.compare y x); try reflexivity.
  rewrite IH. apply perm_swap.
Qed.

Lemma sorted_str_perm l : Permutation (sorted_str l) l.
Proof.
  induction l as [|x l IH]; simpl; [reflexivity|].
  rewrite insert_str_perm. constructor. exact IH.
Qed.

Lemma missing_perm nodes seen :
  Permutation (missing_of nodes seen) (SSet.diff (Dict.keys nodes) seen).
Proof.
  unfold missing_of. rewrite sorted_str_perm. apply set_iter_perm.
Qed.

Lemma missing_nil nodes seen :
  missing_of nodes seen = [] <-> incl (Dict.keys nodes) seen.
Proof.
  split.
  - intros H k Hk. destruct (SSet.mem k seen) eqn:E;
      [apply mem_In; assumption|].
    apply mem_false in E.
    assert (In k (missing_of nodes seen)) as C.
    { apply (Permutation_in _ (Permutation_sym (missing_perm nodes seen))).
      apply diff_In. auto. }
    rewrite H in C. destruct C.
  - intros H. destruct (missing_of nodes seen) as [|m ms] eqn:E;
      [reflexivity|].
    assert (In m (SSet.diff (Dict.keys nodes) seen)) as C.
    { apply (Permutation_in _ (missing_perm nodes seen)). rewrite E.
      left. reflexivity. }
    apply diff_In in C as [C1 C2]. exfalso. auto.
Qed.

(** The post-pass either has nothing to do or ends in the [NameError]. *)
Lemma reconcile_cases nodes forest seen :
  (missing_of nodes seen = [] /\
   reconcile nodes forest seen = Ok (forest, seen)) \/
  (missing_of nodes seen <> [] /\
   reconcile nodes forest seen = Raise (NameError "level_to_tuple")).
Proof.
  unfold reconcile. fold (missing_of nodes seen).
  pose proof (missing_perm nodes seen) as P.
  destruct (missing_of nodes seen) as [|m ms] eqn:E; [left; auto|].
  right. split; [discriminate|].
  destruct (traverse_all_ok
              (fun node_id => do n <- lookup nodes node_id;
                              Ok (node_dict n [] false)) (m :: ms))
    as [leaves Hl].
  { intros k Hk. apply (Permutation_in _ P), diff_In in Hk as [Hk _].
    apply lookup_keys in Hk as [n ->]. simpl. eauto. }
  rewrite Hl. cbn [bind]. apply traverse_ok in Hl.
  inversion Hl as [|? leaf ? leaves' _ _]; subst.
  rewrite sorted_detached_raises; [reflexivity|].
  destruct forest; discriminate.
Qed.

Lemma has_empty_label (nodes : list (pystr * NodeBase)) :
  map raw_fragment
      (filter (fun node => negb (truthy (label node))) (Dict.values nodes))
  = [] <->
  forall node, In node (Dict.values nodes) -> label node <> [].
Proof.
  split.
  - intros H node Hn E.
    assert (In (raw_fragment node)
               (map raw_fragment
                    (filter (fun node => negb (truthy (label node)))
                            (Dict.values nodes)))) as C.
    { apply in_map, filter_In. split; [assumption|]. rewrite E. reflexivity. }
    rewrite H in C. destruct C.
  - intros H.
    destruct (filter _ (Dict.values nodes)) as [|node l] eqn:E;
      [reflexivity|].
    assert (In node (filter (fun node => negb (truthy (label node)))
                            (Dict.values nodes))) as C
      by (rewrite E; left; reflexivity).
    apply filter_In in C as [C1 C2]. apply negb_true_iff in C2.
    apply truthy_false in C2. exfalso. eapply H; eauto.
Qed.

(** How a run on a well-formed document ends, case by case. *)
Lemma run_parsed_cases src root :
  let nodes := fst (parse_owl_root root) in
  let edges := snd (parse_owl_root root) in
  exists forest seen,
    build_forest nodes edges
    = Ok (forest, seen, length (distinct_edges edges)) /\
    let p := {| source := src; node_count := length nodes;
                edge_count := length (distinct_edges edges);
                roots := forest |} in
    ((~ incl (Dict.keys nodes) seen /\
      run_parsed src root
      = {| written := None;
           status := Raise (NameError "level_to_tuple") |}) \/
     (incl (Dict.keys nodes) seen /\
      (exists node, In node (Dict.values nodes) /\ label node = []) /\
      run_parsed src root
      = {| written := Some p;
           status := Raise (RuntimeError EMPTY_LABELS_MSG) |}) \/
     (incl (Dict.keys nodes) seen /\
      (forall node, In node (Dict.values nodes) -> label node <> []) /\
      run_parsed src root = {| written := Some p; status := Ok seen |})).
Proof.
  cbv zeta. unfold run_parsed. rewrite parse_owl_root_eq. cbn [fst snd].
  set (nodes := fst (extract_all root)).
  set (edges := filter (valid_edge nodes) (snd (extract_all root))).
  destruct (build_forest_ok nodes edges) as (forest & seen & Hb).
  { intros c p H. apply filter_In in H as [_ H].
    apply valid_edge_keys in H. exact H. }
  exists forest, seen. split; [exact Hb|].
  rewrite Hb. cbn [bind fst snd].
  destruct (reconcile_cases nodes forest seen) as [[Hm Hr] | [Hm Hr]];
    rewrite Hr; cbn [bind].
  - apply missing_nil in Hm. right.
    pose proof (has_empty_label nodes) as Hl.
    destruct (map raw_fragment _) as [|f fs].
    + right. split; [assumption|]. split; [|reflexivity].
      apply Hl. reflexivity.
    + left. split; [assumption|]. split; [|reflexivity].
      destruct (existsb (fun node => negb (truthy (label node)))
                        (Dict.values nodes)) eqn:Ex.
      * apply existsb_exists in Ex as (node & Hn & Hx).
        apply negb_true_iff, truthy_false in Hx. eauto.
      * exfalso. assert (f :: fs = []) as C; [|discriminate C].
        apply Hl. intros node Hn E.
        assert (existsb (fun node => negb (truthy (label node)))
                        (Dict.values nodes) = true) as C; [|congruence].
        apply existsb_exists. exists node. split; [assumption|].
        rewrite E. reflexivity.
  - left. split; [|reflexivity].
    intros H. apply missing_nil in H. contradiction.
Qed.

(** A run whose walk misses a node ends in the [NameError], before
    anything is written. *)
Lemma run_uncovered src root forest seen n :
  build_forest (fst (parse_owl_root root)) (snd (parse_owl_root root))
  = Ok (forest, seen, n) ->
  ~ incl (Dict.keys (fst (parse_owl_root root))) seen ->
  run src (Parsed root)
  = {| written := None; status := Raise (NameError "level_to_tuple") |}.
Proof.
  intros Hb Hn. simpl.
  destruct (run_parsed_cases src root) as (forest' & seen' & Hb' & Hc).
  cbv zeta in Hb', Hc. rewrite Hb in Hb'. inversion Hb'; subst.
  destruct Hc as [[_ H] | [[H _] | [H _]]];
    [exact H | contradiction | contradiction].
Qed.

(** C6: the edges handed to the forest builder are the raw edges of all
    class elements whose two ends are both in the node mapping as it
    stands after the whole document has been read: an edge to a class
    declared anywhere in the document, earlier or later, is kept, and an
    edge with an unknown end is in neither the edge list, nor the count,
    nor the links of the forest; the count is the number of distinct
    valid pairs.  The count and the links are those of whatever forest the
    builder returns and of whatever the run writes. *)
Theorem edge_filtering src root :
  let nodes := fst (parse_owl_root root) in
  let edges := snd (parse_owl_root root) in
  let cls := findall_deep root (qname OWL_NS "Class") in
  (nodes = fst (extract_all root) /\
   edges = filter (valid_edge nodes) (raw_edges cls)) /\
  (forall c p,
     In (c, p) edges <->
     In (c, p) (raw_edges cls) /\
     In c (Dict.keys nodes) /\ In p (Dict.keys nodes)) /\
  (forall class_el class_el' c p,
     In class_el cls -> In class_el' cls ->
     class_iri_of class_el = Some c -> class_iri_of class_el' = Some p ->
     In (c, p) (class_edges class_el c) -> In (c, p) edges) /\
  (NoDup (distinct_edges edges) /\
   forall e, In e (distinct_edges edges) <-> In e edges) /\
  (forall forest seen n,
     build_forest nodes edges = Ok (forest, seen, n) ->
     n = length (distinct_edges edges) /\
     forall t, In t forest -> incl (tree_links t) edges) /\
  (forall p,
     written (run src (Parsed root)) = Some p ->
     edge_count p = length (distinct_edges edges) /\
     forall t, In t (roots p) -> incl (tree_links t) edges) /\
  (forall x y,
     ~ In x (Dict.keys nodes) \/ ~ In y (Dict.keys nodes) ->
     ~ In (x, y) edges /\ ~ In (x, y) (distinct_edges edges) /\
     forall p t, written (run src (Parsed root)) = Some p ->
                 In t (roots p) -> ~ In (x, y) (tree_links t)).
Proof.
  cbv zeta. rewrite parse_owl_root_eq. cbn [fst snd].
  rewrite extract_all_edges.
  set (nodes := fst (extract_all root)).
  set (cls := findall_deep root (qname OWL_NS "Class")).
  set (edges := filter (valid_edge nodes) (raw_edges cls)).
  assert (forall c p,
            In (c, p) edges <->
            In (c, p) (raw_edges cls) /\
            In c (Dict.keys nodes) /\ In p (Dict.keys nodes)) as Hin.
  { intros c p. unfold edges. rewrite filter_In, valid_edge_keys. tauto. }
  assert (forall k nd, lookup nodes k = Ok nd -> id nd = k) as Hid.
  { intros k nd H. apply lookup_ok in H. eapply extract_all_ids; eauto. }
  assert (exists forest seen,
            build_forest nodes edges
            = Ok (forest, seen, length (distinct_edges edges)) /\
            forall t, In t forest -> incl (tree_links t) edges)
    as (forest & seen & Hb & Hl).
  { destruct (build_forest_ok nodes edges) as (forest & seen & Hb).
    - intros c p H. apply Hin in H. tauto.
    - exists forest, seen. split; [exact Hb|].
      eapply build_forest_links; eauto. }
  assert (forall p,
            written (run src (Parsed root)) = Some p ->
            edge_count p = length (distinct_edges edges) /\
            forall t, In t (roots p) -> incl (tree_links t) edges) as Hw.
  { intros p Hp. simpl in Hp.
    destruct (run_parsed_cases src root) as (forest' & seen' & Hb' & Hc).
    cbv zeta in Hb', Hc. rewrite parse_owl_root_eq in Hb', Hc.
    cbn [fst snd] in Hb', Hc. rewrite extract_all_edges in Hb', Hc.
    fold nodes cls edges in Hb', Hc. rewrite Hb in Hb'.
    inversion Hb'; subst forest' seen'.
    destruct Hc as [[_ H] | [[_ [_ H]] | [_ [_ H]]]]; rewrite H in Hp;
      simpl in Hp; inversion Hp; subst; simpl; auto. }
  split; [split; reflexivity|].
  split; [exact Hin|].
  split.
  { intros class_el class_el' c p H1 H2 E1 E2 He. apply Hin.
    split; [|split].
    - unfold raw_edges. apply in_flat_map. exists class_el.
      rewrite E1. auto.
    - apply extract_all_keys. eauto.
    - apply extract_all_keys. eauto. }
  split; [apply distinct_edges_spec|].
  split.
  { intros forest' seen' n H. split.
    - apply build_forest_inv in H as (_ & _ & _ & H). exact H.
    - eapply build_forest_links; eauto. }
  split; [exact Hw|].
  intros x y Hxy.
  assert (~ In (x, y) edges) as Hno by (rewrite Hin; tauto).
  split; [exact Hno|].
  split; [rewrite (proj2 (distinct_edges_spec edges)); exact Hno|].
  intros p t Hp Ht H. apply Hno.
  destruct (Hw p Hp) as [_ Hi]. eapply Hi; eauto.
Qed.

End WithRuntime.
End RunFacts.

(** ** Fragments *)

Module FragmentFacts.
Import StrFacts ExtractFacts.

Lemma existsb_eqb_In ch (s : pystr) : existsb (N.eqb ch) s = true <-> In ch s.
Proof.
  rewrite existsb_exists. split.
  - intros (x & Hx & E). apply N.eqb_eq in E. subst. exact Hx.
  - intros H. exists ch. split; [exact H | apply N.eqb_refl].
Qed.

Lemma existsb_eqb_notin ch (s : pystr) :
  existsb (N.eqb ch) s = false <-> ~ In ch s.
Proof.
  rewrite <- existsb_eqb_In. destruct (existsb (N.eqb ch) s); split; congruence.
Qed.

Lemma after_last_none ch s : ~ In ch s -> Str.after_last ch s = s.
Proof.
  destruct s as [|c s]; [reflexivity|]. intros H. simpl.
  assert (existsb (N.eqb ch) s = false) as ->
    by (apply existsb_eqb_notin; intros C; apply H; right; exact C).
  assert (N.eqb c ch = false) as ->; [|reflexivity].
  apply N.eqb_neq. intros ->. apply H. left. reflexivity.
Qed.

Lemma after_last_app ch pre frag :
  ~ In ch frag -> Str.after_last ch (pre ++ ch :: frag) = frag.
Proof.
  intros H. induction pre as [|c pre IH]; simpl.
  - assert (existsb (N.eqb ch) frag = false) as ->
      by (apply existsb_eqb_notin; exact H).
    rewrite N.eqb_refl. reflexivity.
  - assert (existsb (N.eqb ch) (pre ++ ch :: frag) = true) as ->
      by (apply existsb_eqb_In, in_elt).
    exact IH.
Qed.

Lemma after_last_split ch s :
  In ch s ->
  exists pre, s = pre ++ ch :: Str.after_last ch s /\
              ~ In ch (Str.after_last ch s).
Proof.
  induction s as [|c s IH]; intros H; [destruct H|]. simpl.
  destruct (existsb (N.eqb ch) s) eqn:E.
  - apply existsb_eqb_In in E. destruct (IH E) as (pre & Hp & Hn).
    exists (c :: pre). split; [simpl; congruence | exact Hn].
  - apply existsb_eqb_notin in E. destruct H as [-> | H]; [|contradiction].
    rewrite N.eqb_refl. exists []. split; [reflexivity | exact E].
Qed.

Lemma lstrip_char_repeat ch k s :
  (forall c s', s = c :: s' -> c <> ch) ->
  Str.lstrip_char ch (repeat ch k ++ s) = s.
Proof.
  intros H. induction k as [|k IH]; simpl.
  - destruct s as [|c s']; [reflexivity|]. simpl.
    assert (N.eqb c ch = false) as ->; [|reflexivity].
    apply N.eqb_neq. eapply H. reflexivity.
  - rewrite N.eqb_refl. exact IH.
Qed.

Lemma rev_repeat {A} (x : A) k : rev (repeat x k) = repeat x k.
Proof.
  induction k as [|k IH]; [reflexivity|]. simpl. rewrite IH.
  clear IH. induction k as [|k IH]; [reflexivity|]. simpl. rewrite IH.
  reflexivity.
Qed.

(** [rstrip] of a text that does not end in [ch], followed by any number
    of [ch]. *)
Lemma rstrip_char_repeat ch k s :
  (forall s' c, s = s' ++ [c] -> c <> ch) ->
  Str.rstrip_char ch (s ++ repeat ch k) = s.
Proof.
  intros H. unfold Str.rstrip_char.
  rewrite rev_app_distr, rev_repeat, lstrip_char_repeat.
  - apply rev_involutive.
  - intros c s' E. apply (H (rev s')).
    rewrite <- (rev_involutive s), E. reflexivity.
Qed.

Lemma lstrip_char_split ch s :
  exists k, s = repeat ch k ++ Str.lstrip_char ch s /\
            forall c s', Str.lstrip_char ch s = c :: s' -> c <> ch.
Proof.
  induction s as [|c s (k & E & H)]; simpl.
  - exists 0. split; [reflexivity | discriminate].
  - destruct (N.eqb c ch) eqn:Ec.
    + apply N.eqb_eq in Ec. subst. exists (S k). split; [|exact H].
      simpl. congruence.
    + exists 0. split; [reflexivity|]. intros c' s' E'. inversion E'; subst.
      apply N.eqb_neq. exact Ec.
Qed.

Lemma rstrip_char_split ch s :
  exists k, s = Str.rstrip_char ch s ++ repeat ch k /\
            forall s' c, Str.rstrip_char ch s = s' ++ [c] -> c <> ch.
Proof.
  unfold Str.rstrip_char.
  destruct (lstrip_char_split ch (rev s)) as (k & E & H).
  exists k. split.
  - rewrite <- (rev_involutive s), E at 1.
    rewrite rev_app_distr, rev_repeat. reflexivity.
  - intros s' c E'. apply (H c (rev s')).
    rewrite <- (rev_involutive (Str.lstrip_char ch (rev s))), E'.
    rewrite rev_app_distr. reflexivity.
Qed.

Lemma not_in_repeat_app (a ch : N) (s : pystr) k :
  a <> ch -> ~ In a s -> ~ In a (s ++ repeat ch k).
Proof.
  intros Hne Hs H. apply in_app_or in H as [H | H]; [contradiction|].
  apply repeat_spec in H. contradiction.
Qed.


Lemma after_last_nil ch s :
  Str.after_last ch s = [] -> s = [] \/ exists s', s = s' ++ [ch].
Proof.
  destruct (in_dec N.eq_dec ch s) as [Hin | Hnot].
  - destruct (after_last_split ch s Hin) as (pre & E & _).
    intros H. rewrite H in E. eauto.
  - rewrite (after_last_none _ _ Hnot). auto.
Qed.

Lemma repeat_all (ch : N) k : Forall (eq ch) (repeat ch k).
Proof.
  apply Forall_forall. intros x Hx. apply repeat_spec in Hx. congruence.
Qed.

Lemma all_repeat (ch : N) s : Forall (eq ch) s -> s = repeat ch (length s).
Proof. induction 1 as [|x l <- _ IH]; simpl; congruence. Qed.

Lemma fragment_hash_app pre frag :
  ~ In 35%N frag -> extract_fragment (pre ++ 35%N :: frag) = frag.
Proof.
  intros H. unfold extract_fragment.
  assert (existsb (N.eqb 35) (pre ++ 35%N :: frag) = true) as ->
    by (apply existsb_eqb_In, in_elt).
  apply after_last_app. exact H.
Qed.

Lemma fragment_hash_split iri :
  In 35%N iri ->
  exists pre, iri = pre ++ 35%N :: extract_fragment iri /\
              ~ In 35%N (extract_fragment iri).
Proof.
  intros H. unfold extract_fragment.
  rewrite (proj2 (existsb_eqb_In 35%N iri) H).
  apply after_last_split. exact H.
Qed.

Lemma fragment_no_hash iri :
  ~ In 35%N iri ->
  extract_fragment iri = Str.after_last 47 (Str.rstrip_char 47 iri).
Proof.
  intros H. unfold extract_fragment.
  rewrite (proj2 (existsb_eqb_notin 35%N iri) H). reflexivity.
Qed.

Lemma fragment_path_tail frag k :
  ~ In 35%N frag -> ~ In 47%N frag ->
  extract_fragment (frag ++ repeat 47%N k) = frag.
Proof.
  intros H35 H47. rewrite fragment_no_hash.
  - rewrite rstrip_char_repeat.
    + apply after_last_none. exact H47.
    + intros s' c E ->. apply H47. rewrite E. apply in_elt.
  - apply not_in_repeat_app; [discriminate | exact H35].
Qed.

Lemma fragment_path_app pre frag k :
  ~ In 35%N pre -> ~ In 35%N frag -> ~ In 47%N frag -> frag <> [] ->
  extract_fragment (pre ++ 47%N :: frag ++ repeat 47%N k) = frag.
Proof.
  intros Hp H35 H47 Hne. rewrite fragment_no_hash.
  - replace (pre ++ 47%N :: frag ++ repeat 47%N k)
      with ((pre ++ 47%N :: frag) ++ repeat 47%N k)
      by (rewrite <- app_assoc; reflexivity).
    rewrite rstrip_char_repeat.
    + apply after_last_app. exact H47.
    + intros s' c E ->. destruct (exists_last Hne) as (f' & d & ->).
      apply H47.
      assert (d = 47%N) as ->; [|apply in_elt].
      change (pre ++ 47%N :: f' ++ [d]) with (pre ++ (47%N :: f') ++ [d]) in E.
      rewrite app_assoc in E. apply app_inj_tail in E as [_ E]. exact E.
  - intros H. apply in_app_or in H as [H | [H | H]];
      [contradiction | discriminate H|].
    revert H. apply not_in_repeat_app; [discriminate | exact H35].
Qed.

Lemma fragment_path_split iri :
  ~ In 35%N iri ->
  ~ In 47%N (extract_fragment iri) /\
  exists pre k,
    iri = pre ++ extract_fragment iri ++ repeat 47%N k /\
    (pre = [] \/ exists pre', pre = pre' ++ [47%N]).
Proof.
  intros H35. rewrite (fragment_no_hash _ H35).
  destruct (rstrip_char_split 47%N iri) as (k & E & Hend).
  set (body := Str.rstrip_char 47 iri) in *.
  destruct (in_dec N.eq_dec 47%N body) as [Hin | Hnot].
  - destruct (after_last_split 47%N body Hin) as (pre & Hp & Hn).
    split; [exact Hn|]. exists (pre ++ [47%N]), k. split.
    + rewrite E at 1. rewrite Hp at 1. rewrite <- !app_assoc. reflexivity.
    + right. eauto.
  - rewrite (after_last_none _ _ Hnot). split; [exact Hnot|].
    exists [], k. split; [exact E | left; reflexivity].
Qed.

(** X1: the fragment of an identity that holds a hash is the text behind
    its last hash: a text without hash put behind any text and a hash comes
    back as it is, and every identity with a hash is some text, a hash and
    its fragment, which holds no hash. *)
Theorem fragment_after_last_hash :
  (forall pre frag,
     ~ In 35%N frag -> extract_fragment (pre ++ 35%N :: frag) = frag) /\
  (forall iri,
     In 35%N iri ->
     exists pre, iri = pre ++ 35%N :: extract_fragment iri /\
                 ~ In 35%N (extract_fragment iri)).
Proof. split; [apply fragment_hash_app | apply fragment_hash_split]. Qed.

(** X2: the fragment of an identity without hash is its last path
    segment, the slashes at its end left aside: a segment without slash
    comes back as it is, alone or behind a path, with any number of slashes
    behind it; and every identity without hash is a path (empty or ending in
    a slash), its fragment, which holds no slash, and a run of slashes. *)
Theorem fragment_last_path_segment :
  (forall frag k,
     ~ In 35%N frag -> ~ In 47%N frag ->
     extract_fragment (frag ++ repeat 47%N k) = frag) /\
  (forall pre frag k,
     ~ In 35%N pre -> ~ In 35%N frag -> ~ In 47%N frag -> frag <> [] ->
     extract_fragment (pre ++ 47%N :: frag ++ repeat 47%N k) = frag) /\
  (forall iri,
     ~ In 35%N iri ->
     ~ In 47%N (extract_fragment iri) /\
     exists pre k,
       iri = pre ++ extract_fragment iri ++ repeat 47%N k /\
       (pre = [] \/ exists pre', pre = pre' ++ [47%N])).
Proof.
  split; [apply fragment_path_tail|].
  split; [apply fragment_path_app | apply fragment_path_split].
Qed.

(** X3: an identity has the empty fragment exactly when it ends in a hash
    or consists of slashes only (the empty identity among them). *)
Theorem fragment_empty iri :
  extract_fragment iri = [] <->
  (exists pre, iri = pre ++ [35%N]) \/ Forall (eq 47%N) iri.
Proof.
  split.
  - intros H. destruct (in_dec N.eq_dec 35%N iri) as [Hin | Hnot].
    + left. destruct (fragment_hash_split iri Hin) as (pre & E & _).
      rewrite H in E. eauto.
    + right. rewrite (fragment_no_hash _ Hnot) in H.
      destruct (rstrip_char_split 47%N iri) as (k & E & Hend).
      apply after_last_nil in H as [H | (s' & H)].
      * rewrite E, H. apply repeat_all.
      * exfalso. apply (Hend _ _ H). reflexivity.
  - intros [(pre & ->) | H].
    + apply (fragment_hash_app pre []). intros [].
    + rewrite (all_repeat _ _ H).
      apply (fragment_path_tail [] (length iri)); intros [].
Qed.

End FragmentFacts.

(** ** Humanized fragments and empty labels *)

Module LabelFacts.
Import StrFacts ExtractFacts.

Lemma lstrip_fixed c t : Str.isspace c = false -> Str.lstrip (c :: t) = c :: t.
Proof. intros H. simpl. rewrite H. reflexivity. Qed.

Lemma strip_fixed s :
  (forall c t, s = c :: t -> Str.isspace c = false) ->
  (forall t d, s = t ++ [d] -> Str.isspace d = false) ->
  Str.strip s = s.
Proof.
  intros Hf Hl. unfold Str.strip, Str.rstrip.
  destruct s as [|c t]; [reflexivity|].
  rewrite (lstrip_fixed c t (Hf c t eq_refl)).
  destruct (exists_last (l := c :: t)) as (t' & d & E); [discriminate|].
  rewrite E, rev_app_distr.
  change (rev [d] ++ rev t') with (d :: rev t').
  rewrite (lstrip_fixed d (rev t') (Hl t' d E)).
  change (d :: rev t') with (rev [d] ++ rev t').
  rewrite <- rev_app_distr. apply rev_involutive.
Qed.

Lemma strip_idem s : Str.strip (Str.strip s) = Str.strip s.
Proof.
  destruct (Str.strip s) as [|c t] eqn:E; [reflexivity|].
  destruct (strip_trimmed s c t E) as (Hc & t' & d & Et & Hd).
  apply strip_fixed.
  - intros c0 t0 E0. inversion E0; subst. exact Hc.
  - intros t0 d0 E0. rewrite Et in E0.
    apply app_inj_tail in E0 as [_ <-]. exact Hd.
Qed.

Lemma replace1_id a b s : ~ In a s -> Str.replace1 a b s = s.
Proof.
  unfold Str.replace1. induction s as [|c s IH]; intros H; [reflexivity|].
  simpl. rewrite IH by (intros C; apply H; right; exact C).
  assert (N.eqb c a = false) as ->; [|reflexivity].
  apply N.eqb_neq. intros ->. apply H. left. reflexivity.
Qed.

Lemma humanize_idem fragment :
  humanize_fragment (humanize_fragment fragment) = humanize_fragment fragment.
Proof.
  unfold humanize_fragment at 1.
  rewrite replace1_id by (apply humanize_no_underscore).
  unfold humanize_fragment. apply strip_idem.
Qed.

Lemma humanize_nil fragment :
  humanize_fragment fragment = [] <->
  Forall (fun c => filler c = true) fragment.
Proof.
  unfold humanize_fragment. rewrite strip_nil. unfold blank, Str.replace1.
  rewrite Forall_map. split; apply Forall_impl; intros c; unfold filler;
    destruct (N.eqb c 95) eqn:E; simpl; auto.
Qed.

Lemma humanize_clean fragment :
  ~ In 95%N fragment ->
  (forall c t, fragment = c :: t -> Str.isspace c = false) ->
  (forall t d, fragment = t ++ [d] -> Str.isspace d = false) ->
  humanize_fragment fragment = fragment.
Proof.
  intros H Hf Hl. unfold humanize_fragment.
  rewrite replace1_id by exact H. apply strip_fixed; assumption.
Qed.

Section WithRuntime.
Context {rt : PyRuntime}.

Lemma label_text_idem lbl : Str.strip (label_text lbl) = label_text lbl.
Proof. apply strip_idem. Qed.

Lemma find_none_forall {A} (f : A -> bool) l :
  find f l = None -> Forall (fun y => f y = false) l.
Proof.
  intros H. apply Forall_forall. intros x Hx.
  apply (find_none f l H x Hx).
Qed.

Lemma label_trimmed class_el fragment :
  Str.strip (parse_preferred_label class_el fragment)
  = parse_preferred_label class_el fragment.
Proof.
  unfold parse_preferred_label.
  destruct (find is_native_label _); [apply strip_idem|].
  destruct (find _ _); [apply strip_idem|].
  unfold humanize_fragment. apply strip_idem.
Qed.

Lemma label_nil class_el fragment :
  parse_preferred_label class_el fragment = [] <->
  Forall (fun l => blank (or_empty (text l)))
         (findall class_el (qname RDFS_NS "label")) /\
  Forall (fun c => filler c = true) fragment.
Proof.
  unfold parse_preferred_label.
  set (labels := findall class_el (qname RDFS_NS "label")).
  destruct (find is_native_label labels) as [lbl|] eqn:E1.
  - apply find_some in E1 as [Hin Hn].
    apply native_label in Hn as [_ Hb].
    split.
    + intros H. exfalso. apply Hb. apply strip_nil. exact H.
    + intros [H _]. exfalso. apply Hb.
      rewrite Forall_forall in H. apply H. exact Hin.
  - destruct (find (fun lbl => truthy (label_text lbl)) labels)
      as [lbl|] eqn:E2.
    + apply find_some in E2 as [Hin Hn].
      split.
      * intros H. rewrite H in Hn. discriminate Hn.
      * intros [H _]. exfalso. rewrite Forall_forall in H.
        apply H, blank_label in Hin. congruence.
    + rewrite humanize_nil. split; [|tauto]. intros H. split; [|exact H].
      apply find_none_forall in E2. eapply Forall_impl; [|exact E2].
      intros l. apply blank_label.
Qed.

End WithRuntime.

(** X4: humanizing a fragment twice gives what humanizing it once
    gives; a fragment without underscore that neither begins nor ends with
    whitespace is left as it is; and the result is empty exactly when the
    fragment consists of underscores and whitespace only. *)
Theorem humanize_fragment_idempotent :
  (forall fragment,
     humanize_fragment (humanize_fragment fragment)
     = humanize_fragment fragment) /\
  (forall fragment,
     ~ In 95%N fragment ->
     (forall c t, fragment = c :: t -> Str.isspace c = false) ->
     (forall t d, fragment = t ++ [d] -> Str.isspace d = false) ->
     humanize_fragment fragment = fragment) /\
  (forall fragment,
     humanize_fragment fragment = [] <->
     Forall (fun c => filler c = true) fragment).
Proof.
  split; [apply humanize_idem|]. split; [apply humanize_clean|].
  apply humanize_nil.
Qed.

(** X5: the label of a class element is empty exactly when every label
    element it has is blank and the fallback fragment consists of
    underscores and whitespace only. *)
Theorem label_empty_iff {rt : PyRuntime} class_el fragment :
  parse_preferred_label class_el fragment = [] <->
  Forall (fun l => blank (or_empty (text l)))
         (findall class_el (qname RDFS_NS "label")) /\
  Forall (fun c => filler c = true) fragment.
Proof. apply label_nil. Qed.

End LabelFacts.

(** ** The level as a tuple of numbers *)

Module LevelTupleFacts.
Import StrFacts LevelFacts.

Lemma join_cons sep t t' ts :
  Str.join sep (t :: t' :: ts) = t ++ sep ++ Str.join sep (t' :: ts).
Proof. reflexivity. Qed.

Lemma split_on_piece ch t rest :
  ~ In ch t -> split_on ch (t ++ ch :: rest) = t :: split_on ch rest.
Proof.
  induction t as [|c t IH]; intros H; simpl.
  - rewrite N.eqb_refl. reflexivity.
  - assert (N.eqb c ch = false) as ->
      by (apply N.eqb_neq; intros ->; apply H; left; reflexivity).
    rewrite IH by (intros C; apply H; right; exact C). reflexivity.
Qed.

Lemma split_on_last ch t : ~ In ch t -> split_on ch t = [t].
Proof.
  induction t as [|c t IH]; intros H; simpl; [reflexivity|].
  assert (N.eqb c ch = false) as ->
    by (apply N.eqb_neq; intros ->; apply H; left; reflexivity).
  rewrite IH by (intros C; apply H; right; exact C). reflexivity.
Qed.

(** Splitting at the dots undoes joining with dots. *)
Lemma split_on_join parts :
  parts <> [] -> Forall (fun t => ~ In 46%N t) parts ->
  split_on 46 (Str.join (Str.lit ".") parts) = parts.
Proof.
  intros Hne H. induction H as [|t ts Ht Hts IH]; [congruence|].
  destruct ts as [|t' ts].
  - simpl. apply split_on_last. exact Ht.
  - rewrite join_cons. change (Str.lit "." ++ ?x) with (46%N :: x).
    rewrite split_on_piece by exact Ht. f_equal. apply IH. discriminate.
Qed.

Lemma digit_range c : Str.isdigit c = true <-> (48 <= c <= 57)%N.
Proof.
  unfold Str.isdigit. rewrite andb_true_iff, !N.leb_le. tauto.
Qed.

Lemma digit_run_no_dot p : digit_run p -> ~ In 46%N p.
Proof.
  intros [_ H] Hin. rewrite Forall_forall in H.
  apply H, digit_range in Hin. lia.
Qed.

Lemma digit_not_int_ws c : Str.isdigit c = true -> int_ws c = false.
Proof.
  intros H. apply digit_range in H. unfold int_ws.
  assert ((c <=? 13)%N = false) as -> by (apply N.leb_gt; lia).
  assert ((c =? 32)%N = false) as -> by (apply N.eqb_neq; lia).
  rewrite andb_false_r. reflexivity.
Qed.

Lemma int_lskip_digit c s :
  Str.isdigit c = true -> int_lskip (c :: s) = c :: s.
Proof. intros H. simpl. rewrite (digit_not_int_ws c H). reflexivity. Qed.

Lemma digits_ascii p :
  Forall (fun c => Str.isdigit c = true) p -> forallb Str.is_ascii p = true.
Proof.
  intros H. apply forallb_forall. intros c Hc.
  rewrite Forall_forall in H. apply H, digit_range in Hc.
  unfold Str.is_ascii. apply N.ltb_lt. lia.
Qed.

Lemma int_digits_all p : forall acc,
  Forall (fun c => Str.isdigit c = true) p ->
  int_digits acc p
  = Some (fold_left (fun a c => (a * 10 + digit_val c)%Z) p acc).
Proof.
  induction p as [|c p IH]; intros acc H; [reflexivity|].
  inversion H as [|? ? Hc Hp]; subst. simpl. rewrite Hc. apply IH. exact Hp.
Qed.

Lemma fold_digits_nonneg p : forall acc,
  Forall (fun c => Str.isdigit c = true) p -> (0 <= acc)%Z ->
  (0 <= fold_left (fun a c => (a * 10 + digit_val c)%Z) p acc)%Z.
Proof.
  induction p as [|c p IH]; intros acc H Ha; [exact Ha|].
  inversion H as [|? ? Hc Hp]; subst. simpl. apply IH; [exact Hp|].
  apply digit_range in Hc. unfold digit_val. lia.
Qed.

Lemma decimal_nonneg p :
  Forall (fun c => Str.isdigit c = true) p -> (0 <= decimal p)%Z.
Proof. intros H. apply fold_digits_nonneg; [exact H | lia]. Qed.

Lemma sign_free {A} c (r : pystr) (f g : pystr -> A) (h : A) :
  Str.isdigit c = true ->
  match c :: r with
  | 43%N :: r' => f r'
  | 45%N :: r' => g r'
  | _ => h
  end = h.
Proof.
  intros H. apply digit_range in H.
  assert (c = 48 \/ c = 49 \/ c = 50 \/ c = 51 \/ c = 52 \/ c = 53 \/
          c = 54 \/ c = 55 \/ c = 56 \/ c = 57)%N as Hc by lia.
  repeat destruct Hc as [-> | Hc]; try reflexivity. subst. reflexivity.
Qed.

Lemma int_ascii_digits p :
  digit_run p -> int_ascii p = Some (decimal p).
Proof.
  intros [Hne H]. unfold int_ascii.
  destruct p as [|c p]; [congruence|].
  inversion H as [|? ? Hc Hp]; subst.
  rewrite (int_lskip_digit c p Hc).
  destruct (exists_last (l := c :: p)) as (p' & d & E); [discriminate|].
  assert (Str.isdigit d = true) as Hd.
  { rewrite Forall_forall in H. apply H. rewrite E. apply in_elt. }
  rewrite E, rev_app_distr.
  change (rev [d] ++ rev p') with (d :: rev p').
  rewrite (int_lskip_digit d (rev p') Hd).
  change (d :: rev p') with (rev [d] ++ rev p').
  rewrite <- rev_app_distr, rev_involutive, <- E.
  rewrite (sign_free c p int_unsigned
             (fun r => option_map Z.opp (int_unsigned r))
             (int_unsigned (c :: p)) Hc).
  simpl. rewrite Hc. rewrite (int_digits_all p _ Hp).
  unfold decimal. simpl. reflexivity.
Qed.

Section WithRuntime.
Context {rt : PyRuntime}.

(** [int] of a run of at most 4300 digits is the number they stand for. *)
Lemma py_int_digits p :
  digit_run p -> length p <= 4300 -> py_int p = Some (decimal p).
Proof.
  intros Hp Hl. unfold py_int.
  rewrite (digits_ascii p (proj2 Hp)).
  rewrite (proj2 (Nat.leb_le _ _) Hl). simpl.
  apply int_ascii_digits. exact Hp.
Qed.

Lemma all_some_map {A B} (f : A -> option B) (g : A -> B) l :
  Forall (fun a => f a = Some (g a)) l -> all_some (map f l) = Some (map g l).
Proof.
  induction 1 as [|a l Ha _ IH]; [reflexivity|].
  simpl. rewrite Ha, IH. reflexivity.
Qed.

Lemma join_length_part sep parts p :
  In p parts -> length p <= length (Str.join sep parts).
Proof.
  induction parts as [|t ts IH]; intros H; [destruct H|].
  destruct ts as [|t' ts].
  - destruct H as [<- | []]. simpl. lia.
  - rewrite join_cons, !length_app. destruct H as [<- | H]; [lia|].
    specialize (IH H). unfold pystr in *. lia.
Qed.

Lemma join_nonempty sep p parts :
  p <> [] -> Str.join sep (p :: parts) <> [].
Proof.
  intros H. destruct parts as [|t ts]; [exact H|].
  rewrite join_cons. destruct p; [congruence | discriminate].
Qed.

Lemma level_of_dotted parts :
  parts <> [] -> Forall digit_run parts ->
  length (Str.join (Str.lit ".") parts) <= 4300 ->
  all_some (map py_int (split_on 46 (Str.join (Str.lit ".") parts)))
  = Some (map decimal parts) /\
  level_to_tuple (Some (Str.join (Str.lit ".") parts)) = map decimal parts.
Proof.
  intros Hne Hd Hl.
  assert (all_some (map py_int (split_on 46 (Str.join (Str.lit ".") parts)))
          = Some (map decimal parts)) as Ha.
  { rewrite split_on_join.
    - apply all_some_map. apply Forall_forall. intros p Hp.
      apply py_int_digits.
      + rewrite Forall_forall in Hd. apply Hd. exact Hp.
      + pose proof (join_length_part (Str.lit ".") parts p Hp). lia.
    - exact Hne.
    - eapply Forall_impl; [|exact Hd]. intros p. apply digit_run_no_dot. }
  split; [exact Ha|].
  unfold level_to_tuple.
  destruct (Str.join (Str.lit ".") parts) as [|c s] eqn:E.
  - exfalso. destruct parts as [|p ps]; [congruence|].
    inversion Hd as [|? ? [Hp _] _]; subst.
    apply (join_nonempty (Str.lit ".") p ps Hp). exact E.
  - rewrite Ha. reflexivity.
Qed.

(** X6: a level number the parser extracts is read by
    [level_to_tuple] as the numbers its digit groups stand for, one entry
    for each group and none of them negative: no group fails to parse, so
    the sentinel is never used for it.  The interpreter refuses to convert
    more than 4300 digits, hence the bound on the length. *)
Theorem extracted_level_is_numeric comment num ty :
  extract_level_metadata comment = (Some num, Some ty) ->
  length num <= 4300 ->
  exists parts,
    parts <> [] /\ Forall digit_run parts /\
    num = Str.join (Str.lit ".") parts /\
    all_some (map py_int (split_on 46 num)) = Some (map decimal parts) /\
    level_to_tuple (Some num) = map decimal parts /\
    Forall (fun z => (0 <= z)%Z) (level_to_tuple (Some num)).
Proof.
  intros H Hl.
  apply extract_shape in H as (_ & _ & _ & _ & _ & _ & _ & _ & _ & D & _).
  destruct D as (parts & Hne & Hd & ->).
  destruct (level_of_dotted parts Hne Hd Hl) as [Ha Ht].
  exists parts. repeat split; try assumption.
  rewrite Ht. apply Forall_forall. intros z Hz.
  apply in_map_iff in Hz as (p & <- & Hp).
  rewrite Forall_forall in Hd. apply decimal_nonneg, (Hd p Hp).
Qed.

End WithRuntime.
End LevelTupleFacts.

(** ** The node mapping *)

Module NodeFacts.
Import StrFacts DictFacts SSetFacts ExtractFacts LevelFacts LabelFacts.

Lemma mem_dict_set {V} (d : list (pystr * V)) k :
  Dict.mem d k = SSet.mem k (Dict.keys d).
Proof.
  destruct (SSet.mem k (Dict.keys d)) eqn:E.
  - apply mem_keys, mem_In. exact E.
  - destruct (Dict.mem d k) eqn:E'; [|reflexivity].
    apply mem_keys, mem_In in E'. congruence.
Qed.

Lemma keys_set_add {V} (d : list (pystr * V)) k v :
  Dict.keys (Dict.set d k v) = SSet.add k (Dict.keys d).
Proof. rewrite keys_set, mem_dict_set. reflexivity. Qed.

Lemma fold_add_NoDup l : forall acc,
  NoDup acc -> NoDup (fold_left (fun a k => SSet.add k a) l acc).
Proof.
  induction l as [|k l IH]; intros acc H; simpl; [exact H|].
  apply IH, add_NoDup, H.
Qed.

Lemma fold_add_In l x : forall acc,
  In x (fold_left (fun a k => SSet.add k a) l acc) <-> In x acc \/ In x l.
Proof.
  induction l as [|k l IH]; intros acc; simpl; [tauto|].
  rewrite IH, add_In. split.
  - intros [[-> | H] | H]; auto.
  - intros [H | [<- | H]]; auto.
Qed.

Lemma find_app {A} (f : A -> bool) l1 l2 :
  find f (l1 ++ l2) = match find f l1 with
                      | Some x => Some x
                      | None => find f l2
                      end.
Proof.
  induction l1 as [|a l1 IH]; simpl; [reflexivity|].
  destruct (f a); [reflexivity | exact IH].
Qed.

Section WithRuntime.
Context {rt : PyRuntime}.

Lemma parse_class_node st class_el :
  parse_class st class_el =
  match class_iri_of class_el with
  | None => st
  | Some class_iri =>
      (Dict.set (fst st) class_iri (node_of class_el class_iri),
       snd st ++ class_edges class_el class_iri)
  end.
Proof. apply parse_class_step. Qed.

Lemma fold_parse_keys_eq cls : forall st,
  Dict.keys (fst (fold_left parse_class cls st))
  = fold_left (fun a k => SSet.add k a) (class_iris cls) (Dict.keys (fst st)).
Proof.
  induction cls as [|e cls IH]; intros st; simpl; [reflexivity|].
  rewrite IH, parse_class_node. unfold class_iris at 2. simpl.
  rewrite fold_left_app.
  destruct (class_iri_of e) as [iri|]; simpl; [|reflexivity].
  rewrite keys_set_add. reflexivity.
Qed.

Lemma fold_parse_get cls k : forall st,
  Dict.get (fst (fold_left parse_class cls st)) k
  = match last_declaration cls k with
    | Some e => Some (node_of e k)
    | None => Dict.get (fst st) k
    end.
Proof.
  unfold last_declaration.
  induction cls as [|e cls IH]; intros st; simpl; [reflexivity|].
  rewrite IH, find_app.
  destruct (find (declares k) (rev cls)) as [e'|]; [reflexivity|].
  simpl. rewrite parse_class_node. unfold declares.
  destruct (class_iri_of e) as [iri|]; simpl; [|reflexivity].
  rewrite get_set. destruct (Str.eqb k iri) eqn:E; [|reflexivity].
  apply eqb_eq in E. subst. reflexivity.
Qed.

Lemma extract_all_keys_eq root :
  Dict.keys (fst (extract_all root))
  = first_occurrences (class_iris (findall_deep root (qname OWL_NS "Class"))).
Proof. unfold extract_all. rewrite fold_parse_keys_eq. reflexivity. Qed.

Lemma extract_all_get root k :
  Dict.get (fst (extract_all root)) k
  = option_map (fun e => node_of e k)
      (last_declaration (findall_deep root (qname OWL_NS "Class")) k).
Proof.
  unfold extract_all. rewrite fold_parse_get.
  destruct (last_declaration _ k); reflexivity.
Qed.

Lemma parse_owl_nodes root : fst (parse_owl_root root) = fst (extract_all root).
Proof. rewrite parse_owl_root_eq. reflexivity. Qed.

Lemma last_declaration_some cls k e :
  last_declaration cls k = Some e ->
  In e cls /\ class_iri_of e = Some k /\ k <> [].
Proof.
  unfold last_declaration. intros H. apply find_some in H as [Hin Hd].
  apply (proj2 (in_rev _ _)) in Hin. split; [exact Hin|].
  unfold declares in Hd. destruct (class_iri_of e) as [iri|] eqn:E;
    [|discriminate].
  apply eqb_eq in Hd. subst iri. split; [reflexivity|].
  unfold class_iri_of in E.
  destruct (get_attr e (qname RDF_NS "about")) as [a|]; [|discriminate].
  destruct (truthy a) eqn:Et; [|discriminate]. inversion E; subst.
  apply truthy_true. exact Et.
Qed.

Lemma last_declaration_app pre e post k :
  class_iri_of e = Some k ->
  Forall (fun e' => class_iri_of e' <> Some k) post ->
  last_declaration (pre ++ e :: post) k = Some e.
Proof.
  intros He Hp. unfold last_declaration.
  rewrite rev_app_distr. simpl. rewrite <- app_assoc, find_app.
  rewrite (find_none_all (declares k) (rev post)).
  - simpl. unfold declares. rewrite He, eqb_refl. reflexivity.
  - apply Forall_rev. eapply Forall_impl; [|exact Hp].
    intros e' H. unfold declares.
    destruct (class_iri_of e') as [iri|] eqn:E'; [|reflexivity].
    apply eqb_neq. congruence.
Qed.

(** X7: the keys of the node mapping are the identities the class
    elements declare, each once, in the order of their first declaration;
    there are no more nodes than class elements. *)
Theorem node_mapping_keys root :
  let nodes := fst (parse_owl_root root) in
  let cls := findall_deep root (qname OWL_NS "Class") in
  Dict.keys nodes = first_occurrences (class_iris cls) /\
  NoDup (Dict.keys nodes) /\
  (forall k, In k (Dict.keys nodes) <-> In k (class_iris cls)) /\
  length nodes <= length cls.
Proof.
  cbv zeta. rewrite parse_owl_nodes, extract_all_keys_eq.
  set (cls := findall_deep root (qname OWL_NS "Class")).
  assert (NoDup (first_occurrences (class_iris cls))) as Hn
    by (apply fold_add_NoDup; constructor).
  assert (forall k, In k (first_occurrences (class_iris cls)) <->
                    In k (class_iris cls)) as Hi.
  { intros k. unfold first_occurrences. rewrite fold_add_In. simpl. tauto. }
  split; [reflexivity|]. split; [exact Hn|]. split; [exact Hi|].
  rewrite <- (length_map fst (fst (extract_all root))).
  change (map fst (fst (extract_all root)))
    with (Dict.keys (fst (extract_all root))).
  rewrite extract_all_keys_eq. fold cls.
  apply Nat.le_trans with (length (class_iris cls)).
  - apply NoDup_incl_length; [exact Hn|]. intros k. apply Hi.
  - clear. unfold class_iris. induction cls as [|e cls IH]; simpl; [lia|].
    rewrite length_app. destruct (class_iri_of e); simpl; lia.
Qed.

(** X8: the record stored for an identity is the one built from the
    last class element that declares it: a later declaration of the same
    identity replaces label, fragment and level of the earlier one. *)
Theorem last_declaration_wins root :
  let nodes := fst (parse_owl_root root) in
  let cls := findall_deep root (qname OWL_NS "Class") in
  (forall k,
     Dict.get nodes k
     = option_map (fun e => node_of e k) (last_declaration cls k)) /\
  (forall pre e post k,
     cls = pre ++ e :: post -> class_iri_of e = Some k ->
     Forall (fun e' => class_iri_of e' <> Some k) post ->
     Dict.get nodes k = Some (node_of e k)).
Proof.
  cbv zeta. rewrite parse_owl_nodes. split; [apply extract_all_get|].
  intros pre e post k E He Hp.
  rewrite extract_all_get, E, (last_declaration_app pre e post k He Hp).
  reflexivity.
Qed.

(** X9: every record of the node mapping has a non-empty identity,
    is stored under it, carries the fragment of that identity and a label
    without whitespace at its ends, and has either no level at all or a
    level number of dotted digits with one of the three keywords as its
    type. *)
Theorem node_records_wellformed root k n :
  Dict.get (fst (parse_owl_root root)) k = Some n ->
  k <> [] /\ id n = k /\
  raw_fragment n = extract_fragment k /\
  Str.strip (label n) = label n /\
  ((level_number n = None /\ level_type n = None) \/
   (exists num ty,
      level_number n = Some num /\ level_type n = Some ty /\
      In ty KEYWORDS /\ dotted_digits num)).
Proof.
  rewrite parse_owl_nodes, extract_all_get.
  destruct (last_declaration _ k) as [e|] eqn:E; [|discriminate].
  simpl. intros H. inversion H; subst n. clear H.
  apply last_declaration_some in E as (_ & _ & Hk).
  split; [exact Hk|]. split; [reflexivity|]. split; [reflexivity|].
  split; [apply label_trimmed|]. simpl.
  destruct (extract_both_or_none (Some (comment_text e)))
    as [-> | (num & ty & Hm)]; [left; auto|].
  right. exists num, ty. rewrite Hm. simpl.
  apply extract_shape in Hm as (_ & _ & _ & _ & _ & Hin & _ & _ & _ & D & _).
  auto.
Qed.

End WithRuntime.
End NodeFacts.

(** ** The shape of the rendered trees *)

Module ShapeFacts.
Import StrFacts DictFacts SSetFacts ResultFacts SortFacts ForestFacts.

Lemma subtrees_unfold i l f n y kids c u :
  In u (subtrees (TNode i l f n y kids c)) <->
  u = TNode i l f n y kids c \/ exists k, In k kids /\ In u (subtrees k).
Proof.
  simpl.
  assert (forall ts,
            In u ((fix go (l0 : list tree) : list tree :=
                     match l0 with
                     | [] => []
                     | k :: l' => subtrees k ++ go l'
                     end) ts) <->
            exists k, In k ts /\ In u (subtrees k)) as Hgo.
  { induction ts as [|k ts IH]; simpl.
    - split; [intros [] | intros (k & [] & _)].
    - rewrite in_app_iff, IH. split.
      + intros [H | (k' & Hk & H)]; eauto.
      + intros (k' & [<- | Hk] & H); eauto. }
  rewrite Hgo. split; intros [H | H]; auto.
Qed.

Lemma subtrees_self t : In t (subtrees t).
Proof. destruct t. apply subtrees_unfold. left. reflexivity. Qed.

Lemma subtrees_all (Q : tree -> Prop) n kids c :
  Q (node_dict n kids c) ->
  Forall (fun k => Forall Q (subtrees k)) kids ->
  Forall Q (subtrees (node_dict n kids c)).
Proof.
  intros Hq Hk. apply Forall_forall. intros u Hu. unfold node_dict in Hu.
  apply subtrees_unfold in Hu as [-> | (k & Hin & Hu)]; [exact Hq|].
  rewrite Forall_forall in Hk. specialize (Hk k Hin).
  rewrite Forall_forall in Hk. auto.
Qed.

Lemma forall2_impl {A B} (R1 R2 : A -> B -> Prop) l l' :
  (forall a b, In a l -> R1 a b -> R2 a b) ->
  Forall2 R1 l l' -> Forall2 R2 l l'.
Proof.
  intros H F. induction F as [|a b l l' Hab _ IH]; constructor.
  - apply H; [left; reflexivity | exact Hab].
  - apply IH. intros; apply H; [right|]; assumption.
Qed.

Lemma forall2_map_eq {A B} (g : B -> A) l l' :
  Forall2 (fun a b => g b = a) l l' -> map g l' = l.
Proof. induction 1; simpl; congruence. Qed.

Lemma forall2_forall_r {A B} (R : A -> B -> Prop) (Q : B -> Prop) l l' :
  Forall2 R l l' -> (forall a b, R a b -> Q b) -> Forall Q l'.
Proof. intros F H. induction F; constructor; eauto. Qed.

Section WithNodes.
Context {rt : PyRuntime}.
Variable nodes : list (pystr * NodeBase).
Variable cbp : list (pystr * list pystr).

(** What holds of every result of the walk: it is enough to show it for
    the cycle leaf and for a node whose children have it. *)
Lemma render_shape (P : list pystr -> pystr -> tree -> Prop) :
  (forall path node_id n,
     SSet.mem node_id path = true -> lookup nodes node_id = Ok n ->
     P path node_id (node_dict n [] true)) ->
  (forall path node_id n kids ts,
     SSet.mem node_id path = false ->
     Sort.sorted (node_sort_key nodes) (children_of cbp node_id) = Ok kids ->
     lookup nodes node_id = Ok n ->
     Forall2 (P (path ++ [node_id])) kids ts ->
     P path node_id (node_dict n ts false)) ->
  forall fuel node_id path seen t seen',
    render nodes cbp fuel node_id path seen = Ok (t, seen') ->
    P path node_id t.
Proof.
  intros Hc Hd. induction fuel as [|fuel IH];
    intros node_id path seen t seen' H; [discriminate|].
  destruct (SSet.mem node_id path) eqn:Em.
  - rewrite render_cycle in H by assumption.
    apply bind_ok in H as (n & Hn & H). inversion H; subst. auto.
  - rewrite render_descend in H by assumption.
    apply bind_ok in H as (kids & Hs & H).
    apply bind_ok in H as (n & Hn & H).
    apply bind_ok in H as ([ts s2] & He & H). inversion H; subst.
    apply Hd with kids; auto.
    apply each_ok in He. eapply forall2_impl; [|exact He].
    intros c u _ (s1 & s3 & Hu). eapply IH; eauto.
Qed.

Lemma each_shape (P : pystr -> tree -> Prop) fuel path ids : forall seen ts seen',
  (forall node_id seen t seen',
     render nodes cbp fuel node_id path seen = Ok (t, seen') -> P node_id t) ->
  each (fun r s => render nodes cbp fuel r path s) ids seen = Ok (ts, seen') ->
  Forall2 P ids ts.
Proof.
  intros seen ts seen' H He. apply each_ok in He.
  eapply forall2_impl; [|exact He].
  intros c u _ (s1 & s3 & Hu). eapply H; eauto.
Qed.

(** The identity of a rendered node is the identity it was rendered
    for. *)
Lemma render_id :
  keyed nodes ->
  forall fuel node_id path seen t seen',
    render nodes cbp fuel node_id path seen = Ok (t, seen') ->
    t_id t = node_id.
Proof.
  intros Hk.
  apply (render_shape (fun _ node_id t => t_id t = node_id)).
  - intros path node_id n _ Hn. apply lookup_ok in Hn. apply Hk, Hn.
  - intros path node_id n kids ts _ _ Hn _. apply lookup_ok in Hn.
    apply Hk, Hn.
Qed.

(** Every node of the output carries a record of the mapping. *)
Lemma render_records :
  forall fuel node_id path seen t seen',
    render nodes cbp fuel node_id path seen = Ok (t, seen') ->
    Forall (fun u => exists k n, Dict.get nodes k = Some n /\
                                 u = node_dict n (t_children u) (t_cycle u))
           (subtrees t).
Proof.
  apply (render_shape
           (fun _ _ t =>
              Forall (fun u => exists k n, Dict.get nodes k = Some n /\
                          u = node_dict n (t_children u) (t_cycle u))
                     (subtrees t))).
  - intros path node_id n _ Hn. apply lookup_ok in Hn.
    apply subtrees_all; [|constructor]. exists node_id, n. auto.
  - intros path node_id n kids ts _ _ Hn Hk. apply lookup_ok in Hn.
    apply subtrees_all; [exists node_id, n; auto|].
    eapply forall2_forall_r; [exact Hk|]. auto.
Qed.

(** The flag and the ancestors. *)
Lemma render_path_sound :
  keyed nodes ->
  forall fuel node_id path seen t seen',
    render nodes cbp fuel node_id path seen = Ok (t, seen') ->
    path_sound path t.
Proof.
  intros Hk.
  apply (render_shape (fun path node_id t => path_sound path t)).
  - intros path node_id n Hm Hn. apply lookup_ok in Hn.
    unfold node_dict. constructor. rewrite (Hk _ _ Hn).
    apply mem_In. exact Hm.
  - intros path node_id n kids ts Hm _ Hn Hf. apply lookup_ok in Hn.
    unfold node_dict. rewrite (Hk _ _ Hn). constructor.
    + apply mem_false. exact Hm.
    + eapply forall2_forall_r; [exact Hf|]. auto.
Qed.

(** The children of a rendered node are the children the index has for
    it, each once. *)
Lemma render_children :
  keyed nodes ->
  (forall p, NoDup (children_of cbp p)) ->
  forall fuel node_id path seen t seen',
    render nodes cbp fuel node_id path seen = Ok (t, seen') ->
    t_id t = node_id /\
    Forall (fun u =>
              if t_cycle u then t_children u = []
              else Permutation (map t_id (t_children u))
                               (children_of cbp (t_id u)))
           (subtrees t).
Proof.
  intros Hk Hn.
  apply (render_shape
           (fun _ node_id t =>
              t_id t = node_id /\
              Forall (fun u =>
                        if t_cycle u then t_children u = []
                        else Permutation (map t_id (t_children u))
                                         (children_of cbp (t_id u)))
                     (subtrees t))).
  - intros path node_id n _ Hl. apply lookup_ok in Hl.
    split; [apply Hk, Hl|]. apply subtrees_all; [reflexivity | constructor].
  - intros path node_id n kids ts _ Hs Hl Hf. apply lookup_ok in Hl.
    split; [apply Hk, Hl|]. apply subtrees_all.
    + simpl. rewrite (Hk _ _ Hl).
      rewrite (forall2_map_eq t_id kids ts).
      * eapply sorted_perm; eauto.
      * eapply forall2_impl; [|exact Hf]. intros a b _ [H _]. exact H.
    + eapply forall2_forall_r; [exact Hf|]. intros a b [_ H]. exact H.
Qed.

End WithNodes.

End ShapeFacts.

(** ** What the walk covers *)

Module WalkFacts.
Import StrFacts DictFacts SSetFacts ResultFacts SortFacts ForestFacts.
Import ShapeFacts.

Lemma walked_unfold i l f n y kids c k :
  In k (walked (TNode i l f n y kids c)) <->
  (c = false /\ k = i) \/ exists u, In u kids /\ In k (walked u).
Proof.
  unfold walked. rewrite in_map_iff. split.
  - intros (u & <- & Hu). apply filter_In in Hu as [Hu Hc].
    apply subtrees_unfold in Hu as [-> | (v & Hv & Hu)].
    + left. simpl in *. apply negb_true_iff in Hc. auto.
    + right. exists v. split; [exact Hv|]. apply in_map, filter_In. auto.
  - intros [[-> ->] | (u & Hu & Hk)].
    + exists (TNode i l f n y kids false). split; [reflexivity|].
      apply filter_In. split; [apply subtrees_self | reflexivity].
    + apply in_map_iff in Hk as (v & <- & Hv).
      apply filter_In in Hv as [Hv Hc]. exists v. split; [reflexivity|].
      apply filter_In. split; [|exact Hc].
      apply subtrees_unfold. right. eauto.
Qed.

Lemma descends_trans edges a b c :
  descends edges a b -> descends edges b c -> descends edges a c.
Proof.
  intros Hab Hbc. induction Hbc as [|p c Hbp IH Hin]; [exact Hab|].
  eapply D_step; eauto.
Qed.

Lemma descends_edge edges p c : In (c, p) edges -> descends edges p c.
Proof. intros H. eapply D_step; [apply D_self | exact H]. Qed.

Section WithNodes.
Context {rt : PyRuntime}.
Variable nodes : list (pystr * NodeBase).
Variable cbp : list (pystr * list pystr).

(** The walk adds to [seen] the identities of the nodes it renders that
    are no cycle leaves. *)
Lemma render_walked :
  keyed nodes ->
  forall fuel node_id path seen t seen',
    render nodes cbp fuel node_id path seen = Ok (t, seen') ->
    forall k, In k seen' <-> In k seen \/ In k (walked t).
Proof.
  intros Hk. induction fuel as [|fuel IH];
    intros node_id path seen t seen' H k; [discriminate|].
  destruct (SSet.mem node_id path) eqn:Em.
  - rewrite render_cycle in H by assumption.
    apply bind_ok in H as (n & Hn & H). inversion H; subst.
    unfold node_dict. rewrite walked_unfold. split; [auto|].
    intros [H1 | [[H1 _] | (u & [] & _)]]; [exact H1 | discriminate H1].
  - rewrite render_descend in H by assumption.
    apply bind_ok in H as (kids & Hs & H).
    apply bind_ok in H as (n & Hn & H).
    apply bind_ok in H as ([ts s2] & He & H). inversion H; subst.
    apply lookup_ok in Hn. pose proof (Hk _ _ Hn) as Ei.
    unfold node_dict. rewrite walked_unfold, Ei.
    assert (forall l s us s',
              each (fun c s0 => render nodes cbp fuel c (path ++ [node_id]) s0)
                   l s = Ok (us, s') ->
              In k s' <-> In k s \/ exists u, In u us /\ In k (walked u))
      as Hall.
    { clear -IH. induction l as [|c l IHl]; intros s us s' H; simpl in H.
      - inversion H; subst. split; [auto|].
        intros [H1 | (u & [] & _)]. exact H1.
      - apply bind_ok in H as ([u s1] & Hu & H).
        apply bind_ok in H as ([us' s3] & Hus & H). inversion H; subst.
        rewrite (IHl _ _ _ Hus), (IH _ _ _ _ _ Hu k). split.
        + intros [[H1 | H1] | (v & Hv & H1)]; auto.
          * right. exists u. split; [left; reflexivity | exact H1].
          * right. exists v. split; [right; exact Hv | exact H1].
        + intros [H1 | (v & [<- | Hv] & H1)]; auto. right. eauto. }
    rewrite (Hall _ _ _ _ He), add_In. split.
    + intros [[-> | H1] | H1]; auto.
    + intros [H1 | [[_ ->] | H1]]; auto.
Qed.

(** Whatever the walk adds to [seen] is the node it was called for or is
    below it. *)
Lemma render_below edges :
  (forall c p, In c (children_of cbp p) -> In (c, p) edges) ->
  forall fuel node_id path seen t seen',
    render nodes cbp fuel node_id path seen = Ok (t, seen') ->
    forall k, In k seen' -> In k seen \/ descends edges node_id k.
Proof.
  intros Hc. induction fuel as [|fuel IH];
    intros node_id path seen t seen' H k Hin; [discriminate|].
  destruct (SSet.mem node_id path) eqn:Em.
  - rewrite render_cycle in H by assumption.
    apply bind_ok in H as (n & Hn & H). inversion H; subst. auto.
  - rewrite render_descend in H by assumption.
    apply bind_ok in H as (kids & Hs & H).
    apply bind_ok in H as (n & Hn & H).
    apply bind_ok in H as ([ts s2] & He & H). inversion H; subst.
    apply sorted_perm in Hs.
    assert (forall l s us s',
              incl l kids ->
              each (fun c s0 => render nodes cbp fuel c (path ++ [node_id]) s0)
                   l s = Ok (us, s') ->
              In k s' -> In k s \/ descends edges node_id k) as Hall.
    { clear -IH Hs Hc. induction l as [|c l IHl]; intros s us s' Hi H Hin;
        simpl in H.
      - inversion H; subst. auto.
      - apply bind_ok in H as ([u s1] & Hu & H).
        apply bind_ok in H as ([us' s3] & Hus & H). inversion H; subst.
        destruct (IHl _ _ _ (fun x Hx => Hi x (or_intror Hx)) Hus Hin)
          as [H1 | H1]; [|auto].
        destruct (IH _ _ _ _ _ Hu k H1) as [H2 | H2]; [auto|].
        right. eapply descends_trans; [|exact H2].
        apply descends_edge, Hc. eapply Permutation_in; [exact Hs|].
        apply Hi. left. reflexivity. }
    destruct (Hall _ _ _ _ (incl_refl _) He Hin) as [H1 | H1]; [|auto].
    apply add_In in H1 as [-> | H1]; [right; apply D_self | auto].
Qed.

(** The walk leaves [seen] settled: it has walked all the children of
    every node it has added. *)
Lemma render_settled :
  forall fuel node_id path seen t seen',
    render nodes cbp fuel node_id path seen = Ok (t, seen') ->
    settled cbp path seen ->
    settled cbp path seen' /\ In node_id seen' /\ incl seen seen'.
Proof.
  induction fuel as [|fuel IH];
    intros node_id path seen t seen' H [Hp Hs]; [discriminate|].
  destruct (SSet.mem node_id path) eqn:Em.
  - rewrite render_cycle in H by assumption.
    apply bind_ok in H as (n & Hn & H). inversion H; subst.
    split; [split; assumption|]. split; [|apply incl_refl].
    apply Hp, mem_In, Em.
  - rewrite render_descend in H by assumption.
    apply bind_ok in H as (kids & Hk & H).
    apply bind_ok in H as (n & Hn & H).
    apply bind_ok in H as ([ts s2] & He & H). inversion H; subst.
    apply sorted_perm in Hk.
    assert (settled cbp (path ++ [node_id]) (SSet.add node_id seen)) as S1.
    { split.
      - intros x Hx. apply add_In. apply in_app_or in Hx as [Hx | [<- | []]];
          auto.
      - intros p Hin. apply add_In in Hin as [-> | Hin].
        + left. apply in_elt.
        + destruct (Hs p Hin) as [H1 | H1].
          * left. apply in_or_app. auto.
          * right. intros c Hc. apply add_In. auto. }
    assert (forall l s us s',
              each (fun c s0 => render nodes cbp fuel c (path ++ [node_id]) s0)
                   l s = Ok (us, s') ->
              settled cbp (path ++ [node_id]) s ->
              settled cbp (path ++ [node_id]) s' /\ incl l s' /\ incl s s')
      as Hall.
    { clear -IH. induction l as [|c l IHl]; intros s us s' H S; simpl in H.
      - inversion H; subst.
        split; [exact S|]. split; [intros x [] | apply incl_refl].
      - apply bind_ok in H as ([u s1] & Hu & H).
        apply bind_ok in H as ([us' s3] & Hus & H). inversion H; subst.
        destruct (IH _ _ _ _ _ Hu S) as (S' & Hc & Hi).
        destruct (IHl _ _ _ Hus S') as (S'' & Hl & Hi').
        split; [exact S''|]. split.
        + intros x [<- | Hx]; auto.
        + eapply incl_tran; eauto. }
    destruct (Hall _ _ _ _ He S1) as ([Hp2 Hs2] & Hkids & Hi).
    split; [split|split].
    + intros x Hx. apply Hp2, in_or_app. auto.
    + intros p Hin. destruct (Hs2 p Hin) as [H1 | H1]; [|auto].
      apply in_app_or in H1 as [H1 | [<- | []]]; [auto|].
      right. intros c Hc. apply Hkids.
      apply (Permutation_in _ (Permutation_sym Hk)). exact Hc.
    + apply Hi, add_In. auto.
    + eapply incl_tran; [apply add_incl | exact Hi].
Qed.

End WithNodes.

(** *** The index *)

Section Index.
Context {rt : PyRuntime}.

Lemma fold_children_NoDup edges : forall st p,
  NoDup (cbp_get (fst st) p) ->
  NoDup (cbp_get (fst (fold_left index_step edges st)) p).
Proof.
  induction edges as [|[c0 p0] edges IH]; intros st p H; simpl; [exact H|].
  apply IH. simpl. rewrite cbp_add_get.
  destruct (Str.eqb p p0) eqn:E; [|exact H].
  apply eqb_eq in E. subst. apply add_NoDup. exact H.
Qed.

Lemma children_of_NoDup edges p :
  NoDup (children_of (fst (index_edges edges)) p).
Proof.
  rewrite index_edges_fold.
  pose proof (fold_children_NoDup edges ([], []) p (NoDup_nil _)) as H.
  unfold cbp_get in H. unfold children_of.
  destruct (Dict.get _ p) as [cs|]; [|constructor].
  eapply Permutation_NoDup; [|exact H].
  apply Permutation_sym, set_iter_perm.
Qed.

Lemma has_parent_spec edges k :
  has_parent edges k = true <-> exists p, In (k, p) edges.
Proof.
  unfold has_parent. rewrite existsb_exists. split.
  - intros ([c p] & Hin & E). simpl in E. apply eqb_eq in E. subst. eauto.
  - intros (p & Hin). exists (k, p). split; [exact Hin | apply eqb_refl].
Qed.

Lemma count_has_parent edges k :
  Nat.eqb (count_of (snd (index_edges edges)) k) 0
  = negb (has_parent edges k).
Proof.
  destruct (has_parent edges k) eqn:E; simpl.
  - apply Nat.eqb_neq. intros H.
    pose proof (proj1 (count_zero edges k) H) as H'.
    apply has_parent_spec in E as (p & Hp). eapply H'; eauto.
  - apply Nat.eqb_eq. apply (proj2 (count_zero edges k)). intros p Hp.
    assert (has_parent edges k = true) as C
      by (apply has_parent_spec; eauto).
    congruence.
Qed.

Lemma zero_orphans nodes edges :
  filter (fun node_id => Nat.eqb (count_of (snd (index_edges edges)) node_id) 0)
         (Dict.keys nodes)
  = orphans nodes edges.
Proof. unfold orphans. apply filter_ext. intros k. apply count_has_parent. Qed.

Lemma choose_roots_ids nodes edges roots :
  choose_roots nodes (snd (index_edges edges)) = Ok roots ->
  Sort.sorted (node_sort_key nodes) (root_ids nodes edges) = Ok roots.
Proof.
  intros H. apply choose_roots_inv in H. cbv zeta in H.
  rewrite zero_orphans in H. unfold root_ids.
  destruct H as [[Hne H] | [-> H]]; [|exact H].
  destruct (orphans nodes edges); [congruence | exact H].
Qed.

End Index.
End WalkFacts.

(** ** The forest and the seen set *)

Module CoverFacts.
Import StrFacts DictFacts SSetFacts ResultFacts SortFacts ForestFacts.
Import ShapeFacts WalkFacts.

Lemma keys_nonempty {V} (d : list (pystr * V)) :
  d <> [] -> exists k, In k (Dict.keys d).
Proof.
  destruct d as [|[k v] d]; [congruence|]. intros _. exists k. left.
  reflexivity.
Qed.

Section Forest.
Context {rt : PyRuntime}.
Variable nodes : list (pystr * NodeBase).
Variable edges : list (pystr * pystr).

Local Abbreviation cbp := (fst (index_edges edges)).
Local Abbreviation walk :=
  (fun root_id s => render nodes cbp (render_fuel nodes) root_id [] s).

Lemma forest_inv forest seen n :
  build_forest nodes edges = Ok (forest, seen, n) ->
  exists roots,
    Sort.sorted (node_sort_key nodes) (root_ids nodes edges) = Ok roots /\
    Permutation roots (root_ids nodes edges) /\
    each walk roots [] = Ok (forest, seen).
Proof.
  intros H. apply build_forest_inv in H as (roots & Hr & He & _).
  apply choose_roots_ids in Hr. exists roots.
  split; [exact Hr|]. split; [|exact He]. eapply sorted_perm; eauto.
Qed.

Lemma forest_each (P : pystr -> tree -> Prop) forest seen n :
  (forall node_id s t s',
     render nodes cbp (render_fuel nodes) node_id [] s = Ok (t, s') ->
     P node_id t) ->
  build_forest nodes edges = Ok (forest, seen, n) ->
  exists roots,
    Sort.sorted (node_sort_key nodes) (root_ids nodes edges) = Ok roots /\
    Forall2 P roots forest.
Proof.
  intros HP H. apply forest_inv in H as (roots & Hs & _ & He).
  exists roots. split; [exact Hs|].
  eapply (each_shape nodes cbp P); [|exact He]. exact HP.
Qed.

Lemma forest_all (Q : tree -> Prop) forest seen n :
  (forall node_id s t s',
     render nodes cbp (render_fuel nodes) node_id [] s = Ok (t, s') -> Q t) ->
  build_forest nodes edges = Ok (forest, seen, n) ->
  Forall Q forest.
Proof.
  intros HQ H.
  destruct (forest_each (fun _ t => Q t) forest seen n HQ H) as (roots & _ & F).
  eapply forall2_forall_r; [exact F|]. auto.
Qed.

Lemma orphans_spec k :
  In k (orphans nodes edges) <->
  In k (Dict.keys nodes) /\ forall p, ~ In (k, p) edges.
Proof.
  unfold orphans. rewrite filter_In, negb_true_iff. split.
  - intros [Hk Hp]. split; [exact Hk|]. intros p Hin.
    assert (has_parent edges k = true) as C
      by (apply has_parent_spec; eauto).
    congruence.
  - intros [Hk Hp]. split; [exact Hk|].
    destruct (has_parent edges k) eqn:E; [|reflexivity].
    apply has_parent_spec in E as (p & Hin). exfalso. eapply Hp; eauto.
Qed.

Lemma root_ids_known : incl (root_ids nodes edges) (Dict.keys nodes).
Proof.
  unfold root_ids. destruct (orphans nodes edges) as [|r rs] eqn:E;
    [apply incl_refl|].
  rewrite <- E. intros k Hk. apply orphans_spec in Hk. tauto.
Qed.

Lemma render_flag :
  forall fuel node_id path seen t seen',
    render nodes cbp fuel node_id path seen = Ok (t, seen') ->
    t_cycle t = SSet.mem node_id path.
Proof.
  apply (render_shape nodes cbp
           (fun path node_id t => t_cycle t = SSet.mem node_id path)).
  - intros path node_id n Hm _. rewrite Hm. reflexivity.
  - intros path node_id n kids ts Hm _ _ _. rewrite Hm. reflexivity.
Qed.

(** X10: the trees of the forest are rendered for the nodes without a
    parent edge, or for all nodes when every node has one; they come in the
    order [sorted] gives these identities, and none of them is a cycle
    leaf. *)
Theorem forest_roots forest seen n :
  keyed nodes ->
  build_forest nodes edges = Ok (forest, seen, n) ->
  Sort.sorted (node_sort_key nodes) (root_ids nodes edges)
  = Ok (map t_id forest) /\
  Permutation (map t_id forest) (root_ids nodes edges) /\
  Forall (fun t => t_cycle t = false) forest /\
  (forall k, In k (orphans nodes edges) <->
             In k (Dict.keys nodes) /\ forall p, ~ In (k, p) edges) /\
  (orphans nodes edges <> [] -> root_ids nodes edges = orphans nodes edges) /\
  (orphans nodes edges = [] -> root_ids nodes edges = Dict.keys nodes).
Proof.
  intros Hk H.
  destruct (forest_each (fun node_id t => t_id t = node_id) forest seen n)
    as (roots & Hs & F); [|exact H|].
  { intros node_id s t s'. apply (render_id nodes cbp Hk). }
  apply forall2_map_eq in F. rewrite F.
  split; [exact Hs|]. split; [eapply sorted_perm; eauto|].
  split.
  { eapply forest_all; [|exact H]. intros node_id s t s' Hr.
    apply render_flag in Hr. exact Hr. }
  split; [apply orphans_spec|]. unfold root_ids.
  destruct (orphans nodes edges); split; congruence.
Qed.

(** X11: every node of the forest, at any depth, carries the five
    fields of the record the mapping has for its identity; the walk invents
    no node and alters no field. *)
Theorem forest_nodes_are_records forest seen n :
  keyed nodes ->
  build_forest nodes edges = Ok (forest, seen, n) ->
  forall t u, In t forest -> In u (subtrees t) ->
    exists nd, Dict.get nodes (t_id u) = Some nd /\
               u = node_dict nd (t_children u) (t_cycle u).
Proof.
  intros Hk H t u Ht Hu.
  assert (Forall (fun t => Forall (fun u => exists k nd,
                      Dict.get nodes k = Some nd /\
                      u = node_dict nd (t_children u) (t_cycle u))
                    (subtrees t)) forest) as F.
  { eapply forest_all; [|exact H]. intros node_id s t' s'.
    apply render_records. }
  rewrite Forall_forall in F. specialize (F t Ht).
  rewrite Forall_forall in F. destruct (F u Hu) as (k & nd & Hg & E).
  exists nd. split; [|exact E].
  rewrite E. simpl. rewrite (Hk _ _ Hg). exact Hg.
Qed.

(** X12: in the forest a cycle leaf has no children, and any other
    node has exactly the children the edge list gives it, each once, however
    often an edge is repeated in the list. *)
Theorem forest_children_complete forest seen n :
  keyed nodes ->
  build_forest nodes edges = Ok (forest, seen, n) ->
  forall t u, In t forest -> In u (subtrees t) ->
    (t_cycle u = true -> t_children u = []) /\
    (t_cycle u = false ->
     NoDup (map t_id (t_children u)) /\
     forall c, In c (map t_id (t_children u)) <-> In (c, t_id u) edges).
Proof.
  intros Hk H t u Ht Hu.
  assert (Forall (fun t => Forall (fun u =>
                      if t_cycle u then t_children u = []
                      else Permutation (map t_id (t_children u))
                                       (children_of cbp (t_id u)))
                    (subtrees t)) forest) as F.
  { eapply forest_all; [|exact H]. intros node_id s t' s' Hr.
    eapply (render_children nodes cbp Hk); [|exact Hr].
    apply children_of_NoDup. }
  rewrite Forall_forall in F. specialize (F t Ht).
  rewrite Forall_forall in F. specialize (F u Hu).
  destruct (t_cycle u); split; try discriminate; intros _; [exact F|].
  split.
  - eapply Permutation_NoDup; [apply Permutation_sym; exact F|].
    apply children_of_NoDup.
  - intros c. rewrite <- children_of_edges. split.
    + apply Permutation_in. exact F.
    + apply Permutation_in, Permutation_sym. exact F.
Qed.

(** X13: a node of the forest is flagged as cycle exactly when its
    identity is that of one of its ancestors in the tree, and then it has no
    children; every other node differs from all its ancestors. *)
Theorem cycle_flag_marks_ancestor forest seen n :
  keyed nodes ->
  build_forest nodes edges = Ok (forest, seen, n) ->
  Forall (path_sound []) forest.
Proof.
  intros Hk H. eapply forest_all; [|exact H].
  intros node_id s t s'. apply (render_path_sound nodes cbp Hk).
Qed.

Lemma each_walked fuel path k ids : forall s ts s',
  keyed nodes ->
  each (fun c s0 => render nodes cbp fuel c path s0) ids s = Ok (ts, s') ->
  In k s' <-> In k s \/ exists u, In u ts /\ In k (walked u).
Proof.
  induction ids as [|c l IHl]; intros s us s' Hk H; simpl in H.
  - inversion H; subst. split; [auto|].
    intros [H1 | (u & [] & _)]. exact H1.
  - apply bind_ok in H as ([u s1] & Hu & H).
    apply bind_ok in H as ([us' s3] & Hus & H). inversion H; subst.
    rewrite (IHl _ _ _ Hk Hus), (render_walked nodes cbp Hk _ _ _ _ _ _ Hu k).
    split.
    + intros [[H1 | H1] | (v & Hv & H1)]; auto.
      * right. exists u. split; [left; reflexivity | exact H1].
      * right. exists v. split; [right; exact Hv | exact H1].
    + intros [H1 | (v & [<- | Hv] & H1)]; auto. right. eauto.
Qed.

Lemma seen_walked forest seen n :
  keyed nodes ->
  build_forest nodes edges = Ok (forest, seen, n) ->
  NoDup seen /\ incl seen (Dict.keys nodes) /\
  length seen <= length nodes /\
  forall k, In k seen <-> exists t, In t forest /\ In k (walked t).
Proof.
  intros Hk H. apply forest_inv in H as (roots & _ & _ & He).
  destruct (roots_seen nodes cbp _ roots [] _ _ He) as ((_ & Hin & Hn) & _).
  assert (NoDup seen) as N by (apply Hn; constructor).
  assert (incl seen (Dict.keys nodes)) as I.
  { intros k Hk'. destruct (Hin k Hk') as [[] | Hx]. exact Hx. }
  split; [exact N|]. split; [exact I|]. split.
  - rewrite <- (length_map fst nodes). apply NoDup_incl_length; assumption.
  - intros k. rewrite (each_walked _ _ k roots [] forest seen Hk He).
    simpl. tauto.
Qed.

(** X14: the seen set holds each identity once, only known nodes, and
    exactly the identities that occur in the forest as a node that is no
    cycle leaf. *)
Theorem seen_counts_walked_nodes forest seen n :
  keyed nodes ->
  build_forest nodes edges = Ok (forest, seen, n) ->
  NoDup seen /\ incl seen (Dict.keys nodes) /\
  length seen <= length nodes /\
  forall k, In k seen <-> exists t, In t forest /\ In k (walked t).
Proof. apply seen_walked. Qed.

Lemma each_below fuel path k ids : forall s ts s',
  each (fun c s0 => render nodes cbp fuel c path s0) ids s = Ok (ts, s') ->
  In k s' -> In k s \/ exists r, In r ids /\ descends edges r k.
Proof.
  induction ids as [|c l IHl]; intros s us s' H Hin; simpl in H.
  - inversion H; subst. auto.
  - apply bind_ok in H as ([u s1] & Hu & H).
    apply bind_ok in H as ([us' s3] & Hus & H). inversion H; subst.
    destruct (IHl _ _ _ Hus Hin) as [H1 | (r & Hr & H1)].
    + destruct (render_below nodes cbp edges
                  (fun c p => proj1 (children_of_edges edges c p))
                  _ _ _ _ _ _ Hu k H1) as [H2 | H2]; [auto|].
      right. exists c. split; [left; reflexivity | exact H2].
    + right. exists r. split; [right; exact Hr | exact H1].
Qed.

Lemma each_settled fuel path ids : forall s ts s',
  each (fun c s0 => render nodes cbp fuel c path s0) ids s = Ok (ts, s') ->
  settled cbp path s ->
  settled cbp path s' /\ incl ids s' /\ incl s s'.
Proof.
  induction ids as [|c l IHl]; intros s us s' H S; simpl in H.
  - inversion H; subst.
    split; [exact S|]. split; [intros x [] | apply incl_refl].
  - apply bind_ok in H as ([u s1] & Hu & H).
    apply bind_ok in H as ([us' s3] & Hus & H). inversion H; subst.
    destruct (render_settled nodes cbp _ _ _ _ _ _ Hu S) as (S' & Hc & Hi).
    destruct (IHl _ _ _ Hus S') as (S'' & Hl & Hi').
    split; [exact S''|]. split.
    + intros x [<- | Hx]; auto.
    + eapply incl_tran; eauto.
Qed.

Lemma seen_reachable forest seen n :
  build_forest nodes edges = Ok (forest, seen, n) ->
  forall k, In k seen <->
            exists r, In r (root_ids nodes edges) /\ descends edges r k.
Proof.
  intros H. apply forest_inv in H as (roots & _ & P & He). intros k. split.
  - intros Hin. destruct (each_below _ _ k roots [] forest seen He Hin)
      as [[] | (r & Hr & Hd)].
    exists r. split; [|exact Hd]. eapply Permutation_in; eauto.
  - intros (r & Hr & Hd).
    destruct (each_settled _ _ roots [] forest seen He) as ([_ S] & Hi & _).
    { split; [intros x [] | intros p []]. }
    induction Hd as [|p c Hp IH Hin].
    + apply Hi. eapply Permutation_in; [apply Permutation_sym|]; eauto.
    + destruct (S p IH) as [[] | Hc]. apply Hc.
      apply children_of_edges. exact Hin.
Qed.

(** X15: the seen set is the set of nodes that can be reached from a
    root along the edges, from parent to child: it holds the roots and is
    closed under the edges, and holds nothing else. *)
Theorem seen_is_reachable_set forest seen n :
  build_forest nodes edges = Ok (forest, seen, n) ->
  (forall k, In k seen <->
             exists r, In r (root_ids nodes edges) /\ descends edges r k) /\
  (forall p c, In p seen -> In (c, p) edges -> In c seen) /\
  incl (root_ids nodes edges) seen.
Proof.
  intros H. pose proof (seen_reachable forest seen n H) as R.
  split; [exact R|]. split.
  - intros p c Hp Hin. apply R in Hp as (r & Hr & Hd). apply R.
    exists r. split; [exact Hr|]. eapply D_step; eauto.
  - intros r Hr. apply R. exists r. split; [exact Hr | apply D_self].
Qed.

(** *** Without cycles every node is below a node without parent *)

Lemma climb :
  valid_edges nodes edges -> acyclic edges ->
  forall m k, In k (Dict.keys nodes) ->
    (exists r, In r (orphans nodes edges) /\ descends edges r k) \/
    exists top l, length (top :: l) = S m /\ NoDup (top :: l) /\
                  incl (top :: l) (Dict.keys nodes) /\
                  (forall a, In a (top :: l) -> descends edges top a) /\
                  descends edges top k.
Proof.
  intros Hv Ha. induction m as [|m IH]; intros k Hk.
  - right. exists k, []. split; [reflexivity|].
    split; [repeat constructor; intros []|].
    split; [intros x [<- | []]; exact Hk|].
    split; [intros a [<- | []]; apply D_self | apply D_self].
  - destruct (IH k Hk) as [H | (top & l & Hl & Hn & Hi & Hd & Hk')];
      [left; exact H|].
    destruct (has_parent edges top) eqn:E.
    + apply has_parent_spec in E as (q & Hq). right.
      exists q, (top :: l).
      assert (forall a, In a (top :: l) -> descends edges q a) as Hq'.
      { intros a Hin. eapply descends_trans; [|apply Hd, Hin].
        apply descends_edge. exact Hq. }
      split; [simpl in *; lia|]. split; [|split; [|split]].
      * constructor; [|exact Hn]. intros Hin.
        apply (Ha _ _ Hq). apply Hd. exact Hin.
      * intros x [<- | Hx]; [|auto]. apply (Hv _ _ Hq).
      * intros a [<- | Hin]; [apply D_self | auto].
      * eapply descends_trans; [apply descends_edge; exact Hq | exact Hk'].
    + left. exists top. split; [|exact Hk'].
      unfold orphans. apply filter_In. split; [|rewrite E; reflexivity].
      apply Hi. left. reflexivity.
Qed.

Lemma acyclic_below_orphan :
  valid_edges nodes edges -> acyclic edges ->
  forall k, In k (Dict.keys nodes) ->
    exists r, In r (orphans nodes edges) /\ descends edges r k.
Proof.
  intros Hv Ha k Hk.
  destruct (climb Hv Ha (length nodes) k Hk)
    as [H | (top & l & Hl & Hn & Hi & _)]; [exact H|].
  exfalso. pose proof (NoDup_incl_length Hn Hi) as L.
  unfold Dict.keys in L. rewrite length_map in L. lia.
Qed.

Lemma acyclic_reachable :
  valid_edges nodes edges -> acyclic edges ->
  forall k, In k (Dict.keys nodes) ->
    exists r, In r (root_ids nodes edges) /\ descends edges r k.
Proof.
  intros Hv Ha k Hk.
  destruct (acyclic_below_orphan Hv Ha k Hk) as (r & Hr & Hd).
  exists r. split; [|exact Hd]. unfold root_ids.
  destruct (orphans nodes edges); [destruct Hr | exact Hr].
Qed.

Lemma acyclic_covers forest seen n :
  valid_edges nodes edges -> acyclic edges ->
  build_forest nodes edges = Ok (forest, seen, n) ->
  incl (Dict.keys nodes) seen.
Proof.
  intros Hv Ha H k Hk. apply (seen_reachable forest seen n H).
  apply acyclic_reachable; assumption.
Qed.

(** X16: when the edges join known nodes and close no loop, the walk
    reaches every node: each node is below a node without parent, and a
    mapping that is not empty has such a node. *)
Theorem acyclic_walk_covers_all forest seen n :
  valid_edges nodes edges -> acyclic edges ->
  build_forest nodes edges = Ok (forest, seen, n) ->
  incl (Dict.keys nodes) seen /\
  (forall k, In k (Dict.keys nodes) ->
     exists r, In r (orphans nodes edges) /\ descends edges r k) /\
  (nodes <> [] -> orphans nodes edges <> []).
Proof.
  intros Hv Ha H. split; [eapply acyclic_covers; eauto|].
  split; [apply acyclic_below_orphan; assumption|].
  - intros Hne E. destruct (keys_nonempty nodes Hne) as [k Hk].
    destruct (acyclic_below_orphan Hv Ha k Hk) as (r & Hr & _).
    rewrite E in Hr. destruct Hr.
Qed.

(** *** How the builder can fail *)

Lemma traverse_raise {A B} (f : A -> result B) l e :
  traverse f l = Raise e -> exists a, In a l /\ f a = Raise e.
Proof.
  induction l as [|a l IH]; simpl; [discriminate|].
  destruct (f a) as [b| |] eqn:Ea; simpl; [| |discriminate].
  - destruct (traverse f l) as [bs| |]; simpl; try discriminate.
    intros H. destruct IH as (a' & Hin & Ha'); [exact H|]. eauto.
  - intros H. inversion H; subst. eauto.
Qed.

Lemma sorted_raise {A} (keyf : A -> result Sort.key) l e :
  Sort.sorted keyf l = Raise e -> exists a, In a l /\ keyf a = Raise e.
Proof.
  unfold Sort.sorted. intros H.
  destruct (traverse _ l) as [ks| |] eqn:Et; simpl in H; try discriminate.
  inversion H; subst. apply traverse_raise in Et as (a & Hin & Ha).
  exists a. split; [exact Hin|].
  destruct (keyf a); simpl in Ha; congruence.
Qed.

Lemma each_raise {A B S} (f : A -> S -> result (B * S)) l e : forall s,
  each f l s = Raise e -> exists a s', In a l /\ f a s' = Raise e.
Proof.
  induction l as [|a l IH]; intros s; simpl; [discriminate|].
  destruct (f a s) as [[b s1]| |] eqn:Ea; simpl; [| |discriminate].
  - destruct (each f l s1) as [[bs s2]| |] eqn:El; simpl; try discriminate.
    intros H. inversion H; subst.
    destruct (IH _ El) as (a' & s' & Hin & Ha'). eauto 6.
  - intros H. inversion H; subst. eauto 6.
Qed.

Lemma sort_key_raise k e :
  node_sort_key nodes k = Raise e ->
  e = KeyError k /\ ~ In k (Dict.keys nodes).
Proof.
  unfold node_sort_key, lookup.
  destruct (Dict.get nodes k) as [nd|] eqn:E; simpl; [discriminate|].
  intros H. inversion H; subst. split; [reflexivity|].
  intros Hin. apply keys_get in Hin as [v Hv]. congruence.
Qed.

Lemma render_raise : forall fuel node_id path seen e,
  In node_id (Dict.keys nodes) ->
  render nodes cbp fuel node_id path seen = Raise e ->
  exists c p, e = KeyError c /\ In (c, p) edges /\ ~ In c (Dict.keys nodes).
Proof.
  induction fuel as [|fuel IH]; intros node_id path seen e Hin H;
    [discriminate|].
  apply lookup_keys in Hin as [nd Hl].
  destruct (SSet.mem node_id path) eqn:Em.
  - rewrite render_cycle, Hl in H by assumption. discriminate.
  - rewrite render_descend in H by assumption.
    destruct (Sort.sorted _ _) as [kids| |] eqn:Es; cbn [bind] in H;
      [| |discriminate].
    + rewrite Hl in H. cbn [bind] in H.
      destruct (each _ kids _) as [[ts s2]| |] eqn:Ee; cbn [bind] in H;
        try discriminate.
      inversion H; subst.
      apply each_raise in Ee as (c & s' & Hc & Hr).
      apply IH in Hr; [exact Hr|].
      destruct (sorted_keys_ok _ _ _ _ c Es) as [k Hk].
      * eapply Permutation_in; [eapply sorted_perm; eauto | exact Hc].
      * apply node_sort_key_ok in Hk as (n' & Hn' & _).
        apply lookup_keys. eauto.
    + inversion H; subst. apply sorted_raise in Es as (c & Hc & Hr).
      apply sort_key_raise in Hr as [-> Hn]. exists c, node_id.
      split; [reflexivity|]. split; [|exact Hn].
      apply children_of_edges. exact Hc.
Qed.

Lemma forest_raise e :
  build_forest nodes edges = Raise e ->
  exists c p, e = KeyError c /\ In (c, p) edges /\ ~ In c (Dict.keys nodes).
Proof.
  unfold build_forest.
  destruct (index_edges edges) as [cbp0 pc] eqn:Ei.
  assert (cbp0 = fst (index_edges edges)) as -> by (rewrite Ei; reflexivity).
  destruct (choose_roots_ok nodes pc) as [roots Hr]. rewrite Hr.
  cbn [bind].
  destruct (each _ roots _) as [[forest seen]| |] eqn:Ee; cbn [bind];
    try discriminate.
  intros H. inversion H; subst.
  apply each_raise in Ee as (r & s' & Hin & Hx).
  eapply render_raise; [|exact Hx].
  eapply choose_roots_known; eauto.
Qed.

Lemma forest_ok_children :
  (forall c p, In (c, p) edges -> In c (Dict.keys nodes)) ->
  exists forest seen,
    build_forest nodes edges
    = Ok (forest, seen, length (distinct_edges edges)).
Proof.
  intros Hv. unfold build_forest.
  destruct (index_edges edges) as [cbp0 pc] eqn:Ei.
  assert (cbp0 = fst (index_edges edges)) as -> by (rewrite Ei; reflexivity).
  destruct (choose_roots_ok nodes pc) as [roots Hr]. rewrite Hr. cbn [bind].
  destruct (each_all_ok
              (fun root_id s =>
                 render nodes cbp (render_fuel nodes) root_id [] s) roots)
    with (s := @nil pystr) as (forest & seen & ->); [|simpl; eauto].
  intros r s Hin. apply render_ok.
  - intros p c H. apply children_of_edges in H. apply (Hv c p H).
  - eapply choose_roots_known; eauto.
  - constructor.
  - intros x [].
  - unfold render_fuel. simpl. lia.
Qed.

(** X17: the only exception [build_forest] raises is the [KeyError] of
    an identity that is the child of an edge and is no key of the mapping;
    when the children of all edges are known it returns, whatever the
    parents are. *)
Theorem build_forest_errors :
  (forall e,
     build_forest nodes edges = Raise e ->
     exists c p, e = KeyError c /\ In (c, p) edges /\
                 ~ In c (Dict.keys nodes)) /\
  ((forall c p, In (c, p) edges -> In c (Dict.keys nodes)) ->
   exists forest seen,
     build_forest nodes edges
     = Ok (forest, seen, length (distinct_edges edges))).
Proof. split; [apply forest_raise | apply forest_ok_children]. Qed.

End Forest.
End CoverFacts.

(** ** When a run writes its output *)

Module RunCoverFacts.
Import StrFacts DictFacts SSetFacts ResultFacts SortFacts ForestFacts.
Import ExtractFacts RunFacts ShapeFacts WalkFacts CoverFacts NodeFacts.

Section WithRuntime.
Context {rt : PyRuntime}.

Lemma parse_owl_keyed root : keyed (fst (parse_owl_root root)).
Proof.
  rewrite parse_owl_nodes. intros k n. apply extract_all_ids.
Qed.

Lemma parse_owl_valid root :
  valid_edges (fst (parse_owl_root root)) (snd (parse_owl_root root)).
Proof.
  rewrite parse_owl_root_eq. cbn [fst snd]. intros c p H.
  apply filter_In in H as [_ H]. apply valid_edge_keys in H. exact H.
Qed.

Lemma parse_owl_NoDup root : NoDup (Dict.keys (fst (parse_owl_root root))).
Proof.
  rewrite parse_owl_nodes, extract_all_keys_eq.
  apply fold_add_NoDup. constructor.
Qed.

(** How a run on a well-formed document ends, by what the walk covers. *)
Lemma run_cases src root :
  let nodes := fst (parse_owl_root root) in
  let edges := snd (parse_owl_root root) in
  exists forest seen,
    build_forest nodes edges
    = Ok (forest, seen, length (distinct_edges edges)) /\
    ((~ incl (Dict.keys nodes) seen /\
      written (run src (Parsed root)) = None /\
      status (run src (Parsed root)) = Raise (NameError "level_to_tuple")) \/
     (incl (Dict.keys nodes) seen /\
      written (run src (Parsed root))
      = Some {| source := src; node_count := length nodes;
                edge_count := length (distinct_edges edges);
                roots := forest |} /\
      (status (run src (Parsed root)) = Ok seen \/
       status (run src (Parsed root))
       = Raise (RuntimeError EMPTY_LABELS_MSG)))).
Proof.
  cbv zeta. destruct (run_parsed_cases src root) as (forest & seen & Hb & Hc).
  cbv zeta in Hb, Hc. exists forest, seen. split; [exact Hb|].
  change (run src (Parsed root)) with (run_parsed src root).
  destruct Hc as [[Hn ->] | [(Hi & _ & ->) | (Hi & _ & ->)]]; simpl; auto.
Qed.


(** X19: when the subclass edges of the document close no loop, the
    run writes its output and ends normally or in the validation error,
    never in the [NameError]. *)
Theorem acyclic_run_completes src root :
  acyclic (snd (parse_owl_root root)) ->
  written (run src (Parsed root)) <> None /\
  ((exists seen, status (run src (Parsed root)) = Ok seen) \/
   status (run src (Parsed root)) = Raise (RuntimeError EMPTY_LABELS_MSG)).
Proof.
  intros Ha. destruct (run_cases src root) as (forest & seen & Hb & Hc).
  cbv zeta in Hb, Hc.
  pose proof (acyclic_covers _ _ forest seen _
                (parse_owl_valid root) Ha Hb) as Hi.
  destruct Hc as [(Hc & _) | (_ & -> & Hs)]; [contradiction|].
  split; [discriminate|]. destruct Hs as [-> | ->]; eauto.
Qed.

(** X20: whatever a run writes is the forest as [build_forest]
    returned it, with the source, the number of nodes and the number of
    distinct edges; the walk has then covered every node, so the number of
    covered nodes is the number of nodes, and every node occurs in the
    written forest as a node that is no cycle leaf. *)
Theorem written_output_is_complete src root p :
  let nodes := fst (parse_owl_root root) in
  let edges := snd (parse_owl_root root) in
  written (run src (Parsed root)) = Some p ->
  exists seen,
    build_forest nodes edges = Ok (roots p, seen, edge_count p) /\
    source p = src /\ node_count p = length nodes /\
    Permutation seen (Dict.keys nodes) /\ length seen = node_count p /\
    (forall k, In k (Dict.keys nodes) ->
       exists t, In t (roots p) /\ In k (walked t)) /\
    (status (run src (Parsed root)) = Ok seen \/
     status (run src (Parsed root)) = Raise (RuntimeError EMPTY_LABELS_MSG)).
Proof.
  cbv zeta. intros Hw.
  destruct (run_cases src root) as (forest & seen & Hb & Hc).
  cbv zeta in Hb, Hc.
  destruct Hc as [(_ & Hn & _) | (Hi & Hp & Hs)]; [congruence|].
  rewrite Hp in Hw. inversion Hw; subst p. clear Hw. simpl.
  exists seen. split; [exact Hb|]. split; [reflexivity|].
  split; [reflexivity|].
  destruct (seen_walked _ _ forest seen _
              (parse_owl_keyed root) Hb) as (N & I & _ & W).
  assert (Permutation seen (Dict.keys (fst (parse_owl_root root)))) as P.
  { apply NoDup_Permutation; [exact N | apply parse_owl_NoDup|].
    intros k. split; [apply I | apply Hi]. }
  split; [exact P|]. split.
  - rewrite (Permutation_length P). unfold Dict.keys. apply length_map.
  - split; [|exact Hs]. intros k Hk. apply W, Hi, Hk.
Qed.

End WithRuntime.
End RunCoverFacts.

(** ** Word boundaries of a level match *)

Module BoundaryFacts.
Import StrFacts ReFacts LevelFacts LevelTupleFacts.
Import Re.

Section WithRuntime.
Context {rt : PyRuntime}.

Lemma lastc_snoc prev w c : lastc prev (w ++ [c]) = Some c.
Proof. rewrite lastc_app. reflexivity. Qed.

Lemma lastc_dotted prev num :
  dotted_digits num -> word_opt (lastc prev num) = true.
Proof.
  intros (parts & Hne & Hd & ->). revert prev.
  induction Hd as [|p ps Hp Hps IH]; [congruence|]. intros prev.
  destruct ps as [|q ps].
  - simpl. apply lastc_digits. exact Hp.
  - rewrite join_cons, !lastc_app. apply IH. discriminate.
Qed.

Lemma boundary_after_word prev post :
  word_opt prev = true -> at_boundary prev post = true ->
  forall c post', post = c :: post' -> Str.is_word c = false.
Proof.
  unfold at_boundary. intros -> H c post' ->. simpl in H.
  destruct (Str.is_word c); [discriminate H | reflexivity].
Qed.

Lemma boundary_before_word pre x tail :
  Str.is_word x = true -> at_boundary (lastc None pre) (x :: tail) = true ->
  forall pre' c, pre = pre' ++ [c] -> Str.is_word c = false.
Proof.
  unfold at_boundary. intros Hx H pre' c ->. rewrite lastc_snoc in H.
  simpl in H. rewrite Hx in H.
  destruct (Str.is_word c); [discriminate H | reflexivity].
Qed.

Lemma keyword_head ty kwt :
  In ty KEYWORDS -> ci_eq ty kwt ->
  exists x kwt', kwt = x :: kwt' /\ Str.is_word x = true.
Proof.
  intros Hin Hci.
  pose proof (ci_eq_letters ty kwt (keywords_letters ty Hin) Hci) as L.
  destruct Hci as [|c x kw kwt' _ _].
  - destruct Hin as [E | [E | [E | []]]]; discriminate E.
  - exists x, kwt'. split; [reflexivity|].
    inversion L; subst. apply letter_is_word. assumption.
Qed.

(** X21: a level is extracted only from a keyword that begins a word
    and a number that ends one: the character before the keyword and the
    character behind the number, if there are any, are no letters, digits or
    underscores.  So Obergruppe 3, Gruppe 3a and Gruppe 3_1 give no level,
    and Gruppe 3.x gives 3. *)
Theorem level_match_at_word_boundaries :
  (forall comment num ty,
     extract_level_metadata comment = (Some num, Some ty) ->
     exists pre kwt ws post,
       normalize comment = pre ++ kwt ++ ws ++ num ++ post /\
       ci_eq ty kwt /\ Forall (fun c => Str.isspace c = true) ws /\
       (forall pre' c, pre = pre' ++ [c] -> Str.is_word c = false) /\
       (forall c post', post = c :: post' -> Str.is_word c = false)) /\
  extract_level_metadata (Some (Str.lit "Obergruppe 3")) = (None, None) /\
  extract_level_metadata (Some (Str.lit "Gruppe 3a")) = (None, None) /\
  extract_level_metadata (Some (Str.lit "Gruppe 3_1")) = (None, None) /\
  extract_level_metadata (Some (Str.lit "Gruppe 3.x"))
  = (Some (Str.lit "3"), Some (Str.lit "Gruppe")).
Proof.
  split; [|repeat split; vm_compute; reflexivity].
  intros comment num ty H.
  apply extract_shape
    in H as (pre & kwt & ws & post & E & Hin & Hci & B1 & Fws & D & B2).
  exists pre, kwt, ws, post.
  split; [exact E|]. split; [exact Hci|]. split; [exact Fws|]. split.
  - destruct (keyword_head ty kwt Hin Hci) as (x & kwt' & -> & Hx).
    eapply boundary_before_word; [exact Hx | exact B1].
  - eapply boundary_after_word; [|exact B2].
    rewrite !app_assoc, lastc_app. apply lastc_dotted. exact D.
Qed.

End WithRuntime.
End BoundaryFacts.

(** ** The sentinel of [level_to_tuple] *)

Module FallbackFacts.
Import StrFacts LevelTupleFacts.

Section WithRuntime.
Context {rt : PyRuntime}.

Lemma py_int_empty : py_int [] = None.
Proof. reflexivity. Qed.

Lemma all_some_none {A} (l : list (option A)) :
  In None l -> all_some l = None.
Proof.
  induction l as [|[a|] l IH]; intros H; [destruct H | | reflexivity].
  simpl. destruct H as [H | H]; [discriminate H|]. rewrite IH by exact H.
  reflexivity.
Qed.

Lemma all_some_length {A} (l : list (option A)) t :
  all_some l = Some t -> length t = length l.
Proof.
  revert t. induction l as [|[a|] l IH]; intros t H; simpl in H.
  - inversion H. reflexivity.
  - destruct (all_some l) as [t'|]; [|discriminate]. simpl in H.
    inversion H; subst. simpl. f_equal. apply IH. reflexivity.
  - discriminate.
Qed.

Lemma split_on_nonempty ch s : split_on ch s <> [].
Proof.
  induction s as [|c s IH]; simpl; [discriminate|].
  destruct (N.eqb c ch); [discriminate|].
  destruct (split_on ch s); discriminate.
Qed.

Lemma split_on_app ch a b :
  split_on ch (a ++ ch :: b) = split_on ch a ++ split_on ch b.
Proof.
  induction a as [|c a IH]; simpl.
  - rewrite N.eqb_refl. reflexivity.
  - destruct (N.eqb c ch); [rewrite IH; reflexivity|].
    rewrite IH. pose proof (split_on_nonempty ch a) as Hne.
    destruct (split_on ch a); [congruence | reflexivity].
Qed.

Lemma level_empty_segment l :
  In [] (split_on 46 l) -> level_to_tuple (Some l) = SENTINEL.
Proof.
  intros H. unfold level_to_tuple. destruct l as [|c l]; [reflexivity|].
  rewrite all_some_none; [reflexivity|].
  apply in_map_iff. exists []. split; [apply py_int_empty | exact H].
Qed.

Lemma level_nonempty level : level_to_tuple level <> [].
Proof.
  unfold level_to_tuple. destruct level as [[|c l]|]; try discriminate.
  destruct (all_some _) as [t|] eqn:E; [|discriminate].
  apply all_some_length in E. rewrite length_map in E.
  pose proof (split_on_nonempty 46 (c :: l)) as Hne.
  destruct t; [|discriminate]. destruct (split_on 46 (c :: l)); [congruence|].
  discriminate E.
Qed.

(** X22: [level_to_tuple] never fails and never returns the empty
    tuple; an absent or empty level, and a level with an empty segment (a
    dot at its start or end, or two dots in a row), give the sentinel; any
    other level whose segments all convert gives one entry for each
    segment. *)
Theorem level_to_tuple_fallback :
  level_to_tuple None = SENTINEL /\
  level_to_tuple (Some []) = SENTINEL /\
  (forall a b, level_to_tuple (Some (a ++ 46%N :: 46%N :: b)) = SENTINEL) /\
  (forall b, level_to_tuple (Some (46%N :: b)) = SENTINEL) /\
  (forall a, level_to_tuple (Some (a ++ [46%N])) = SENTINEL) /\
  (forall level, level_to_tuple level <> []) /\
  (forall l t,
     l <> [] -> all_some (map py_int (split_on 46 l)) = Some t ->
     level_to_tuple (Some l) = t /\ length t = length (split_on 46 l)).
Proof.
  split; [reflexivity|]. split; [reflexivity|]. split; [|split; [|split]].
  - intros a b. apply level_empty_segment.
    rewrite split_on_app. apply in_or_app. right. simpl. left. reflexivity.
  - intros b. apply level_empty_segment. simpl. left. reflexivity.
  - intros a. apply level_empty_segment.
    rewrite split_on_app. apply in_or_app. right. simpl. left. reflexivity.
  - split; [apply level_nonempty|].
    intros l t Hne H. unfold level_to_tuple.
    destruct l as [|c l]; [congruence|]. rewrite H.
    split; [reflexivity|]. apply all_some_length in H.
    rewrite length_map in H. exact H.
Qed.

End WithRuntime.
End FallbackFacts.

(** ** Stability of the sort *)

Module StableFacts.
Import StrFacts DictFacts SSetFacts ResultFacts SortFacts ForestFacts.
Import ShapeFacts WalkFacts CoverFacts.

Lemma precedes_cons {A} (a x y : A) l :
  precedes x y l -> precedes x y (a :: l).
Proof.
  intros (l1 & l2 & l3 & ->). exists (a :: l1), l2, l3. reflexivity.
Qed.

Lemma precedes_head {A} (x y : A) l : In y l -> precedes x y (x :: l).
Proof.
  intros H. apply in_split in H as (l2 & l3 & ->).
  exists [], l2, l3. reflexivity.
Qed.

Lemma precedes_inv {A} (a x y : A) l :
  precedes x y (a :: l) -> (a = x /\ In y l) \/ precedes x y l.
Proof.
  intros (l1 & l2 & l3 & E). destruct l1 as [|b l1]; simpl in E.
  - inversion E; subst. left. split; [reflexivity|].
    apply in_or_app. right. left. reflexivity.
  - inversion E; subst. right. exists l1, l2, l3. reflexivity.
Qed.

Lemma precedes_map {A B} (g : A -> B) x y l :
  precedes x y l -> precedes (g x) (g y) (map g l).
Proof.
  intros (l1 & l2 & l3 & ->).
  exists (map g l1), (map g l2), (map g l3).
  rewrite !map_app. simpl. rewrite map_app. reflexivity.
Qed.

Section Decorated.
Variable A : Type.

Lemma insert_keeps (a x y : Sort.key * A) l :
  precedes x y l -> precedes x y (Sort.insert a l).
Proof.
  induction l as [|b l IH]; intros H; simpl.
  - destruct H as (l1 & l2 & l3 & E). destruct l1; discriminate E.
  - destruct (Sort.key_lt (fst b) (fst a)).
    + apply precedes_inv in H as [[-> Hy] | H].
      * apply precedes_head.
        apply (Permutation_in _ (Permutation_sym (insert_perm A a l))).
        right. exact Hy.
      * apply precedes_cons, IH, H.
    + apply precedes_cons, H.
Qed.

Lemma insert_first (x y : Sort.key * A) l :
  In y l -> Sort.key_lt (fst y) (fst x) = false ->
  precedes x y (Sort.insert x l).
Proof.
  induction l as [|b l IH]; intros Hy Hlt; [destruct Hy|]. simpl.
  destruct (Sort.key_lt (fst b) (fst x)) eqn:E.
  - destruct Hy as [-> | Hy]; [congruence|].
    apply precedes_cons, IH; assumption.
  - apply precedes_head. exact Hy.
Qed.

(** The sort is stable: of two elements of which the second has no
    smaller key, the first stays first. *)
Lemma sort_stable (x y : Sort.key * A) l :
  precedes x y l -> Sort.key_lt (fst y) (fst x) = false ->
  precedes x y (Sort.sort_decorated l).
Proof.
  induction l as [|a l IH]; intros H Hlt; simpl.
  - destruct H as (l1 & l2 & l3 & E). destruct l1; discriminate E.
  - apply precedes_inv in H as [[-> Hy] | H].
    + apply insert_first; [|exact Hlt].
      apply (Permutation_in _ (Permutation_sym (sort_perm A l))). exact Hy.
    + apply insert_keeps, IH; assumption.
Qed.

Variable keyf : A -> result Sort.key.

Lemma decorated_precedes l ks x y kx ky :
  Forall2 (fun a (ka : Sort.key * A) => keyf a = Ok (fst ka) /\ snd ka = a)
          l ks ->
  keyf x = Ok kx -> keyf y = Ok ky ->
  precedes x y l -> precedes (kx, x) (ky, y) ks.
Proof.
  intros F Ex Ey (l1 & l2 & l3 & ->).
  apply Forall2_app_inv_l in F as (k1 & r1 & F1 & F & ->).
  inversion F as [|? [kx' x'] ? r2 [Hkx Hx] F']; subst. simpl in *.
  apply Forall2_app_inv_l in F' as (k2 & r3 & F2 & F' & ->).
  inversion F' as [|? [ky' y'] ? k3 [Hky Hy] F3]; subst. simpl in *.
  exists k1, k2, k3.
  assert (kx' = kx) as -> by congruence.
  assert (ky' = ky) as -> by congruence.
  reflexivity.
Qed.

Lemma sorted_stable l out x y kx ky :
  Sort.sorted keyf l = Ok out -> precedes x y l ->
  keyf x = Ok kx -> keyf y = Ok ky -> Sort.key_lt ky kx = false ->
  precedes x y out.
Proof.
  intros H P Ex Ey Hlt. apply sorted_inv in H as (ks & F & ->).
  apply (precedes_map snd (kx, x) (ky, y)).
  apply sort_stable; [|exact Hlt].
  eapply decorated_precedes; eauto.
Qed.

Lemma traverse_ext {B C} (f g : B -> result C) l :
  (forall a, In a l -> f a = g a) -> traverse f l = traverse g l.
Proof.
  induction l as [|a l IH]; intros H; simpl; [reflexivity|].
  rewrite (H a (or_introl eq_refl)), IH; [reflexivity|].
  intros; apply H; right; assumption.
Qed.

Lemma sorted_ext (g : A -> result Sort.key) l :
  (forall a, In a l -> keyf a = g a) -> Sort.sorted keyf l = Sort.sorted g l.
Proof.
  intros H. unfold Sort.sorted.
  rewrite (traverse_ext (fun a => do k <- keyf a; Ok (k, a))
                        (fun a => do k <- g a; Ok (k, a)) l); [reflexivity|].
  intros a Ha. rewrite (H a Ha). reflexivity.
Qed.

End Decorated.

Section Roots.
Context {rt : PyRuntime}.
Variable nodes : list (pystr * NodeBase).
Variable edges : list (pystr * pystr).

(** X23: of two roots of which the second has no smaller key, the one
    that stands first in the mapping comes first in the forest: roots that
    tie on the whole key keep the order in which the document declares
    them. *)
Theorem root_ties_keep_document_order forest seen n x y nx ny :
  keyed nodes ->
  build_forest nodes edges = Ok (forest, seen, n) ->
  precedes x y (root_ids nodes edges) ->
  Dict.get nodes x = Some nx -> Dict.get nodes y = Some ny ->
  Sort.key_lt (key_of ny) (key_of nx) = false ->
  precedes x y (map t_id forest).
Proof.
  intros Hk H P Gx Gy Hlt.
  destruct (forest_each nodes edges (fun node_id t => t_id t = node_id)
              forest seen n) as (roots & Hs & F); [|exact H|].
  { intros node_id s t s'. apply (render_id nodes _ Hk). }
  apply forall2_map_eq in F. rewrite F.
  eapply (sorted_stable _ (node_sort_key nodes)); eauto.
  - apply node_sort_key_ok. exists nx. split; [apply lookup_ok, Gx | reflexivity].
  - apply node_sort_key_ok. exists ny. split; [apply lookup_ok, Gy | reflexivity].
Qed.

End Roots.
End StableFacts.

(** ** What the iteration order of the sets leaves alone *)

Module OrderFacts.
Import StrFacts DictFacts SSetFacts ResultFacts SortFacts ForestFacts.
Import ShapeFacts WalkFacts CoverFacts StableFacts RunFacts RunCoverFacts.

Lemma sort_key_rt (rt1 rt2 : PyRuntime) nodes k :
  @uni_lower rt1 = @uni_lower rt2 -> @uni_int rt1 = @uni_int rt2 ->
  @node_sort_key rt1 nodes k = @node_sort_key rt2 nodes k.
Proof.
  destruct rt1, rt2. simpl. intros -> ->. reflexivity.
Qed.

Lemma parse_rt (rt1 rt2 : PyRuntime) root :
  @uni_isalnum rt1 = @uni_isalnum rt2 ->
  @uni_lower rt1 = @uni_lower rt2 ->
  @parse_owl_root rt1 root = @parse_owl_root rt2 root.
Proof.
  destruct rt1, rt2. simpl. intros -> ->. reflexivity.
Qed.

Lemma set_order_invariants
  (rt1 rt2 : PyRuntime) nodes edges f1 s1 n1 f2 s2 n2 :
  @uni_lower rt1 = @uni_lower rt2 -> @uni_int rt1 = @uni_int rt2 ->
  keyed nodes ->
  @build_forest rt1 nodes edges = Ok (f1, s1, n1) ->
  @build_forest rt2 nodes edges = Ok (f2, s2, n2) ->
  map t_id f1 = map t_id f2 /\ n1 = n2 /\ Permutation s1 s2.
Proof.
  intros El Ei Hk H1 H2.
  split; [|split].
  - destruct (@forest_each rt1 nodes edges (fun node_id t => t_id t = node_id)
                f1 s1 n1) as (r1 & Hs1 & F1); [|exact H1|].
    { intros node_id s t s'. apply (@render_id rt1 nodes _ Hk). }
    destruct (@forest_each rt2 nodes edges (fun node_id t => t_id t = node_id)
                f2 s2 n2) as (r2 & Hs2 & F2); [|exact H2|].
    { intros node_id s t s'. apply (@render_id rt2 nodes _ Hk). }
    apply forall2_map_eq in F1, F2. rewrite F1, F2.
    rewrite (sorted_ext _ (@node_sort_key rt1 nodes) (@node_sort_key rt2 nodes))
      in Hs1 by (intros; apply sort_key_rt; assumption).
    congruence.
  - apply build_forest_inv in H1 as (_ & _ & _ & ->).
    apply build_forest_inv in H2 as (_ & _ & _ & ->). reflexivity.
  - pose proof (@seen_reachable rt1 nodes edges f1 s1 n1 H1) as R1.
    pose proof (@seen_reachable rt2 nodes edges f2 s2 n2 H2) as R2.
    apply NoDup_Permutation.
    + apply (@forest_inv rt1) in H1 as (roots & _ & _ & He).
      destruct (@roots_seen rt1 nodes _ _ roots [] _ _ He)
        as ((_ & _ & Hn) & _).
      apply Hn. constructor.
    + apply (@forest_inv rt2) in H2 as (roots & _ & _ & He).
      destruct (@roots_seen rt2 nodes _ _ roots [] _ _ He)
        as ((_ & _ & Hn) & _).
      apply Hn. constructor.
    + intros k. rewrite R1, R2. tauto.
Qed.

(** X24: under two iteration orders of the sets the builder gives
    the same roots in the same order, the same edge count and the same seen
    set. *)
Theorem set_order_leaves_roots_and_coverage
  (rt1 rt2 : PyRuntime) nodes edges f1 s1 n1 f2 s2 n2 :
  @uni_lower rt1 = @uni_lower rt2 -> @uni_int rt1 = @uni_int rt2 ->
  keyed nodes ->
  @build_forest rt1 nodes edges = Ok (f1, s1, n1) ->
  @build_forest rt2 nodes edges = Ok (f2, s2, n2) ->
  map t_id f1 = map t_id f2 /\ n1 = n2 /\ Permutation s1 s2.
Proof. apply set_order_invariants. Qed.

(** X25: the iteration order of the sets changes neither what is
    extracted from a document, nor whether a run writes its output, nor the
    source, the counts and the order of the roots in what it writes. *)
Theorem run_failure_independent_of_set_order
  (rt1 rt2 : PyRuntime) src root :
  @uni_isalnum rt1 = @uni_isalnum rt2 ->
  @uni_lower rt1 = @uni_lower rt2 -> @uni_int rt1 = @uni_int rt2 ->
  @parse_owl_root rt1 root = @parse_owl_root rt2 root /\
  (written (@run rt1 src (Parsed root)) = None <->
   written (@run rt2 src (Parsed root)) = None) /\
  (forall p1 p2,
     written (@run rt1 src (Parsed root)) = Some p1 ->
     written (@run rt2 src (Parsed root)) = Some p2 ->
     source p1 = source p2 /\ node_count p1 = node_count p2 /\
     edge_count p1 = edge_count p2 /\
     map t_id (roots p1) = map t_id (roots p2)).
Proof.
  intros Ea El Ei. pose proof (parse_rt rt1 rt2 root Ea El) as Ep.
  split; [exact Ep|].
  destruct (@run_cases rt1 src root) as (f1 & s1 & Hb1 & Hc1).
  destruct (@run_cases rt2 src root) as (f2 & s2 & Hb2 & Hc2).
  cbv zeta in *. rewrite <- Ep in Hb2, Hc2.
  set (nodes := fst (@parse_owl_root rt1 root)) in *.
  set (edges := snd (@parse_owl_root rt1 root)) in *.
  assert (keyed nodes) as Hk by apply (@parse_owl_keyed rt1).
  destruct (set_order_invariants rt1 rt2 nodes edges
              _ _ _ _ _ _ El Ei Hk Hb1 Hb2) as (Hr & _ & Ps).
  assert (incl (Dict.keys nodes) s1 <-> incl (Dict.keys nodes) s2) as Hi.
  { split; intros H k Hin; apply H in Hin.
    - eapply Permutation_in; eauto.
    - eapply Permutation_in; [apply Permutation_sym|]; eauto. }
  destruct Hc1 as [(N1 & W1 & _) | (I1 & W1 & _)];
    destruct Hc2 as [(N2 & W2 & _) | (I2 & W2 & _)];
    try tauto; rewrite W1, W2; split; try tauto; try discriminate.
  - split; discriminate.
  - intros p1 p2 E1 E2. inversion E1; inversion E2; subst. simpl. auto.
Qed.

End OrderFacts.

(** ** Whitespace around keyword and number *)

Module SpacingFacts.
Import StrFacts ReFacts NormFacts LevelFacts LevelTupleFacts BoundaryFacts.
Import Re.

Lemma split_blank_prefix ws s : blank ws -> Str.split (ws ++ s) = Str.split s.
Proof.
  induction 1 as [|c ws Hc _ IH]; [reflexivity|].
  simpl. rewrite Hc. exact IH.
Qed.

Lemma split_unfold c s :
  Str.split (c :: s) =
  if Str.isspace c then Str.split s
  else match s with
       | [] => [[c]]
       | d :: _ =>
           if Str.isspace d then [c] :: Str.split s
           else match Str.split s with
                | t :: ts => (c :: t) :: ts
                | [] => [[c]]
                end
       end.
Proof. reflexivity. Qed.

Lemma split_word w : w <> [] -> Norm.no_ws w -> Str.split w = [w].
Proof.
  intros Hne H. induction H as [|c w Hc Hw IH]; [congruence|].
  rewrite split_unfold, Hc. destruct w as [|d w]; [reflexivity|].
  inversion Hw as [|? ? Hd _]; subst. rewrite Hd, IH by discriminate.
  reflexivity.
Qed.

Lemma split_word_gap w c s :
  w <> [] -> Norm.no_ws w -> Str.isspace c = true ->
  Str.split (w ++ c :: s) = w :: Str.split (c :: s).
Proof.
  intros Hne H Hc. induction H as [|x w Hx Hw IH]; [congruence|].
  change ((x :: w) ++ c :: s) with (x :: (w ++ c :: s)).
  rewrite split_unfold, Hx. destruct w as [|d w].
  - cbn [app]. rewrite Hc. reflexivity.
  - inversion Hw as [|? ? Hd _]; subst. cbn [app]. rewrite Hd.
    change (d :: w ++ c :: s) with ((d :: w) ++ c :: s).
    rewrite IH by discriminate. reflexivity.
Qed.

(** A word, whitespace and a word are normalized to the two words with one
    space between them. *)
Lemma norm_two_words w1 ws w2 :
  w1 <> [] -> Norm.no_ws w1 -> ws <> [] -> blank ws ->
  w2 <> [] -> Norm.no_ws w2 ->
  Norm.norm (w1 ++ ws ++ w2) = w1 ++ 32%N :: w2.
Proof.
  intros H1 N1 Hs Bs H2 N2. unfold Norm.norm.
  destruct ws as [|c ws]; [congruence|].
  pose proof Bs as Bs'. inversion Bs' as [|? ? Hc _]; subst.
  change ((c :: ws) ++ w2) with (c :: (ws ++ w2)).
  rewrite split_word_gap by assumption.
  change (c :: ws ++ w2) with ((c :: ws) ++ w2).
  rewrite split_blank_prefix by assumption.
  rewrite split_word by assumption. reflexivity.
Qed.

Section WithRuntime.
Context {rt : PyRuntime}.

(** The text of the digit groups behind the first: each with its dot in
    front. *)
Lemma join_dots g gs :
  Str.join (Str.lit ".") (g :: gs) = g ++ flat_map (fun p => 46%N :: p) gs.
Proof.
  revert g. induction gs as [|p gs IH]; intros g.
  - simpl. symmetry. apply app_nil_r.
  - rewrite join_cons, IH. reflexivity.
Qed.

Lemma dots_loop (step : option N -> pystr -> captures -> cont -> option captures)
  (k : cont) :
  (forall prev s cs k', step prev s cs k' =
     match s with
     | x :: s' =>
         if lit_match 46 x then matcher digits (Some x) s' cs k' else None
     | [] => None
     end) ->
  forall gs n prev cs res,
  Forall digit_run gs ->
  length (flat_map (fun p => 46%N :: p) gs) <= n ->
  k (lastc prev (flat_map (fun p => 46%N :: p) gs)) [] cs = Some res ->
  star_loop step k n prev (flat_map (fun p => 46%N :: p) gs) cs = Some res.
Proof.
  intros Hstep. induction gs as [|g gs IH]; intros n prev cs res Hg Hn Hk.
  - simpl in *. destruct n; simpl; [exact Hk|]. rewrite Hstep. exact Hk.
  - inversion Hg as [|? ? [Hne Fg] Hgs]; subst.
    destruct g as [|x g]; [congruence|].
    inversion Fg as [|? ? Hx Fg']; subst.
    destruct n as [|n]; [simpl in Hn; lia|].
    set (F := flat_map (fun p => 46%N :: p) gs) in *.
    change (flat_map (fun p => 46%N :: p) ((x :: g) :: gs))
      with (46%N :: x :: g ++ F) in *.
    cbn [star_loop]. rewrite Hstep.
    change (lit_match 46 46) with true. cbn iota.
    unfold digits, Plus. cbn [matcher]. rewrite Hx.
    erewrite (star_greedy (matcher (Class Str.isdigit)) Str.isdigit);
      [reflexivity | reflexivity | exact Fg' | | | ].
    + unfold F. destruct gs as [|p gs']; simpl; [exact I | reflexivity].
    + rewrite length_app. lia.
    + assert (Nat.ltb (length F) (length (46%N :: x :: g ++ F)) = true) as ->
        by (apply Nat.ltb_lt; simpl; rewrite length_app; lia).
      apply IH; [exact Hgs | simpl in Hn; rewrite length_app in Hn; lia|].
      rewrite <- Hk. cbn [lastc]. rewrite lastc_app. reflexivity.
Qed.

Lemma pattern_dotted kw (sp : pystr) g gs :
  In kw KEYWORDS -> sp = [] \/ sp = [32%N] ->
  digit_run g -> Forall digit_run gs ->
  matcher pattern None
          (kw ++ sp ++ g ++ flat_map (fun p => 46%N :: p) gs) []
          (fun _ _ cs => Some cs)
  = Some [(2, g ++ flat_map (fun p => 46%N :: p) gs); (1, kw)].
Proof.
  intros Hk Hsp Hd Hgs. pose proof Hd as [Hne Fd].
  destruct g as [|x g]; [congruence|].
  inversion Fd as [|? ? Hx Fd']; subst.
  pose proof (digit_not_space x Hx) as Hspx.
  set (F := flat_map (fun p => 46%N :: p) gs) in *.
  assert (word_opt (lastc (lastc (Some x) g) F) = true) as Hl.
  { rewrite <- lastc_app.
    change (lastc (Some x) (g ++ F)) with (lastc None ((x :: g) ++ F)).
    unfold F. rewrite <- join_dots. apply lastc_dotted.
    exists ((x :: g) :: gs). split; [discriminate|].
    split; [constructor; assumption | reflexivity]. }
  assert (match F with [] => True | y :: _ => Str.isdigit y = false end)
    as HF by (unfold F; destruct gs; simpl; [exact I | reflexivity]).
  subst F.
  destruct Hsp as [-> | ->]; destruct Hk as [<- | [<- | [<- | []]]].
  all: cbn -[Nat.sub firstn Nat.ltb]; rewrite ?Hspx, ?Hx.
  all: try (match goal with
            | |- context [Nat.ltb (S ?a) (S (S ?a))] =>
                assert (Nat.ltb (S a) (S (S a)) = true) as ->
                  by (apply Nat.ltb_lt; lia)
            end;
            cbn -[Nat.sub firstn Nat.ltb]; rewrite ?Hspx, ?Hx).
  all: erewrite star_greedy with (p := Str.isdigit) (d := g)
         (rest := flat_map (fun p => 46%N :: p) gs);
    [ | reflexivity | exact Fd' | exact HF | rewrite length_app; lia
      | apply dots_loop;
        [ reflexivity | exact Hgs | apply Nat.le_refl
        | unfold at_boundary; cbn [hd_error word_opt]; rewrite Hl;
          reflexivity ] ].
  all: rewrite Nat.sub_0_r;
    match goal with
    | |- context [firstn (S (length ?t)) (?y :: ?t)] =>
        change (S (length t)) with (length (y :: t))
    end;
    rewrite firstn_all.
  all: match goal with
       | |- context [firstn (?a - ?b) _] =>
           first [ replace (a - b) with 11 by lia
                 | replace (a - b) with 6 by lia ]
       end; reflexivity.
Qed.

Lemma keyword_word kw : In kw KEYWORDS -> kw <> [] /\ Norm.no_ws kw.
Proof.
  intros Hk. split.
  - destruct Hk as [<- | [<- | [<- | []]]]; discriminate.
  - apply Forall_forall. intros c Hc. apply letter_not_space.
    pose proof (keywords_letters kw Hk) as L.
    rewrite forallb_forall in L. auto.
Qed.

Lemma dotted_word num : dotted_digits num -> num <> [] /\ Norm.no_ws num.
Proof.
  intros (parts & Hne & Hd & ->).
  destruct parts as [|g gs]; [congruence|].
  inversion Hd as [|? ? [Hg Fg] Hgs]; subst. rewrite join_dots. split.
  - destruct g; [congruence | discriminate].
  - apply Forall_app. split.
    + eapply Forall_impl; [|exact Fg]. apply digit_not_space.
    + clear -Hgs. induction Hgs as [|p gs [_ Fp] _ IH]; simpl;
        constructor; [reflexivity|].
      apply Forall_app. split; [|exact IH].
      eapply Forall_impl; [|exact Fp]. apply digit_not_space.
Qed.

Lemma split_word_blank w b :
  w <> [] -> Norm.no_ws w -> blank b -> Str.split (w ++ b) = [w].
Proof.
  intros Hne Hw Hb. destruct b as [|c b].
  - rewrite app_nil_r. apply split_word; assumption.
  - pose proof Hb as Hb'. inversion Hb' as [|? ? Hc _]; subst.
    rewrite split_word_gap by assumption.
    rewrite <- (app_nil_r (c :: b)), split_blank_prefix by assumption.
    reflexivity.
Qed.

(** A keyword and a level number, with any whitespace before, between and
    behind them, are normalized to the two with one space between them, or
    to the two without a space if there was none. *)
Lemma norm_keyword_number a kw ws num b :
  blank a -> In kw KEYWORDS -> blank ws -> dotted_digits num -> blank b ->
  Norm.norm (a ++ kw ++ ws ++ num ++ b)
  = kw ++ match ws with [] => [] | _ :: _ => [32%N] end ++ num.
Proof.
  intros Ha Hk Hws Hd Hb.
  destruct (keyword_word kw Hk) as [K1 K2].
  destruct (dotted_word num Hd) as [D1 D2].
  unfold Norm.norm. rewrite split_blank_prefix by assumption.
  destruct ws as [|c ws].
  - cbn [app].
    rewrite app_assoc, split_word_blank; [reflexivity| | |assumption].
    + destruct kw; [congruence | discriminate].
    + apply Forall_app. auto.
  - pose proof Hws as Hws'. inversion Hws' as [|? ? Hc _]; subst.
    change ((c :: ws) ++ num ++ b) with (c :: (ws ++ num ++ b)).
    rewrite split_word_gap by assumption.
    change (c :: ws ++ num ++ b) with ((c :: ws) ++ num ++ b).
    rewrite split_blank_prefix by assumption.
    rewrite split_word_blank by assumption. reflexivity.
Qed.

Lemma extract_spaced a kw ws num b :
  blank a -> In kw KEYWORDS -> blank ws -> dotted_digits num -> blank b ->
  extract_level_metadata (Some (a ++ kw ++ ws ++ num ++ b))
  = (Some num, Some kw).
Proof.
  intros Ha Hk Hws Hd Hb.
  unfold extract_level_metadata. rewrite normalize_norm.
  rewrite (norm_keyword_number a kw ws num b Ha Hk Hws Hd Hb).
  set (sp := match ws with [] => [] | _ :: _ => [32%N] end).
  assert (sp = [] \/ sp = [32%N]) as Hsp
    by (unfold sp; destruct ws; auto).
  destruct Hd as (parts & Hne & Hp & ->).
  destruct parts as [|g gs]; [congruence|].
  inversion Hp as [|? ? Hg Hgs]; subst.
  assert (search pattern (kw ++ sp ++ Str.join (Str.lit ".") (g :: gs))
          = Some [(2, Str.join (Str.lit ".") (g :: gs)); (1, kw)]) as Hs.
  { rewrite join_dots. apply search_from_hit, pattern_dotted; assumption. }
  destruct (kw ++ sp ++ Str.join (Str.lit ".") (g :: gs)) as [|c s] eqn:E.
  { destruct Hk as [<- | [<- | [<- | []]]]; discriminate E. }
  rewrite Hs. cbn [group Nat.eqb].
  destruct Hk as [<- | [<- | [<- | []]]]; reflexivity.
Qed.

(** X26: a comment that consists of a keyword and a level number of
    dotted digits yields that number and that keyword, whatever whitespace
    (blanks, tabs, line breaks, or none) stands before, between and behind
    the two; a comment of whitespace only, or no comment, yields no
    level. *)
Theorem level_ignores_whitespace_layout :
  (forall a kw ws num b,
     blank a -> In kw KEYWORDS -> blank ws -> dotted_digits num -> blank b ->
     extract_level_metadata (Some (a ++ kw ++ ws ++ num ++ b))
     = (Some num, Some kw)) /\
  (forall comment,
     blank comment -> extract_level_metadata (Some comment) = (None, None)) /\
  extract_level_metadata None = (None, None).
Proof.
  split; [apply extract_spaced|]. split; [|reflexivity].
  intros comment Hb. unfold extract_level_metadata.
  rewrite normalize_norm. unfold Norm.norm.
  rewrite <- (app_nil_r comment), split_blank_prefix by assumption.
  reflexivity.
Qed.

End WithRuntime.
End SpacingFacts.

(** * Instances: counterexamples and witnesses *)

(** C8 as stated fails: the digits may stand right behind the keyword, as
    in "Gruppe3", and the level is extracted all the same. *)
Lemma abutting_digits_are_extracted :
  ~ (forall (rt : PyRuntime) (kw d : pystr),
       In kw KEYWORDS -> digit_run d ->
       extract_level_metadata (Some (kw ++ d)) = (None, None)).
Proof.
  intros H.
  specialize (H rt_fifo (Str.lit "Gruppe") (Str.lit "3")).
  assert (digit_run (Str.lit "3")) as D
    by (split; [discriminate | repeat constructor]).
  specialize (H (or_intror (or_introl eq_refl)) D).
  vm_compute in H. discriminate H.
Qed.

Lemma level_match_shape_witness :
  exists pre kwt ws post,
    normalize (Some (Str.lit "Gruppe3"))
    = pre ++ kwt ++ ws ++ Str.lit "3" ++ post /\
    In (Str.lit "Gruppe") KEYWORDS /\ ci_eq (Str.lit "Gruppe") kwt /\
    Forall (fun c => Str.isspace c = true) ws /\
    dotted_digits (Str.lit "3").
Proof.
  apply (proj1 (@LevelFacts.level_match_shape rt_fifo)).
  vm_compute. reflexivity.
Defined.

Lemma level_keyword_disambiguation_witness :
  In (Str.lit "Gruppe") KEYWORDS /\
  exists pre kwt ws post,
    normalize (Some (Str.lit "Gruppe 3"))
    = pre ++ kwt ++ ws ++ Str.lit "3" ++ post /\
    ci_eq (Str.lit "Gruppe") kwt /\
    (Str.lit "Gruppe" = Str.lit "Gruppe" ->
     forall pre' u, pre = pre' ++ u -> ~ ci_eq (Str.lit "Unter") u).
Proof.
  apply (proj1 (@LevelFacts.level_keyword_disambiguation rt_fifo)).
  vm_compute. reflexivity.
Defined.

(** C4 as stated fails: a node without a level does not always sort last;
    the sibling with the level 2000000000 comes after it. *)
Lemma unleveled_node_not_last :
  ~ (forall (rt : PyRuntime) nodes ids out x y nx ny,
       Sort.sorted (node_sort_key nodes) ids = Ok out ->
       In x ids -> In y ids ->
       lookup nodes x = Ok nx -> lookup nodes y = Ok ny ->
       ~ no_level nx -> no_level ny -> precedes x y out).
Proof.
  intros H.
  specialize (H rt_fifo big_level_nodes [Str.lit "a"; Str.lit "b"]
                [Str.lit "b"; Str.lit "a"] (Str.lit "a") (Str.lit "b")
                _ _ eq_refl (or_introl eq_refl) (or_intror (or_introl eq_refl))
                eq_refl eq_refl).
  assert (precedes (Str.lit "a") (Str.lit "b") [Str.lit "b"; Str.lit "a"])
    as (l1 & l2 & l3 & E).
  { apply H.
    - intros [N | [N | (l & E & N)]]; try discriminate.
      inversion E; subst. vm_compute in N. discriminate.
    - left. reflexivity. }
  destruct l1 as [|u1 [|u2 l1]]; simpl in E.
  - discriminate E.
  - injection E as _ E. destruct l2; discriminate E.
  - injection E as _ _ E. destruct l1; discriminate E.
Qed.

Lemma sibling_order_witness :
  Sort.sorted (@node_sort_key rt_fifo three_siblings)
              [Str.lit "x"; Str.lit "y"; Str.lit "z"]
  = Ok [Str.lit "z"; Str.lit "y"; Str.lit "x"].
Proof.
  eapply (proj2 (proj2 (proj2 (proj2
            (@ForestFacts.sibling_order rt_fifo three_siblings))))).
  - reflexivity.
  - reflexivity.
  - reflexivity.
  - reflexivity.
  - reflexivity.
  - reflexivity.
  - repeat constructor; simpl; intuition discriminate.
  - apply Permutation_rev.
Defined.

Lemma render_terminates_witness :
  exists t seen,
    @render rt_fifo cycle_nodes (fst (index_edges cycle_edges)) 4
            (Str.lit "A") [] [] = Ok (t, seen).
Proof.
  destruct (@ForestFacts.render_terminates rt_fifo cycle_nodes)
    as (_ & Hfuel & _ & _ & _ & _ & Hbound).
  destruct (Hbound cycle_edges 4 (Str.lit "A") [] []) as [F | H].
  - intros child parent [H | [H | [H | []]]]; inversion H; subst;
      simpl; auto.
  - simpl. auto.
  - exfalso. revert F.
    apply (Hfuel (fst (index_edges cycle_edges)) 4 (Str.lit "A") [] []).
    + constructor.
    + intros y [].
    + simpl. lia.
  - exact H.
Defined.

(** C1 fails on the code: when the walk has missed a node, as it misses A
    and B here, the re-sort of the post-pass calls [level_to_tuple], a name
    that is local to [build_forest]; the run ends in a [NameError] and
    writes nothing. *)
Theorem detached_cycle_run_fails (rt : PyRuntime) (src : pystr) :
  (exists forest,
     build_forest (fst (parse_owl_root detached_cycle_doc))
                  (snd (parse_owl_root detached_cycle_doc))
     = Ok (forest, [Str.lit "http://x.org/o#R"], 2)) /\
  SSet.diff (Dict.keys (fst (parse_owl_root detached_cycle_doc)))
            [Str.lit "http://x.org/o#R"]
  = [Str.lit "http://x.org/o#A"; Str.lit "http://x.org/o#B"] /\
  run src (Parsed detached_cycle_doc)
  = {| written := None; status := Raise (NameError "level_to_tuple") |}.
Proof.
  assert (exists forest,
            build_forest (fst (parse_owl_root detached_cycle_doc))
                         (snd (parse_owl_root detached_cycle_doc))
            = Ok (forest, [Str.lit "http://x.org/o#R"], 2)) as [forest Hb]
    by (eexists; vm_compute; reflexivity).
  split; [eauto|]. split; [vm_compute; reflexivity|].
  eapply RunFacts.run_uncovered; [exact Hb|].
  intros H.
  specialize (H (Str.lit "http://x.org/o#A")
                (or_intror (or_introl eq_refl))).
  vm_compute in H. destruct H as [H | []]. discriminate H.
Qed.

(** C7 fails on the code, by the defect of C1: here a node has an empty
    label, yet the run ends in the [NameError] of the post-pass and not in
    the validation error. *)
Theorem empty_label_run_fails_early (rt : PyRuntime) (src : pystr) :
  (exists node,
     In node (Dict.values (fst (parse_owl_root empty_label_doc))) /\
     label node = []) /\
  run src (Parsed empty_label_doc)
  = {| written := None; status := Raise (NameError "level_to_tuple") |} /\
  status (run src (Parsed empty_label_doc))
  <> Raise (RuntimeError EMPTY_LABELS_MSG).
Proof.
  assert (run src (Parsed empty_label_doc)
          = {| written := None;
               status := Raise (NameError "level_to_tuple") |}) as Hr.
  { assert (exists forest seen,
              build_forest (fst (parse_owl_root empty_label_doc))
                           (snd (parse_owl_root empty_label_doc))
              = Ok (forest, seen, 2) /\
              ~ In (Str.lit "http://x.org/o#A") seen)
      as (forest & seen & Hb & Hn).
    { eexists. eexists. split; [vm_compute; reflexivity|].
      vm_compute. intros [H | [H | []]]; discriminate H. }
    eapply RunFacts.run_uncovered; [exact Hb|].
    intros H. apply Hn, H. vm_compute. auto. }
  split; [|split; [exact Hr | rewrite Hr; discriminate]].
  eexists. split; [right; left; reflexivity | vm_compute; reflexivity].
Qed.

(** C9 fails on the code: two siblings that tie on the whole sort key come
    out in the order in which the set of children hands them out, and that
    order follows the hashes of the interpreter process; under two
    iteration orders the same document gives two different forests. *)
Theorem sibling_ties_follow_set_order :
  let nodes := fst (@parse_owl_root rt_fifo tie_doc) in
  let edges := snd (@parse_owl_root rt_fifo tie_doc) in
  (fst (@parse_owl_root rt_lifo tie_doc) = nodes /\
   snd (@parse_owl_root rt_lifo tie_doc) = edges) /\
  @node_sort_key rt_fifo nodes (Str.lit "http://a.org/o#Drehen")
  = @node_sort_key rt_fifo nodes (Str.lit "http://b.org/o#Drehen") /\
  (exists p q forest1 forest2 seen1 seen2,
     @build_forest rt_fifo nodes edges = Ok ([forest1], seen1, 2) /\
     @build_forest rt_lifo nodes edges = Ok ([forest2], seen2, 2) /\
     map t_id (t_children forest1) = [p; q] /\
     map t_id (t_children forest2) = [q; p] /\ p <> q) /\
  @build_forest rt_fifo nodes edges <> @build_forest rt_lifo nodes edges /\
  written (@run rt_fifo [] (Parsed tie_doc))
  <> written (@run rt_lifo [] (Parsed tie_doc)).
Proof.
  cbv zeta.
  split; [split; vm_compute; reflexivity|].
  split; [vm_compute; reflexivity|].
  split.
  { do 6 eexists.
    split; [vm_compute; reflexivity|].
    split; [vm_compute; reflexivity|].
    split; [vm_compute; reflexivity|].
    split; [vm_compute; reflexivity|]. discriminate. }
  split; vm_compute; discriminate.
Qed.

(** *** Witnesses *)

Lemma three_cycle_witness :
  exists roots forest seen,
    @build_forest rt_fifo cycle_nodes cycle_edges = Ok (forest, seen, 3) /\
    Permutation roots [Str.lit "A"; Str.lit "B"; Str.lit "C"] /\
    Permutation seen [Str.lit "A"; Str.lit "B"; Str.lit "C"] /\
    Forall (fun t => Exists is_cycle_leaf (subtrees t)) forest.
Proof.
  assert (Str.lit "A" <> Str.lit "B") as Hab by discriminate.
  assert (Str.lit "B" <> Str.lit "C") as Hbc by discriminate.
  assert (Str.lit "A" <> Str.lit "C") as Hac by discriminate.
  destruct (proj2 (@CycleFacts.three_cycle rt_fifo
                     (Str.lit "A") (Str.lit "B") (Str.lit "C")
                     (cycle_node "A") (cycle_node "B") (cycle_node "C")
                     Hab Hbc Hac))
    as (roots & forest & seen & H1 & _ & H2 & _ & _ & H3 & H4).
  exists roots, forest, seen. auto.
Defined.


Lemma edge_filtering_witness :
  In (Str.lit "http://x.org/o#A", Str.lit "http://x.org/o#B")
     (snd (@parse_owl_root rt_fifo forward_doc)) /\
  ~ In (Str.lit "http://x.org/o#A", Str.lit "http://x.org/o#Nowhere")
       (snd (@parse_owl_root rt_fifo forward_doc)).
Proof.
  pose proof (@RunFacts.edge_filtering rt_fifo [] forward_doc)
    as (_ & _ & Hfwd & _ & _ & _ & Hno).
  split.
  - apply (Hfwd (class_el "http://x.org/o#A"
                   [sub_class_of "http://x.org/o#B";
                    sub_class_of "http://x.org/o#Nowhere"])
                (class_el "http://x.org/o#B" [])).
    + vm_compute. auto.
    + vm_compute. auto.
    + reflexivity.
    + reflexivity.
    + vm_compute. auto.
  - apply (Hno (Str.lit "http://x.org/o#A")
               (Str.lit "http://x.org/o#Nowhere")).
    right. vm_compute. intros [H | [H | []]]; discriminate H.
Defined.

(** *** Witnesses of the further properties *)

Ltac not_in := simpl; intuition discriminate.

Lemma fragment_after_last_hash_witness :
  extract_fragment (Str.lit "http://x.org/o" ++ 35%N :: Str.lit "Drehen")
  = Str.lit "Drehen".
Proof.
  apply (proj1 FragmentFacts.fragment_after_last_hash). not_in.
Defined.

Lemma fragment_last_path_segment_witness :
  extract_fragment (Str.lit "http://x.org/o" ++ 47%N :: Str.lit "Drehen"
                    ++ repeat 47%N 2)
  = Str.lit "Drehen".
Proof.
  apply (proj1 (proj2 FragmentFacts.fragment_last_path_segment));
    [not_in | not_in | not_in | discriminate].
Defined.

Lemma fragment_empty_witness :
  extract_fragment (Str.lit "http://x.org/o#") = [].
Proof.
  apply (proj2 (FragmentFacts.fragment_empty (Str.lit "http://x.org/o#"))).
  left. exists (Str.lit "http://x.org/o"). reflexivity.
Defined.

Lemma humanize_fragment_idempotent_witness :
  humanize_fragment (Str.lit "_ _") = [].
Proof.
  apply (proj2 (proj2 LabelFacts.humanize_fragment_idempotent)).
  repeat constructor.
Defined.

Lemma label_empty_iff_witness :
  parse_preferred_label (rt := rt_fifo) (class_el "http://x.org/o#_" [])
                        (Str.lit "_") = [].
Proof.
  apply (proj2 (@LabelFacts.label_empty_iff rt_fifo _ _)).
  split; repeat constructor.
Defined.

Lemma level_match_at_word_boundaries_witness :
  exists pre kwt ws post,
    normalize (Some (Str.lit "siehe Gruppe 3.")) 
    = pre ++ kwt ++ ws ++ Str.lit "3" ++ post /\
    ci_eq (Str.lit "Gruppe") kwt /\
    Forall (fun c => Str.isspace c = true) ws /\
    (forall pre' c, pre = pre' ++ [c] -> @Str.is_word rt_fifo c = false) /\
    (forall c post', post = c :: post' -> @Str.is_word rt_fifo c = false).
Proof.
  apply (proj1 (@BoundaryFacts.level_match_at_word_boundaries rt_fifo)).
  vm_compute. reflexivity.
Defined.

Lemma extracted_level_is_numeric_witness :
  exists parts,
    parts <> [] /\ Forall digit_run parts /\
    Str.lit "5.1.2" = Str.join (Str.lit ".") parts /\
    all_some (map (@py_int rt_fifo) (split_on 46 (Str.lit "5.1.2")))
    = Some (map decimal parts) /\
    @level_to_tuple rt_fifo (Some (Str.lit "5.1.2")) = map decimal parts /\
    Forall (fun z => (0 <= z)%Z)
           (@level_to_tuple rt_fifo (Some (Str.lit "5.1.2"))).
Proof.
  apply (@LevelTupleFacts.extracted_level_is_numeric rt_fifo
           (Some (Str.lit "Untergruppe 5.1.2")) (Str.lit "5.1.2")
           (Str.lit "Untergruppe")).
  - vm_compute. reflexivity.
  - simpl. lia.
Defined.

Lemma level_to_tuple_fallback_witness :
  @level_to_tuple rt_fifo (Some (Str.lit "1" ++ 46%N :: 46%N :: Str.lit "2"))
  = SENTINEL.
Proof.
  apply (proj1 (proj2 (proj2 (@FallbackFacts.level_to_tuple_fallback rt_fifo)))).
Defined.

Lemma node_mapping_keys_witness :
  Dict.keys (fst (@parse_owl_root rt_fifo twice_doc))
  = first_occurrences
      (class_iris (findall_deep twice_doc (qname OWL_NS "Class"))).
Proof.
  apply (proj1 (@NodeFacts.node_mapping_keys rt_fifo twice_doc)).
Defined.

Lemma last_declaration_wins_witness :
  Dict.get (fst (@parse_owl_root rt_fifo twice_doc))
           (Str.lit "http://x.org/o#A")
  = Some (@node_of rt_fifo
            (class_el "http://x.org/o#A" [label_el "second"])
            (Str.lit "http://x.org/o#A")).
Proof.
  apply (proj2 (@NodeFacts.last_declaration_wins rt_fifo twice_doc)
           [class_el "http://x.org/o#A" [label_el "first"]] _ []).
  - reflexivity.
  - reflexivity.
  - constructor.
Defined.

Lemma node_records_wellformed_witness :
  exists n,
    Dict.get (fst (@parse_owl_root rt_fifo forward_doc))
             (Str.lit "http://x.org/o#A") = Some n /\
    id n = Str.lit "http://x.org/o#A" /\
    raw_fragment n = Str.lit "A" /\
    Str.strip (label n) = label n.
Proof.
  assert (exists n,
            Dict.get (fst (@parse_owl_root rt_fifo forward_doc))
                     (Str.lit "http://x.org/o#A") = Some n) as [n Hn]
    by (eexists; vm_compute; reflexivity).
  destruct (@NodeFacts.node_records_wellformed rt_fifo forward_doc
              (Str.lit "http://x.org/o#A") n Hn)
    as (_ & H2 & H3 & H4 & _).
  exists n. split; [exact Hn|]. split; [exact H2|].
  split; [rewrite H3; reflexivity | exact H4].
Defined.

Ltac run_forest doc :=
  let H := fresh "H" in
  assert (exists forest seen n,
            @build_forest rt_fifo (fst (@parse_owl_root rt_fifo doc))
                          (snd (@parse_owl_root rt_fifo doc))
            = Ok (forest, seen, n)) as (forest & seen & n & H)
    by (do 3 eexists; vm_compute; reflexivity);
  pose proof (@RunCoverFacts.parse_owl_keyed rt_fifo doc) as K;
  exists forest, seen, n; split; [exact H|].

Lemma forest_roots_witness :
  exists forest seen n,
    @build_forest rt_fifo (fst (@parse_owl_root rt_fifo detached_cycle_doc))
                  (snd (@parse_owl_root rt_fifo detached_cycle_doc))
    = Ok (forest, seen, n) /\
    Permutation (map t_id forest)
      (root_ids (fst (@parse_owl_root rt_fifo detached_cycle_doc))
                (snd (@parse_owl_root rt_fifo detached_cycle_doc))).
Proof.
  run_forest detached_cycle_doc.
  apply (proj1 (proj2 (@CoverFacts.forest_roots rt_fifo _ _ forest seen n K H))).
Defined.

Lemma root_ties_keep_document_order_witness :
  exists forest seen n,
    @build_forest rt_fifo (fst (@parse_owl_root rt_fifo two_roots_doc))
                  (snd (@parse_owl_root rt_fifo two_roots_doc))
    = Ok (forest, seen, n) /\
    precedes (Str.lit "http://a.org/o#Drehen") (Str.lit "http://b.org/o#Drehen")
             (map t_id forest).
Proof.
  run_forest two_roots_doc.
  eapply (@StableFacts.root_ties_keep_document_order rt_fifo _ _
            forest seen n _ _ _ _ K H).
  - exists [], [], []. reflexivity.
  - reflexivity.
  - reflexivity.
  - reflexivity.
Defined.

Lemma forest_nodes_are_records_witness :
  exists forest seen n,
    @build_forest rt_fifo (fst (@parse_owl_root rt_fifo tie_doc))
                  (snd (@parse_owl_root rt_fifo tie_doc))
    = Ok (forest, seen, n) /\
    forall t u, In t forest -> In u (subtrees t) ->
      exists nd, Dict.get (fst (@parse_owl_root rt_fifo tie_doc)) (t_id u)
                 = Some nd /\
                 u = node_dict nd (t_children u) (t_cycle u).
Proof.
  run_forest tie_doc.
  apply (@CoverFacts.forest_nodes_are_records rt_fifo _ _ forest seen n K H).
Defined.

Lemma forest_children_complete_witness :
  exists forest seen n,
    @build_forest rt_fifo (fst (@parse_owl_root rt_fifo tie_doc))
                  (snd (@parse_owl_root rt_fifo tie_doc))
    = Ok (forest, seen, n) /\
    forall t u, In t forest -> In u (subtrees t) ->
      (t_cycle u = true -> t_children u = []) /\
      (t_cycle u = false ->
       NoDup (map t_id (t_children u)) /\
       forall c, In c (map t_id (t_children u)) <->
                 In (c, t_id u) (snd (@parse_owl_root rt_fifo tie_doc))).
Proof.
  run_forest tie_doc.
  apply (@CoverFacts.forest_children_complete rt_fifo _ _ forest seen n K H).
Defined.

(** Every record of the 3-cycle is stored under its own identity. *)
Lemma cycle_nodes_keyed : keyed cycle_nodes.
Proof.
  intros k n H. unfold cycle_nodes in H. cbn [map Dict.get] in H.
  repeat match type of H with
         | context [Str.eqb k ?x] =>
             let E := fresh "E" in
             destruct (Str.eqb k x) eqn:E;
             [apply StrFacts.eqb_eq in E; inversion H; subst; reflexivity|]
         end.
  discriminate H.
Defined.

Lemma cycle_flag_marks_ancestor_witness :
  exists forest seen n,
    @build_forest rt_fifo cycle_nodes cycle_edges = Ok (forest, seen, n) /\
    map t_id forest = [Str.lit "A"; Str.lit "B"; Str.lit "C"] /\
    Forall (fun t => Exists is_cycle_leaf (subtrees t)) forest /\
    Forall (path_sound []) forest.
Proof.
  assert (exists forest seen n,
            @build_forest rt_fifo cycle_nodes cycle_edges
            = Ok (forest, seen, n) /\
            map t_id forest = [Str.lit "A"; Str.lit "B"; Str.lit "C"] /\
            Forall (fun t => Exists is_cycle_leaf (subtrees t)) forest)
    as (forest & seen & n & H & Hids & Hleaf).
  { do 3 eexists. split; [vm_compute; reflexivity|].
    split; [reflexivity|].
    repeat constructor;
      (apply Exists_exists; eexists;
       split; [|split; reflexivity]; simpl; auto 10). }
  exists forest, seen, n.
  split; [exact H|]. split; [exact Hids|]. split; [exact Hleaf|].
  apply (@CoverFacts.cycle_flag_marks_ancestor rt_fifo _ _ forest seen n
           cycle_nodes_keyed H).
Defined.

Lemma seen_counts_walked_nodes_witness :
  exists forest seen n,
    @build_forest rt_fifo (fst (@parse_owl_root rt_fifo tie_doc))
                  (snd (@parse_owl_root rt_fifo tie_doc))
    = Ok (forest, seen, n) /\
    NoDup seen /\
    forall k, In k seen <-> exists t, In t forest /\ In k (walked t).
Proof.
  run_forest tie_doc.
  destruct (@CoverFacts.seen_counts_walked_nodes rt_fifo _ _ forest seen n K H)
    as (H1 & _ & _ & H2).
  split; [exact H1 | exact H2].
Defined.

Lemma seen_is_reachable_set_witness :
  exists forest seen n,
    @build_forest rt_fifo (fst (@parse_owl_root rt_fifo detached_cycle_doc))
                  (snd (@parse_owl_root rt_fifo detached_cycle_doc))
    = Ok (forest, seen, n) /\
    forall k, In k seen <->
      exists r,
        In r (root_ids (fst (@parse_owl_root rt_fifo detached_cycle_doc))
                       (snd (@parse_owl_root rt_fifo detached_cycle_doc))) /\
        descends (snd (@parse_owl_root rt_fifo detached_cycle_doc)) r k.
Proof.
  run_forest detached_cycle_doc.
  apply (proj1 (@CoverFacts.seen_is_reachable_set rt_fifo _ _ forest seen n H)).
Defined.

(** The edges of [tie_doc] close no loop. *)
Lemma tie_doc_acyclic : acyclic (snd (@parse_owl_root rt_fifo tie_doc)).
Proof.
  assert (snd (@parse_owl_root rt_fifo tie_doc)
          = [(Str.lit "http://a.org/o#Drehen", Str.lit "http://x.org/o#P");
             (Str.lit "http://b.org/o#Drehen", Str.lit "http://x.org/o#P")])
    as -> by (vm_compute; reflexivity).
  intros c p Hin Hd.
  assert (p = Str.lit "http://x.org/o#P" /\ c <> p) as [-> Hne].
  { destruct Hin as [E | [E | []]]; inversion E; subst;
      split; try reflexivity; discriminate. }
  inversion Hd as [E | q c' Hq Hin' E]; [congruence|].
  destruct Hin' as [E' | [E' | []]]; discriminate E'.
Defined.

Lemma acyclic_walk_covers_all_witness :
  exists forest seen n,
    @build_forest rt_fifo (fst (@parse_owl_root rt_fifo tie_doc))
                  (snd (@parse_owl_root rt_fifo tie_doc))
    = Ok (forest, seen, n) /\
    incl (Dict.keys (fst (@parse_owl_root rt_fifo tie_doc))) seen.
Proof.
  run_forest tie_doc.
  apply (proj1 (@CoverFacts.acyclic_walk_covers_all rt_fifo _ _ forest seen n
                  (@RunCoverFacts.parse_owl_valid rt_fifo tie_doc)
                  tie_doc_acyclic H)).
Defined.

Lemma build_forest_errors_witness :
  exists forest seen,
    @build_forest rt_fifo three_siblings
                  [(Str.lit "x", Str.lit "nowhere")]
    = Ok (forest, seen, 1).
Proof.
  apply (proj2 (@CoverFacts.build_forest_errors rt_fifo three_siblings
                  [(Str.lit "x", Str.lit "nowhere")])).
  intros c p [E | []]. inversion E; subst. left. reflexivity.
Defined.

Lemma set_order_leaves_roots_and_coverage_witness :
  exists f1 s1 n1 f2 s2 n2,
    @build_forest rt_fifo (fst (@parse_owl_root rt_fifo tie_doc))
                  (snd (@parse_owl_root rt_fifo tie_doc)) = Ok (f1, s1, n1) /\
    @build_forest rt_lifo (fst (@parse_owl_root rt_fifo tie_doc))
                  (snd (@parse_owl_root rt_fifo tie_doc)) = Ok (f2, s2, n2) /\
    map t_id f1 = map t_id f2 /\ n1 = n2 /\ Permutation s1 s2.
Proof.
  assert (exists f1 s1 n1,
            @build_forest rt_fifo (fst (@parse_owl_root rt_fifo tie_doc))
                          (snd (@parse_owl_root rt_fifo tie_doc))
            = Ok (f1, s1, n1)) as (f1 & s1 & n1 & H1)
    by (do 3 eexists; vm_compute; reflexivity).
  assert (exists f2 s2 n2,
            @build_forest rt_lifo (fst (@parse_owl_root rt_fifo tie_doc))
                          (snd (@parse_owl_root rt_fifo tie_doc))
            = Ok (f2, s2, n2)) as (f2 & s2 & n2 & H2)
    by (do 3 eexists; vm_compute; reflexivity).
  exists f1, s1, n1, f2, s2, n2. split; [exact H1|]. split; [exact H2|].
  apply (OrderFacts.set_order_leaves_roots_and_coverage rt_fifo rt_lifo
           _ _ f1 s1 n1 f2 s2 n2 eq_refl eq_refl
           (@RunCoverFacts.parse_owl_keyed rt_fifo tie_doc) H1 H2).
Defined.


Lemma acyclic_run_completes_witness :
  written (@run rt_fifo [] (Parsed tie_doc)) <> None.
Proof.
  apply (proj1 (@RunCoverFacts.acyclic_run_completes rt_fifo [] tie_doc
                  tie_doc_acyclic)).
Defined.

Lemma written_output_is_complete_witness :
  exists p seen,
    written (@run rt_fifo [] (Parsed tie_doc)) = Some p /\
    @build_forest rt_fifo (fst (@parse_owl_root rt_fifo tie_doc))
                  (snd (@parse_owl_root rt_fifo tie_doc))
    = Ok (roots p, seen, edge_count p) /\
    length seen = node_count p.
Proof.
  assert (exists p, written (@run rt_fifo [] (Parsed tie_doc)) = Some p)
    as [p Hp] by (eexists; vm_compute; reflexivity).
  destruct (@RunCoverFacts.written_output_is_complete rt_fifo [] tie_doc p Hp)
    as (seen & Hb & _ & _ & _ & Hl & _).
  exists p, seen. split; [exact Hp|]. split; [exact Hb | exact Hl].
Defined.

Lemma run_failure_independent_of_set_order_witness :
  written (@run rt_fifo [] (Parsed detached_cycle_doc)) = None <->
  written (@run rt_lifo [] (Parsed detached_cycle_doc)) = None.
Proof.
  apply (proj1 (proj2 (OrderFacts.run_failure_independent_of_set_order
                         rt_fifo rt_lifo [] detached_cycle_doc
                         eq_refl eq_refl eq_refl))).
Defined.

Lemma level_ignores_whitespace_layout_witness :
  extract_level_metadata (rt := rt_fifo)
    (Some ([32%N] ++ Str.lit "Gruppe" ++ [10%N; 9%N] ++ Str.lit "3.1"
           ++ [32%N]))
  = (Some (Str.lit "3.1"), Some (Str.lit "Gruppe")).
Proof.
  apply (proj1 (@SpacingFacts.level_ignores_whitespace_layout rt_fifo)
           [32%N] (Str.lit "Gruppe") [10%N; 9%N] (Str.lit "3.1") [32%N]).
  - unfold blank. repeat constructor.
  - right. left. reflexivity.
  - unfold blank. repeat constructor.
  - exists [Str.lit "3"; Str.lit "1"]. split; [discriminate|].
    split; [|reflexivity].
    repeat constructor; discriminate.
  - unfold blank. repeat constructor.
Defined.
